(** * fpga_cores test runner ([run.py]): reference-file codec, error-injection
    derivations and test-matrix builder.

    The development embeds the Python functions of [run.py] as Rocq
    functions.  Python [int] is [Z]; Python [str] and [bytes] values are
    lists of characters; exceptions are an explicit outcome; the random
    generator, the file system and the VUnit project are threaded through a
    state-and-exception monad. *)

From Stdlib Require Import ZArith Ascii String Lia.
From stdpp Require Import base tactics option list gmap strings sorting.

Local Open Scope Z_scope.

(** ** Python values *)

(** Python [str] and [bytes] objects (every character used by the tool is
    ASCII, so the two coincide byte for byte). *)
Abbreviation str := (list ascii).

(** A string literal of the source. *)
Definition lit (x : string) : str := list_ascii_of_string x.

Definition NL : ascii := ascii_of_nat 10.
Definition COMMA : ascii := ascii_of_nat 44.

(** ** Exceptions *)

Inductive exn : Type :=
| IndexError
| ValueError
| AssertionError
| StructError
| FileNotFoundError.

(** Outcome of running a piece of the program.  [OutOfFuel] is not a Python
    outcome: it marks a fuelled loop of the model that ran out of fuel, and
    is shown never to happen. *)
Inductive result (A : Type) : Type :=
| Ok (a : A)
| Raise (e : exn)
| OutOfFuel.
Arguments Ok {A} a.
Arguments Raise {A} e.
Arguments OutOfFuel {A}.

Global Instance result_ret : MRet result := λ A a, Ok a.

Global Instance result_bind : MBind result := λ A B k r,
  match r with
  | Ok a => k a
  | Raise e => Raise e
  | OutOfFuel => OutOfFuel
  end.

(** ** Sequences: indexing, slicing, split and join *)

(** Normalisation of a slice bound, as Python does for [l[a:b]]. *)
Definition slice_bound (len k : Z) : nat :=
  if k <? 0 then Z.to_nat (Z.max 0 (len + k)) else Z.to_nat (Z.min len k).

(** [l[lo:hi]]; an omitted bound is [None]. *)
Definition slice {A} (l : list A) (lo hi : option Z) : list A :=
  let len := Z.of_nat (length l) in
  let a := from_option (slice_bound len) 0%nat lo in
  let b := from_option (slice_bound len) (length l) hi in
  take (b - a) (drop a l).

(** [l[k]], with Python's negative indices and [IndexError]. *)
Definition index {A} (l : list A) (k : Z) : result A :=
  let k' := if k <? 0 then Z.of_nat (length l) + k else k in
  if k' <? 0 then Raise IndexError
  else match l !! Z.to_nat k' with
       | Some x => Ok x
       | None => Raise IndexError
       end.

(** [s.split(sep)] for a one-character separator: never the empty list. *)
Fixpoint split_on (sep : ascii) (s : str) : list str :=
  match s with
  | [] => [[]]
  | c :: s' =>
      if decide (c = sep) then [] :: split_on sep s'
      else match split_on sep s' with
           | [] => [[c]]
           | w :: ws => (c :: w) :: ws
           end
  end.

(** [sep.join(parts)]. *)
Fixpoint join (sep : str) (parts : list str) : str :=
  match parts with
  | [] => []
  | [p] => p
  | p :: rest => p ++ sep ++ join sep rest
  end.

(** [s.strip()]: ASCII white space removed at both ends. *)
Definition is_space (c : ascii) : bool :=
  let n := nat_of_ascii c in
  ((9 <=? n) && (n <=? 13) || (n =? 32))%nat.

Fixpoint lstrip (s : str) : str :=
  match s with
  | c :: s' => if is_space c then lstrip s' else s
  | [] => []
  end.

Definition strip (s : str) : str := rev (lstrip (rev (lstrip s))).

(** ** Number formatting and parsing *)

Definition hexdigit (d : Z) : ascii :=
  if d <? 10 then ascii_of_nat (48 + Z.to_nat d) else ascii_of_nat (87 + Z.to_nat d).

(** Digits of a non-negative number in base [b], most significant first;
    nothing at all for 0. *)
Fixpoint digits_aux (b : Z) (fuel : nat) (n : Z) (acc : str) : str :=
  match fuel with
  | O => acc
  | S fuel' =>
      if n <=? 0 then acc
      else digits_aux b fuel' (n / b) (hexdigit (n mod b) :: acc)
  end.

(** Digits of [|v|] in base [b], a single [0] for zero. *)
Definition digits (b : Z) (v : Z) : str :=
  let n := Z.abs v in
  if n =? 0 then lit "0" else digits_aux b (S (Z.to_nat (Z.log2 n))) n [].

Definition sign_of (v : Z) : str := if v <? 0 then lit "-" else [].

Definition zeros (n : nat) : str := replicate n "0"%char.

(** [f"{v:x}"]. *)
Definition format_x (v : Z) : str := sign_of v ++ digits 16 v.

(** [f"{v:02x}"]: sign-aware zero padding to a total width of 2. *)
Definition format_02x (v : Z) : str :=
  let d := digits 16 v in
  sign_of v ++ zeros (2 - length (sign_of v) - length d) ++ d.

(** ["%.<p>x" % v]: at least [p] digits, zero-padded on the left; Python
    prints a digit for 0 even at precision 0. *)
Definition format_prec_x (p : Z) (v : Z) : str :=
  let d := digits 16 v in
  sign_of v ++ zeros (Z.to_nat p - length d) ++ d.

(** [f"{v}"] for an integer. *)
Definition format_d (v : Z) : str := sign_of v ++ digits 10 v.

(** [bin(v)]. *)
Definition py_bin (v : Z) : str := sign_of v ++ lit "0b" ++ digits 2 v.

(** [int(s, 2)] on the strings the tool can build: a non-empty run of the
    characters 0 and 1.  Anything else raises [ValueError] here (Python
    would also take a sign, a [0b] prefix, underscores and surrounding
    blanks, none of which occurs in a slice of the flattened bit string). *)
Fixpoint int2_acc (acc : Z) (s : str) : result Z :=
  match s with
  | [] => Ok acc
  | c :: s' =>
      if decide (c = "0"%char) then int2_acc (2 * acc) s'
      else if decide (c = "1"%char) then int2_acc (2 * acc + 1) s'
      else Raise ValueError
  end.

Definition int2 (s : str) : result Z :=
  match s with
  | [] => Raise ValueError
  | _ => int2_acc 0 s
  end.

(** [struct.pack("<" + length * "B", *data)]: one byte per value;
    [struct.error] on a wrong count or a value outside 0..255. *)
Definition struct_pack_B (length_ : Z) (data : list Z) : result str :=
  if negb (Z.of_nat (length data) =? Z.max 0 length_) then Raise StructError
  else if forallb (λ b, (0 <=? b) && (b <=? 255)) data
       then Ok (map (λ b, ascii_of_nat (Z.to_nat b)) data)
       else Raise StructError.

(** ** The reference-file codec: body of [generateAxiFileReaderTestFile] *)

(** [for i, x in enumerate(l)], starting the count at [i]. *)
Fixpoint for_enumerate {St A} (body : St → Z → A → St) (i : Z) (l : list A) (st : St) : St :=
  match l with
  | [] => st
  | x :: l' => for_enumerate body (i + 1) l' (body st i x)
  end.

(** The three variables the byte-aligned loop updates. *)
Record loop_state : Type := LoopState { line : list str; tkeep : Z; lines : list str }.

(** ["1" if tlast else "0"]. *)
Definition flag (tlast : bool) : str := if tlast then lit "1" else lit "0".

(** One reference line: [",".join([tdata, tkeep, tlast])]. *)
Definition record_line (tdata keep : str) (tlast : bool) : str :=
  join (lit ",") [tdata; keep; flag tlast].

(** Body of the loop of the branch [data_width >= 8]; [prec] is the
    precision [data_width//8//4] of [tkeep_fmt]. *)
Definition aligned_body (data_width length_ prec : Z) (st : loop_state) (i byte : Z) : loop_state :=
  let line1 := format_02x byte :: line st in
  let tlast := i =? length_ - 1 in
  if (8 * (i + 1)) mod data_width =? 0 then
    let tkeep1 := if tlast then Z.shiftl 1 (Z.of_nat (length line1)) - 1 else tkeep st in
    LoopState [] tkeep1
      (lines st ++ [record_line (join [] line1) (format_prec_x prec tkeep1) tlast])
  else LoopState line1 (tkeep st) (lines st).

(** The branch [data_width >= 8], with the trailing partial window. *)
Definition aligned_lines (data_width length_ : Z) (test_data : list Z) : list str :=
  let prec := data_width / 8 / 4 in
  let st := for_enumerate (aligned_body data_width length_ prec) 0 test_data (LoopState [] 0 []) in
  match line st with
  | [] => lines st
  | _ =>
      let tkeep1 := Z.shiftl 1 (Z.of_nat (length (line st))) - 1 in
      let line1 := replicate (Z.to_nat (data_width / 8 - Z.of_nat (length (line st)))) (lit "00")
                   ++ line st in
      lines st ++ [record_line (join [] line1) (format_prec_x prec tkeep1) true]
  end.

(** The flattened bit string of the sub-byte branch: every byte gives its
    binary digits least significant first, filled with zeros up to 8. *)
Definition flatten_byte (byte : Z) : str :=
  let little_endian_word := rev (slice (py_bin byte) (Some 2) None) in
  little_endian_word ++ zeros (Z.to_nat (8 - Z.of_nat (length little_endian_word))).

Definition flatten (test_data : list Z) : str :=
  fold_left (λ flattened_bin_data byte, flattened_bin_data ++ flatten_byte byte) test_data [].

(** The [while flattened_bin_data:] loop. *)
Fixpoint slice_words (fuel : nat) (data_width : Z) (flattened_bin_data : str)
    (lines_ : list str) : result (list str) :=
  match flattened_bin_data with
  | [] => Ok lines_
  | _ =>
      match fuel with
      | O => OutOfFuel
      | S fuel' =>
          word ← int2 (slice flattened_bin_data None (Some data_width));
          let rest := slice flattened_bin_data (Some data_width) None in
          let tlast := bool_decide (rest = []) in
          slice_words fuel' data_width rest
            (lines_ ++ [record_line (format_x word) [] tlast])
      end
  end.

(** The branch [data_width < 8]. *)
Definition subbyte_lines (data_width : Z) (test_data : list Z) : result (list str) :=
  let flattened_bin_data := flatten test_data in
  if negb (Z.of_nat (length flattened_bin_data) mod 8 =? 0) then Raise AssertionError
  else slice_words (length flattened_bin_data) data_width flattened_bin_data [].

(** The list [lines] the function has built when it opens the reference
    file. *)
Definition reference_lines (data_width length_ : Z) (test_data : list Z) : result (list str) :=
  if 8 <=? data_width then Ok (aligned_lines data_width length_ test_data)
  else subbyte_lines data_width test_data.

(** What is written to the reference file: the joined lines and a final
    newline. *)
Definition reference_text (lines_ : list str) : str := join [NL] lines_ ++ [NL].

(** The two files written for the bytes [test_data]: the raw file first,
    then the reference file. *)
Definition codec (data_width length_ : Z) (test_data : list Z) : result (str * str) :=
  raw ← struct_pack_B length_ test_data;
  lines_ ← reference_lines data_width length_ test_data;
  mret (raw, reference_text lines_).

(** The codec on a byte sequence: [length] is the number of bytes. *)
Definition encode (S : list Z) (W : Z) : result (str * str) :=
  codec W (Z.of_nat (length S)) S.

(** ** Error-injection derivations: the three reference files derived in
    [addAxiFileCompareTests] *)

(** [ref_data[:7] + [ref_data[8]] + ref_data[8:]]; the source comments it
    with: skip one, duplicate another so the size is the same. *)
Definition single_mismatch (ref_data : list str) : result (list str) :=
  let head := slice ref_data None (Some 7) in
  r8 ← index ref_data 8;
  Ok (head ++ [r8] ++ slice ref_data (Some 8) None).

(** [ref_data[:7] + [ref_data[8], ref_data[8]] + ref_data[9:16]
     + [ref_data[17]] + ref_data[17:]]. *)
Definition double_mismatch (ref_data : list str) : result (list str) :=
  let head := slice ref_data None (Some 7) in
  r8 ← index ref_data 8;
  r8' ← index ref_data 8;
  let middle := slice ref_data (Some 9) (Some 16) in
  r17 ← index ref_data 17;
  Ok (head ++ [r8; r8'] ++ middle ++ [r17] ++ slice ref_data (Some 17) None).

(** [ref_data[:-1] + [b",".join([last_entry[0], b"0", b"0"])]]. *)
Definition last_flag_error (ref_data : list str) : result (list str) :=
  entry ← index ref_data (-1);
  let last_entry := split_on COMMA entry in
  tdata ← index last_entry 0;
  Ok (slice ref_data None (Some (-1)) ++ [join (lit ",") [tdata; lit "0"; lit "0"]]).

(** The derived files as the source writes them: the reference file is read
    and split at newlines ([strip]ped first for the last-flag file), the
    derived list is joined with newlines. *)
Definition single_mismatch_file (reference : str) : result str :=
  data ← single_mismatch (split_on NL reference); Ok (join [NL] data).

Definition double_mismatch_file (reference : str) : result str :=
  data ← double_mismatch (split_on NL reference); Ok (join [NL] data).

Definition last_flag_error_file (reference : str) : result str :=
  data ← last_flag_error (split_on NL (strip reference)); Ok (join [NL] data).

(** The claim of the specification for [single_mismatch], as it is worded:
    lines 0..6, line 7 twice, then the lines after it; one line more. *)
Definition single_mismatch_as_specified (ref_data out : list str) : Prop :=
  ∃ l7, ref_data !! 7%nat = Some l7
        ∧ out = take 7 ref_data ++ [l7] ++ drop 7 ref_data
        ∧ length out = S (length ref_data).

(** The same for [double_mismatch]: line 7 twice, line 16 twice, two lines
    more. *)
Definition double_mismatch_as_specified (ref_data out : list str) : Prop :=
  ∃ l7 l16, ref_data !! 7%nat = Some l7 ∧ ref_data !! 16%nat = Some l16
        ∧ out = take 7 ref_data ++ [l7; l7] ++ take 8 (drop 8 ref_data)
                ++ [l16; l16] ++ drop 17 ref_data
        ∧ length out = S (S (length ref_data)).

(** A base log of twenty distinguishable lines. *)
Definition twenty_lines : list str :=
  (λ k, format_d (Z.of_nat k)) <$> seq 0 20.

(** ** The world the tool runs in *)

(** A generic value handed to the simulation framework. *)
Inductive value : Type :=
| VInt (z : Z)
| VBool (b : bool)
| VStr (s : str).

(** One [add_config] call: the entity, the test case when the configuration
    is attached to one test ([test.add_config]), the name and the
    generics. *)
Record TestConfiguration : Type := Config {
  cfg_entity : str;
  cfg_test : option str;
  cfg_name : str;
  generics : gmap str value;
}.

Record file : Type := File { content : str; mtime : Z }.

(** The state the functions of [run.py] read and change.
    - [files]: the file system, with modification times;
    - [clock]: the time stamped on a file when it is written;
    - [rand_stream], [rand_pos]: the outcomes the module [random] will give,
      and how many were consumed (any generator is such a stream);
    - [ROOT], [FILE_]: the module constants [ROOT] and [__file__];
    - [arbiter_tests]: the test cases of the arbiter test bench, which
      [entity.get_tests()] returns;
    - [set_iter]: the order in which the interpreter iterates over a set of
      integers (it is not fixed by the language);
    - [configs]: the configurations registered so far, in order.
    Output on [stdout] is not modelled; the directory [vunit_out] is taken
    to exist. *)
Record world : Type := World {
  files : gmap str file;
  clock : Z;
  rand_stream : nat → N;
  rand_pos : nat;
  ROOT : str;
  FILE_ : str;
  arbiter_tests : list str;
  set_iter : gset Z → list Z;
  configs : list TestConfiguration;
}.

(** State and exceptions. *)
Definition M (A : Type) : Type := world → result (A * world).

Global Instance M_ret : MRet M := λ A a w, Ok (a, w).

Global Instance M_bind : MBind M := λ A B k m w,
  match m w with
  | Ok (a, w') => k a w'
  | Raise e => Raise e
  | OutOfFuel => OutOfFuel
  end.

Definition lift {A} (r : result A) : M A :=
  λ w, match r with
       | Ok a => Ok (a, w)
       | Raise e => Raise e
       | OutOfFuel => OutOfFuel
       end.

(** [for x in l: body x]. *)
Fixpoint for_each {A} (l : list A) (body : A → M unit) : M unit :=
  match l with
  | [] => mret tt
  | x :: l' => body x ;; for_each l' body
  end.

(** A loop that also updates a local variable [acc]. *)
Fixpoint for_fold {A St} (l : list A) (acc : St) (body : St → A → M St) : M St :=
  match l with
  | [] => mret acc
  | x :: l' => acc' ← body acc x; for_fold l' acc' body
  end.

Definition get {A} (f : world → A) : M A := λ w, Ok (f w, w).

(** [if c: body]. *)
Definition when (c : bool) (body : M unit) : M unit := if c then body else mret tt.

(** [random.randint(a, b)]: both ends included; [ValueError] on an empty
    range. *)
Definition randint (a b : Z) : M Z := λ w,
  if b <? a then Raise ValueError
  else Ok (a + Z.of_N (rand_stream w (rand_pos w)) mod (b - a + 1),
           World (files w) (clock w) (rand_stream w) (S (rand_pos w))
                 (ROOT w) (FILE_ w) (arbiter_tests w) (set_iter w) (configs w)).

(** [tuple(random.randint(a, b) for _ in range(n))]. *)
Fixpoint randints (n : nat) (a b : Z) : M (list Z) :=
  match n with
  | O => mret []
  | S n' => x ← randint a b; xs ← randints n' a b; mret (x :: xs)
  end.

(** [p.exists(path)]. *)
Definition exists_ (path : str) : M bool :=
  get (λ w, bool_decide (is_Some (files w !! path))).

(** [p.getmtime(path)]. *)
Definition getmtime (path : str) : M Z := λ w,
  match files w !! path with
  | Some f => Ok (mtime f, w)
  | None => Raise FileNotFoundError
  end.

(** [open(path, "rb").read()]. *)
Definition read_file (path : str) : M str := λ w,
  match files w !! path with
  | Some f => Ok (content f, w)
  | None => Raise FileNotFoundError
  end.

(** [open(path, "wb").write(data)] (or mode ["w"]): the file is created or
    replaced. *)
Definition write_file (path : str) (data : str) : M unit := λ w,
  Ok (tt, World (<[path := File data (clock w)]> (files w)) (clock w)
                (rand_stream w) (rand_pos w) (ROOT w) (FILE_ w)
                (arbiter_tests w) (set_iter w) (configs w)).

(** [entity.add_config(name=..., generics=...)], [test.add_config(...)]. *)
Definition add_config (c : TestConfiguration) : M unit := λ w,
  Ok (tt, World (files w) (clock w) (rand_stream w) (rand_pos w) (ROOT w)
                (FILE_ w) (arbiter_tests w) (set_iter w) (configs w ++ [c])).

(** [p.join(a, b)] on a POSIX system. *)
Definition path_join (a b : str) : str :=
  match b with
  | "/"%char :: _ => b
  | _ => match last a with
         | None => b
         | Some c => if decide (c = "/"%char) then a ++ b else a ++ lit "/" ++ b
         end
  end.

(** [p.join(ROOT, "vunit_out", name)]. *)
Definition vunit_out (name : str) : M str :=
  root ← get ROOT; mret (path_join (path_join root (lit "vunit_out")) name).

(** ** [generateAxiFileReaderTestFile] *)

Definition generateAxiFileReaderTestFile
    (test_file reference_file : str) (data_width length_ : Z) : M unit :=
  test_data ← randints (Z.to_nat length_) 0 255;
  raw ← lift (struct_pack_B length_ test_data);
  write_file test_file raw;;
  lines_ ← lift (reference_lines data_width length_ test_data);
  write_file reference_file (reference_text lines_).

(** ** The test-matrix builder *)

(** [dict(k1=v1, ...)]. *)
Definition dict (kvs : list (string * value)) : gmap str value :=
  list_to_map (prod_map lit id <$> kvs).

(** [f"{b}"] for a boolean. *)
Definition format_bool (b : bool) : str := if b then lit "True" else lit "False".

Definition addAsyncFifoTests (entity : str) (seed : Z) : M unit :=
  let clk_period_list := [4; 11] in
  for_each clk_period_list (λ wr_clk_period,
    for_each clk_period_list (λ rd_clk_period,
      for_each [(0, 0); (3, 0); (0, 3); (5, 5)] (λ '(wr_rand, rd_rand),
        let name := join (lit ",")
                      [lit "wr_clk_period=" ++ format_d wr_clk_period;
                       lit "rd_clk_period=" ++ format_d rd_clk_period;
                       lit "wr_rand=" ++ format_d wr_rand;
                       lit "rd_rand=" ++ format_d rd_rand] in
        add_config (Config entity None name
          (dict [("WR_CLK_PERIOD_NS", VInt wr_clk_period);
                 ("RD_CLK_PERIOD_NS", VInt rd_clk_period);
                 ("WR_EN_RANDOM", VInt wr_rand);
                 ("RD_EN_RANDOM", VInt rd_rand);
                 ("SEED", VInt seed)]%string))))).

Definition addAxiStreamDelayTests (entity : str) (seed : Z) : M unit :=
  for_each [1; 2; 8] (λ delay,
    add_config (Config entity None (lit "delay=" ++ format_d delay)
      (dict [("DELAY_CYCLES", VInt delay); ("SEED", VInt seed)]%string))).

Definition addAxiFileCompareTests (entity : str) (seed : Z) : M unit :=
  test_file ← vunit_out (lit "file_compare_input.bin");
  reference_file ← vunit_out (lit "file_compare_reference_ok.bin");
  e1 ← exists_ test_file;
  e2 ← exists_ reference_file;
  when (negb (e1 && e2))
    (generateAxiFileReaderTestFile test_file reference_file 32 (32 * 8));;
  tdata_single_error_file ← vunit_out (lit "file_compare_reference_tdata_1_error.bin");
  tdata_two_errors_file ← vunit_out (lit "file_compare_reference_tdata_2_errors.bin");
  tlast_error_file ← vunit_out (lit "file_compare_reference_tlast_error.bin");
  e ← exists_ tdata_single_error_file;
  when (negb e)
    (reference ← read_file reference_file;
     data ← lift (single_mismatch_file reference);
     write_file tdata_single_error_file data);;
  e ← exists_ tdata_two_errors_file;
  when (negb e)
    (reference ← read_file reference_file;
     data ← lift (double_mismatch_file reference);
     write_file tdata_two_errors_file data);;
  e ← exists_ tlast_error_file;
  when (negb e)
    (reference ← read_file reference_file;
     data ← lift (last_flag_error_file reference);
     write_file tlast_error_file data);;
  add_config (Config entity None (lit "all")
    (dict [("input_file", VStr test_file);
           ("reference_file", VStr reference_file);
           ("tdata_single_error_file", VStr tdata_single_error_file);
           ("tdata_two_errors_file", VStr tdata_two_errors_file);
           ("tlast_error_file", VStr tlast_error_file);
           ("seed", VInt seed)]%string)).

(** [not (exists(a) and exists(b)) or getmtime(__file__) > max(getmtime(a),
    getmtime(b))]: the times are read only when both files exist. *)
Definition missing_or_stale (test_file reference_file : str) : M bool :=
  e1 ← exists_ test_file;
  e2 ← exists_ reference_file;
  if negb (e1 && e2) then mret true
  else
    script ← get FILE_;
    t0 ← getmtime script;
    t1 ← getmtime test_file;
    t2 ← getmtime reference_file;
    mret (Z.max t1 t2 <? t0).

Definition addAxiFileReaderTests (entity : str) (seed : Z) : M unit :=
  let configs_ := [(1, [1; 2]); (8, [1; 8; 16; 24]);
                   (16, [1; 2; 3; 4; 8; 9]); (64, [16; 17; 18; 19])] in
  for_each configs_ (λ '(data_width, length_list),
    all_configs ← for_fold length_list [] (λ all_configs length_,
      let basename := lit "file_reader_data_width_" ++ format_d data_width
                      ++ lit "_length_" ++ format_d length_ ++ lit "_bytes" in
      test_file ← vunit_out (basename ++ lit "_input.bin");
      reference_file ← vunit_out (basename ++ lit "_reference.bin");
      regenerate ← missing_or_stale test_file reference_file;
      when regenerate
        (generateAxiFileReaderTestFile test_file reference_file data_width length_);;
      let test_cfg := join (lit ",") [test_file; reference_file] in
      mret (all_configs ++ [test_cfg]));
    add_config (Config entity None (lit "multiple,data_width=" ++ format_d data_width)
      (dict [("DATA_WIDTH", VInt data_width);
             ("test_cfg", VStr (join (lit "|") all_configs));
             ("seed", VInt seed)]%string))).

Definition addAxiWidthConverterTests (entity : str) (seed : Z) : M unit :=
  add_config (Config entity None (lit "same_widths")
    (dict [("INPUT_DATA_WIDTH", VInt 32); ("OUTPUT_DATA_WIDTH", VInt 32);
           ("seed", VInt seed)]%string));;
  iter ← get set_iter;
  for_each (iter {[1; 8; 24; 32; 128]}) (λ input_data_width,
    for_each (iter ({[1; 3; 8; 24; 32; 128]} ∖ {[input_data_width]})) (λ output_data_width,
      if input_data_width <=? output_data_width then mret tt
      else
        add_config (Config entity None
          (lit "input_data_width=" ++ format_d input_data_width ++ lit ","
           ++ lit "output_data_width=" ++ format_d output_data_width)
          (dict [("INPUT_DATA_WIDTH", VInt input_data_width);
                 ("OUTPUT_DATA_WIDTH", VInt output_data_width);
                 ("seed", VInt seed)]%string)))).

Definition addAxiEmbiggenerTests (entity : str) (seed : Z) : M unit :=
  let input_data_width := 32 in
  let output_data_width := 128 in
  add_config (Config entity None
    (lit "input_data_width=" ++ format_d input_data_width ++ lit ","
     ++ lit "output_data_width=" ++ format_d output_data_width)
    (dict [("INPUT_DATA_WIDTH", VInt input_data_width);
           ("OUTPUT_DATA_WIDTH", VInt output_data_width);
           ("seed", VInt seed)]%string)).

(** [name.startswith(prefix)]. *)
Definition startswith (name prefix_ : str) : bool := bool_decide (prefix_ `prefix_of` name).

Definition addAxiArbiterTests (entity : str) (seed : Z) : M unit :=
  tests ← get arbiter_tests;
  for_each tests (λ test,
    for_each [true; false] (λ register_inputs,
      when (startswith test (lit "test_round_robin"))
        (add_config (Config entity (Some test)
           (lit "mode=ROUND_ROBIN,register_inputs=" ++ format_bool register_inputs)
           (dict [("MODE", VStr (lit "ROUND_ROBIN"));
                  ("REGISTER_INPUTS", VBool register_inputs);
                  ("seed", VInt seed)]%string)));;
      when (startswith test (lit "test_interleaved"))
        (add_config (Config entity (Some test)
           (lit "mode=INTERLEAVED,register_inputs=" ++ format_bool register_inputs)
           (dict [("MODE", VStr (lit "INTERLEAVED"));
                  ("REGISTER_INPUTS", VBool register_inputs);
                  ("seed", VInt seed)]%string)));;
      when (startswith test (lit "test_absolute"))
        (add_config (Config entity (Some test)
           (lit "mode=ABSOLUTE,register_inputs=" ++ format_bool register_inputs)
           (dict [("MODE", VStr (lit "ABSOLUTE"));
                  ("REGISTER_INPUTS", VBool register_inputs);
                  ("seed", VInt seed)]%string))))).

Definition addTests (seed : Z) : M unit :=
  addAsyncFifoTests (lit "async_fifo_tb") seed;;
  addAxiStreamDelayTests (lit "axi_stream_delay_tb") seed;;
  addAxiFileReaderTests (lit "axi_file_reader_tb") seed;;
  addAxiFileCompareTests (lit "axi_file_compare_tb") seed;;
  addAxiWidthConverterTests (lit "axi_stream_width_converter_tb") seed;;
  addAxiEmbiggenerTests (lit "axi_embiggener_tb") seed;;
  addAxiArbiterTests (lit "axi_stream_arbiter_tb") seed;;
  for_each (lit <$> ["axi_stream_frame_slicer_tb"; "axi_stream_frame_padder_tb";
                     "axi_stream_frame_fifo_tb"; "axi_stream_replicate_tb"]%string)
    (λ entity, add_config (Config entity None (lit "with_seed")
                 (dict [("seed", VInt seed)]%string))).

(** The seed of the run, [args.seed]: the default of the option [--seed] is
    drawn when the option is declared, and is used when [--seed] is not
    given ([seed_arg = None]); a given value is taken as it is. *)
Definition parse_args (seed_arg : option Z) : M Z :=
  default ← randint (Z.shiftl (-1) 31) (Z.shiftl 1 31);
  mret (from_option id default seed_arg).

(** [main], up to the hand-over to the simulation framework. *)
Definition main (seed_arg : option Z) : M unit :=
  seed ← parse_args seed_arg;
  addTests seed.

(** ** The reference format read back

    The definitions of this part are not code of [run.py]: they state, in
    the words of the specification (data model and reference-log format),
    what a consumer reads out of a reference file, so that the properties of
    the encoder can be stated on TransferRecords. *)

Record TransferRecord : Type := Transfer {
  word : Z;
  keep_mask : option Z;
  last : bool;
}.

Definition hexval (c : ascii) : option Z :=
  let n := Z.of_nat (nat_of_ascii c) in
  if (48 <=? n) && (n <=? 57) then Some (n - 48)
  else if (97 <=? n) && (n <=? 102) then Some (n - 87)
  else None.

Fixpoint parse_hex_acc (acc : Z) (s : str) : option Z :=
  match s with
  | [] => Some acc
  | c :: s' => d ← hexval c; parse_hex_acc (16 * acc + d) s'
  end.

(** A non-empty run of hexadecimal digits. *)
Definition parse_hex (s : str) : option Z :=
  match s with
  | [] => None
  | _ => parse_hex_acc 0 s
  end.

Definition parse_flag (s : str) : option bool :=
  if decide (s = lit "1") then Some true
  else if decide (s = lit "0") then Some false
  else None.

(** One line [<word_hex>,<keep_hex_or_empty>,<last>]. *)
Definition parse_record (l : str) : option TransferRecord :=
  match split_on COMMA l with
  | [w; k; f] =>
      w' ← parse_hex w;
      k' ← match k with [] => Some None | _ => Some <$> parse_hex k end;
      f' ← parse_flag f;
      Some (Transfer w' k' f')
  | _ => None
  end.

(** A reference file: one record per line, every line ended by a newline. *)
Definition parse_log (text : str) : option (list TransferRecord) :=
  match reverse (split_on NL text) with
  | [] :: rlines => mapM parse_record (reverse rlines)
  | _ => None
  end.

(** The bytes of a window as one number: the byte read first is the least
    significant, the byte read last the most significant. *)
Definition window_word (w : list Z) : Z := foldr (λ b acc, b + 256 * acc) 0 w.

(** Byte lane [j] of a word. *)
Definition lane (word_ : Z) (j : nat) : Z := Z.land (Z.shiftr word_ (8 * Z.of_nat j)) 255.

(** All [n] byte lanes, in the order the bytes were read. *)
Definition unpack (n : nat) (word_ : Z) : list Z := lane word_ <$> seq 0 n.

(** The lanes of the final record that its keep mask marks as valid. *)
Definition unpack_final (n : nat) (r : TransferRecord) : list Z :=
  match keep_mask r with
  | Some k => lane (word r) <$> filter (λ j, Z.testbit k (Z.of_nat j) = true) (seq 0 n)
  | None => unpack n (word r)
  end.

Fixpoint decode_records (n : nat) (rs : list TransferRecord) : list Z :=
  match rs with
  | [] => []
  | [r] => unpack_final n r
  | r :: rs' => unpack n (word r) ++ decode_records n rs'
  end.

(** The decoder for a byte-aligned width [W]. *)
Definition decode (W : Z) (text : str) : option (list Z) :=
  rs ← parse_log text; Some (decode_records (Z.to_nat (W / 8)) rs).

(** Consecutive windows of [n] elements; the last one may be shorter. *)
Fixpoint chunks_aux {A} (fuel n : nat) (l : list A) : list (list A) :=
  match fuel, l with
  | S fuel', _ :: _ => take n l :: chunks_aux fuel' n (drop n l)
  | _, _ => []
  end.

Definition chunks {A} (n : nat) (l : list A) : list (list A) := chunks_aux (length l) n l.

(** The least [q] with [a <= q * b], for positive [b]. *)
Definition ceil_div (a b : Z) : Z := (a + b - 1) / b.

(** A byte sequence: every value is in 0..255. *)
Definition is_bytes (S : list Z) : Prop := Forall (λ b, 0 ≤ b ≤ 255) S.

(** The reference lines of a successful encoding. *)
Definition encoded_lines (S : list Z) (W : Z) : option (list str) :=
  match reference_lines W (Z.of_nat (length S)) S with
  | Ok ls => Some ls
  | _ => None
  end.

(** A configuration carries the seed under the name [seed] or [SEED]. *)
Definition has_seed (seed : Z) (c : TestConfiguration) : Prop :=
  generics c !! lit "seed" = Some (VInt seed) ∨ generics c !! lit "SEED" = Some (VInt seed).

(** The signed 32-bit range. *)
Definition int32 (z : Z) : Prop := - 2 ^ 31 ≤ z ≤ 2 ^ 31 - 1.

(** ** Views of the encoder's output used in the proofs *)

(** [f] applied to every element, told which one is the last. *)
Fixpoint map_last {A B} (f : bool → A → B) (l : list A) : list B :=
  match l with
  | [] => []
  | [x] => [f true x]
  | x :: l' => f false x :: map_last f l'
  end.

(** The line of one window [w] of a byte-aligned width of [n] bytes: the
    bytes in reverse order of arrival behind the padding, the keep mask
    (0 unless the window is the final one) and the last flag. *)
Definition window_line (n : nat) (prec : Z) (final : bool) (w : list Z) : str :=
  record_line
    (join [] (replicate (n - length w) (lit "00") ++ (format_02x <$> reverse w)))
    (format_prec_x prec (if final then Z.shiftl 1 (Z.of_nat (length w)) - 1 else 0))
    final.

(** The record a consumer reads from that line. *)
Definition window_record (final : bool) (w : list Z) : TransferRecord :=
  Transfer (window_word w)
           (Some (if final then Z.shiftl 1 (Z.of_nat (length w)) - 1 else 0))
           final.

(** What the function does after the loop of the byte-aligned branch. *)
Definition aligned_finish (data_width prec : Z) (st : loop_state) : list str :=
  match line st with
  | [] => lines st
  | _ =>
      let tkeep1 := Z.shiftl 1 (Z.of_nat (length (line st))) - 1 in
      let line1 := replicate (Z.to_nat (data_width / 8 - Z.of_nat (length (line st)))) (lit "00")
                   ++ line st in
      lines st ++ [record_line (join [] line1) (format_prec_x prec tkeep1) true]
  end.

(** The value of a string of binary digits, most significant first. *)
Definition bits_value (s : str) : Z :=
  foldl (λ acc c, 2 * acc + (if decide (c = "1"%char) then 1 else 0)) 0 s.

Definition is_bit (c : ascii) : Prop := c = "0"%char ∨ c = "1"%char.

(** The line and the record of one slice of the flattened bit string. *)
Definition slice_line (final : bool) (chunk : str) : str :=
  record_line (format_x (bits_value chunk)) [] final.

Definition slice_record (final : bool) (chunk : str) : TransferRecord :=
  Transfer (bits_value chunk) None final.

(** A run of hexadecimal digits. *)
Definition hexstr (s : str) : Prop := Forall (λ c, is_Some (hexval c)) s.

(** The raw file of a byte sequence. *)
Definition raw_bytes (S : list Z) : str := map (λ b, ascii_of_nat (Z.to_nat b)) S.

(** The number of bytes per word of a byte-aligned width. *)
Definition width_in_bytes (W : Z) : nat := Z.to_nat (W / 8).

(** The values the next [n] calls of [random.randint(a, b)] return. *)
Definition drawn (n : nat) (a b : Z) (w : world) : list Z :=
  (λ k, a + Z.of_N (rand_stream w (rand_pos w + k)%nat) mod (b - a + 1)) <$> seq 0 n.

(** The world after [n] draws. *)
Definition after_draws (n : nat) (w : world) : world :=
  World (files w) (clock w) (rand_stream w) (n + rand_pos w)
        (ROOT w) (FILE_ w) (arbiter_tests w) (set_iter w) (configs w).

(** The content of the file at [path], if there is one. *)
Definition content_of (w : world) (path : str) : option str := content <$> files w !! path.

(** [m] only registers configurations that satisfy [P]. *)
Definition adds (P : TestConfiguration → Prop) {A} (m : M A) : Prop :=
  ∀ w a w', m w = Ok (a, w') → ∃ cs, configs w' = configs w ++ cs ∧ Forall P cs.

(** [m] leaves the registered configurations alone. *)
Definition silent {A} (m : M A) : Prop :=
  ∀ w a w', m w = Ok (a, w') → configs w' = configs w.

(** [m] returns normally from every world. *)
Definition succeeds {A} (m : M A) : Prop := ∀ w, ∃ a w', m w = Ok (a, w').

(** The generics [name] of a configuration holds the integer [v]. *)
Definition generic_is (c : TestConfiguration) (name : string) (v : Z) : Prop :=
  generics c !! lit name = Some (VInt v).

(** A configuration of the width converter that narrows the data path. *)
Definition narrowing (c : TestConfiguration) : Prop :=
  ∃ i o, generic_is c "INPUT_DATA_WIDTH" i ∧ generic_is c "OUTPUT_DATA_WIDTH" o ∧ o < i.

(** A configuration with [output_width >= input_width]. *)
Definition not_narrowing (c : TestConfiguration) : Prop :=
  ∃ i o, generic_is c "INPUT_DATA_WIDTH" i ∧ generic_is c "OUTPUT_DATA_WIDTH" o ∧ i ≤ o.

(** The equal-widths configuration [INPUT_DATA_WIDTH = OUTPUT_DATA_WIDTH = 32]. *)
Definition equal_widths_32 (c : TestConfiguration) : Prop :=
  generic_is c "INPUT_DATA_WIDTH" 32 ∧ generic_is c "OUTPUT_DATA_WIDTH" 32.

(** Iteration over a set of integers in increasing order. *)
Definition increasing (X : gset Z) : list Z := merge_sort Z.le (elements X).

(** A world to run the tool in: an empty [vunit_out], an arbitrary stream of
    random outcomes, three arbiter test cases, sets iterated in increasing
    order. *)
Definition sample_world : world :=
  World ∅ 1000 (λ k, N.of_nat (k * 37 + 11)) 0 (lit "/repo") (lit "/repo/run.py")
        (lit <$> ["test_round_robin_basic"; "test_interleaved"; "test_other"]%string)
        increasing [].

(** The same with other files, another clock and a generator that is
    further in the same stream shifted so that the next outcomes agree. *)
Definition other_world : world :=
  World {[ lit "old.bin" := File (lit "stale") 5 ]} 2000
        (λ k, N.of_nat ((k - 3) * 37 + 11 + 256)) 3 (lit "/elsewhere") (lit "/elsewhere/run.py")
        [] increasing [].

(** A world whose generator gives, at the next draw, the last value of the
    range asked for. *)
Definition top_draw_world : world :=
  World ∅ 0 (λ _, 4294967296%N) 0 (lit "/repo") (lit "/repo/run.py") [] increasing [].

(** ** [swapBits] *)

(** [swapBits(value, width)]: the binary digits of [value], filled with
    zeros up to [width], read backwards. *)
Definition swapBits (value width : Z) : result Z :=
  let v_in_binary := slice (py_bin value) (Some 2) None in
  if negb (Z.of_nat (length v_in_binary) <=? width) then Raise AssertionError
  else
    let v_in_binary1 :=
      zeros (Z.to_nat (width - Z.of_nat (length v_in_binary))) ++ v_in_binary in
    int2 (reverse v_in_binary1).

(** The digit of a bit. *)
Definition bit_char (b : bool) : ascii := if b then "1"%char else "0"%char.

(** The binary digits of [value] filled with zeros up to [width]. *)
Definition padded_bits (value : Z) (width : nat) : str :=
  zeros (width - length (digits 2 value)) ++ digits 2 value.

(** The number of newline characters of a text. *)
Definition newlines (s : str) : nat := length (filter (λ c, c = NL) s).

(** A reference log whose final record has lost its last flag and its keep
    mask: what the test bench must read from the last-flag error file. *)
Definition clear_last (rs : list TransferRecord) : list TransferRecord :=
  match reverse rs with
  | r :: rest => reverse rest ++ [Transfer (word r) (Some 0) false]
  | [] => []
  end.

(** ** Views of the test-matrix builder used in the proofs *)

(** The world with the configurations [cs] registered after those it has. *)
Definition with_configs (w : world) (cs : list TestConfiguration) : world :=
  World (files w) (clock w) (rand_stream w) (rand_pos w) (ROOT w) (FILE_ w)
        (arbiter_tests w) (set_iter w) (configs w ++ cs).

(** [m] returns from every world, having registered exactly [cs] and changed
    nothing else. *)
Definition registers (m : M unit) (cs : list TestConfiguration) : Prop :=
  ∀ w, m w = Ok (tt, with_configs w cs).

(** The configuration [addAsyncFifoTests] registers for one point of its
    domain. *)
Definition async_fifo_config (entity : str) (seed wr_clk_period rd_clk_period : Z)
    (rates : Z * Z) : TestConfiguration :=
  let '(wr_rand, rd_rand) := rates in
  Config entity None
    (join (lit ",")
       [lit "wr_clk_period=" ++ format_d wr_clk_period;
        lit "rd_clk_period=" ++ format_d rd_clk_period;
        lit "wr_rand=" ++ format_d wr_rand;
        lit "rd_rand=" ++ format_d rd_rand])
    (dict [("WR_CLK_PERIOD_NS", VInt wr_clk_period);
           ("RD_CLK_PERIOD_NS", VInt rd_clk_period);
           ("WR_EN_RANDOM", VInt wr_rand);
           ("RD_EN_RANDOM", VInt rd_rand);
           ("SEED", VInt seed)]%string).

(** The domain of the clock and rate sweep. *)
Definition clk_periods : list Z := [4; 11].
Definition rate_pairs : list (Z * Z) := [(0, 0); (3, 0); (0, 3); (5, 5)].

Definition async_fifo_configs (entity : str) (seed : Z) : list TestConfiguration :=
  wr ← clk_periods; rd ← clk_periods; rates ← rate_pairs;
  [async_fifo_config entity seed wr rd rates].

(** The configuration of the width converter for one pair of widths. *)
Definition width_converter_config (entity : str) (seed i o : Z) : TestConfiguration :=
  Config entity None
    (lit "input_data_width=" ++ format_d i ++ lit ","
     ++ lit "output_data_width=" ++ format_d o)
    (dict [("INPUT_DATA_WIDTH", VInt i); ("OUTPUT_DATA_WIDTH", VInt o);
           ("seed", VInt seed)]%string).

Definition input_widths : gset Z := {[1; 8; 24; 32; 128]}.
Definition output_widths : gset Z := {[1; 3; 8; 24; 32; 128]}.

(** The configurations registered after the baseline, for the iteration
    order [iter]. *)
Definition width_converter_configs (entity : str) (seed : Z) (iter : gset Z → list Z) :
    list TestConfiguration :=
  i ← iter input_widths; o ← iter (output_widths ∖ {[i]});
  if i <=? o then [] else [width_converter_config entity seed i o].

(** The configuration of the arbiter for one mode and one flag value. *)
Definition arbiter_config (entity test : str) (seed : Z) (mode : string)
    (register_inputs : bool) : TestConfiguration :=
  Config entity (Some test)
    (lit "mode=" ++ lit mode ++ lit ",register_inputs=" ++ format_bool register_inputs)
    (dict [("MODE", VStr (lit mode)); ("REGISTER_INPUTS", VBool register_inputs);
           ("seed", VInt seed)]%string).

(** The modes of the arbiter, each with the prefix of the test cases that
    run in it. *)
Definition arbiter_modes : list (string * string) :=
  [("test_round_robin", "ROUND_ROBIN"); ("test_interleaved", "INTERLEAVED");
   ("test_absolute", "ABSOLUTE")]%string.

Definition arbiter_configs_for (entity : str) (seed : Z) (test : str) :
    list TestConfiguration :=
  register_inputs ← [true; false]; pm ← arbiter_modes;
  if startswith test (lit pm.1) then [arbiter_config entity test seed pm.2 register_inputs]
  else [].

Definition arbiter_configs (entity : str) (seed : Z) (tests : list str) :
    list TestConfiguration :=
  test ← tests; arbiter_configs_for entity seed test.

(** A test case the arbiter builder knows a mode for. *)
Definition arbiter_supported (test : str) : Prop :=
  Exists (λ pm : string * string, lit pm.1 `prefix_of` test) arbiter_modes.

Global Instance arbiter_supported_dec test : Decision (arbiter_supported test) :=
  Exists_dec (λ pm : string * string, lit pm.1 `prefix_of` test) arbiter_modes.

(** The baseline of the width converter. *)
Definition same_widths_config (entity : str) (seed : Z) : TestConfiguration :=
  Config entity None (lit "same_widths")
    (dict [("INPUT_DATA_WIDTH", VInt 32); ("OUTPUT_DATA_WIDTH", VInt 32);
           ("seed", VInt seed)]%string).

(** ** Views of the file system used in the proofs *)

(** [p.join(ROOT, "vunit_out", name)] for a relative [name]. *)
Definition out_path (w : world) (name : string) : str :=
  path_join (ROOT w) (lit "vunit_out") ++ lit "/" ++ lit name.

(** The world after [open(path, "wb").write(data)]. *)
Definition with_file (w : world) (path data : str) : world :=
  World (<[path := File data (clock w)]> (files w)) (clock w) (rand_stream w)
        (rand_pos w) (ROOT w) (FILE_ w) (arbiter_tests w) (set_iter w) (configs w).

(** The world after [if not p.exists(path): ... fd.write(data)]. *)
Definition derived (w : world) (path data : str) : world :=
  if decide (is_Some (files w !! path)) then w else with_file w path data.

(** The five files of the compare test bench. *)
Definition compare_input (w : world) : str := out_path w "file_compare_input.bin".
Definition compare_reference (w : world) : str := out_path w "file_compare_reference_ok.bin".
Definition compare_single (w : world) : str :=
  out_path w "file_compare_reference_tdata_1_error.bin".
Definition compare_double (w : world) : str :=
  out_path w "file_compare_reference_tdata_2_errors.bin".
Definition compare_last (w : world) : str :=
  out_path w "file_compare_reference_tlast_error.bin".

Definition compare_paths (w : world) : list str :=
  [compare_input w; compare_reference w; compare_single w; compare_double w; compare_last w].

(** The one configuration of the compare test bench. *)
Definition compare_config (entity : str) (seed : Z) (w : world) : TestConfiguration :=
  Config entity None (lit "all")
    (dict [("input_file", VStr (compare_input w));
           ("reference_file", VStr (compare_reference w));
           ("tdata_single_error_file", VStr (compare_single w));
           ("tdata_two_errors_file", VStr (compare_double w));
           ("tlast_error_file", VStr (compare_last w));
           ("seed", VInt seed)]%string).

(** [addAxiFileCompareTests] from the point where the input and reference
    files are there: the three derived files and the configuration. *)
Definition compare_derivations (entity : str) (seed : Z) (w : world) : M unit :=
  e ← exists_ (compare_single w);
  when (negb e)
    (reference ← read_file (compare_reference w);
     data ← lift (single_mismatch_file reference);
     write_file (compare_single w) data);;
  e ← exists_ (compare_double w);
  when (negb e)
    (reference ← read_file (compare_reference w);
     data ← lift (double_mismatch_file reference);
     write_file (compare_double w) data);;
  e ← exists_ (compare_last w);
  when (negb e)
    (reference ← read_file (compare_reference w);
     data ← lift (last_flag_error_file reference);
     write_file (compare_last w) data);;
  add_config (compare_config entity seed w).

(** The reference file [fr] is too short for an error file that is still to
    be derived from it. *)
Definition compare_crashes (w : world) (fr : file) : Prop :=
  (files w !! compare_single w = None ∧ (newlines (content fr) < 8)%nat)
  ∨ (files w !! compare_double w = None ∧ (newlines (content fr) < 17)%nat).

(** A directory with an input file and a reference file of three records. *)
Definition short_reference_world : world :=
  World {[ lit "/repo/vunit_out/file_compare_input.bin" := File (lit "abc") 5;
           lit "/repo/vunit_out/file_compare_reference_ok.bin"
             := File (lit "61,0,0
62,0,0
63,1,1
") 5 ]}
        1000 (λ k, N.of_nat (k * 37 + 11)) 0 (lit "/repo") (lit "/repo/run.py") []
        increasing [].

(** A directory that holds the five files already. *)
Definition complete_world : world :=
  World (list_to_map ((λ n, (lit ("/repo/vunit_out/" +:+ n), File (lit "x") 5)) <$>
           ["file_compare_input.bin"; "file_compare_reference_ok.bin";
            "file_compare_reference_tdata_1_error.bin";
            "file_compare_reference_tdata_2_errors.bin";
            "file_compare_reference_tlast_error.bin"]%string))
        1000 (λ k, N.of_nat (k * 37 + 11)) 0 (lit "/repo") (lit "/repo/run.py") []
        increasing [].

(** ** Views of [addAxiFileReaderTests] used in the proofs *)

(** [p.join(root, "vunit_out", name)] for a relative [name]. *)
Definition out_file (root name : str) : str :=
  path_join root (lit "vunit_out") ++ lit "/" ++ name.

Definition reader_basename (data_width length_ : Z) : str :=
  lit "file_reader_data_width_" ++ format_d data_width
  ++ lit "_length_" ++ format_d length_ ++ lit "_bytes".

Definition reader_input (root : str) (data_width length_ : Z) : str :=
  out_file root (reader_basename data_width length_ ++ lit "_input.bin").

Definition reader_reference (root : str) (data_width length_ : Z) : str :=
  out_file root (reader_basename data_width length_ ++ lit "_reference.bin").

(** The data widths with their lengths in bytes. *)
Definition reader_table : list (Z * list Z) :=
  [(1, [1; 2]); (8, [1; 8; 16; 24]); (16, [1; 2; 3; 4; 8; 9]); (64, [16; 17; 18; 19])].

(** One entry of [all_configs]. *)
Definition reader_test_cfg (root : str) (data_width length_ : Z) : str :=
  join (lit ",") [reader_input root data_width length_;
                  reader_reference root data_width length_].

(** The configuration of one data width. *)
Definition reader_config (entity : str) (seed : Z) (root : str) (row : Z * list Z) :
    TestConfiguration :=
  Config entity None (lit "multiple,data_width=" ++ format_d row.1)
    (dict [("DATA_WIDTH", VInt row.1);
           ("test_cfg", VStr (join (lit "|") (reader_test_cfg root row.1 <$> row.2)));
           ("seed", VInt seed)]%string).

(** The files of the rows of a table, and the bytes they hold in all. *)
Definition reader_paths_of (root : str) (table : list (Z * list Z)) : list str :=
  row ← table; length_ ← row.2;
  [reader_input root row.1 length_; reader_reference root row.1 length_].


(** The body of the loop over the lengths. *)
Definition reader_body (data_width : Z) (all_configs : list str) (length_ : Z) :
    M (list str) :=
  let basename := lit "file_reader_data_width_" ++ format_d data_width
                  ++ lit "_length_" ++ format_d length_ ++ lit "_bytes" in
  test_file ← vunit_out (basename ++ lit "_input.bin");
  reference_file ← vunit_out (basename ++ lit "_reference.bin");
  regenerate ← missing_or_stale test_file reference_file;
  when regenerate
    (generateAxiFileReaderTestFile test_file reference_file data_width length_);;
  let test_cfg := join (lit ",") [test_file; reference_file] in
  mret (all_configs ++ [test_cfg]).


(** Every pair of files of the table is there and not older than the
    script. *)
Definition reader_up_to_date (w : world) (table : list (Z * list Z)) : Prop :=
  ∀ row length_, row ∈ table → length_ ∈ row.2 →
    ∃ f1 f2 script,
      files w !! reader_input (ROOT w) row.1 length_ = Some f1
      ∧ files w !! reader_reference (ROOT w) row.1 length_ = Some f2
      ∧ files w !! FILE_ w = Some script
      ∧ mtime script ≤ Z.max (mtime f1) (mtime f2).


(** A directory whose reader files were written after the script. *)
Definition up_to_date_world : world :=
  World (<[ lit "/repo/run.py" := File (lit "#!/usr/bin/env python3") 10 ]>
           (list_to_map ((λ p, (p, File (lit "x") 20)) <$>
                         reader_paths_of (lit "/repo") reader_table)))
        1000 (λ k, N.of_nat (k * 37 + 11)) 0 (lit "/repo") (lit "/repo/run.py") []
        increasing [].

(** ** Views of [main] used in the proofs *)




(** * Properties *)

(** ** Sanity checks of the Python primitives and of the codec *)

Example format_examples :
  format_02x 1 = lit "01" ∧ format_02x 171 = lit "ab" ∧ format_x 0 = lit "0"
  ∧ format_prec_x 0 0 = lit "0" ∧ format_prec_x 2 15 = lit "0f"
  ∧ format_d 128 = lit "128" ∧ py_bin 5 = lit "0b101" ∧ int2 (lit "10") = Ok 2
  ∧ split_on NL (lit "a
b
") = [lit "a"; lit "b"; []]
  ∧ slice [1;2;3;4;5] (Some 1) (Some 3) = [2;3]
  ∧ index [1;2;3] (-1) = Ok 3
  ∧ format_02x (-5) = lit "-5" ∧ format_prec_x 2 (-5) = lit "-05"
  ∧ py_bin (-5) = lit "-0b101" ∧ py_bin 0 = lit "0b0"
  ∧ slice (lit "abcdef") (Some (-2)) None = lit "ef"
  ∧ slice (lit "ab") None (Some (-5)) = []
  ∧ path_join (lit "/repo") (lit "vunit_out") = lit "/repo/vunit_out"
  ∧ strip (lit " a
") = lit "a".
Proof. repeat split; reflexivity. Qed.

Example encode_01_02_w8 :
  snd <$> (match encode [1; 2] 8 with Ok x => Some x | _ => None end)
  = Some (lit "01,0,0
02,1,1
").
Proof. reflexivity. Qed.

Example encode_01_w1 :
  reference_lines 1 1 [1]
  = Ok (lit <$> ["1,,0"; "0,,0"; "0,,0"; "0,,0"; "0,,0"; "0,,0"; "0,,0"; "0,,1"])%string.
Proof. reflexivity. Qed.

Example encode_w16_3 :
  reference_lines 16 3 [1; 2; 3] = Ok (lit <$> ["0201,0,0"; "0003,1,1"])%string.
Proof. reflexivity. Qed.

Example encode_w3 :
  reference_lines 3 1 [255] = Ok (lit <$> ["7,,0"; "7,,0"; "3,,1"])%string.
Proof. reflexivity. Qed.

(** ** Slices and indices at non-negative positions *)

Section sequences.
Context {A : Type}.
Implicit Types l : list A.

Lemma slice_bound_nat l (k : nat) :
  slice_bound (Z.of_nat (length l)) (Z.of_nat k) = (length l `min` k)%nat.
Proof.
  unfold slice_bound. destruct (Z.ltb_spec (Z.of_nat k) 0); lia.
Qed.

Lemma take_min_length l (k : nat) : take (length l `min` k) l = take k l.
Proof.
  destruct (decide (k ≤ length l)%nat) as [Hk|Hk].
  - by rewrite Nat.min_r.
  - rewrite Nat.min_l by lia. rewrite !take_ge by lia. done.
Qed.

Lemma drop_min_length l (k : nat) : drop (length l `min` k) l = drop k l.
Proof.
  destruct (decide (k ≤ length l)%nat) as [Hk|Hk].
  - by rewrite Nat.min_r.
  - rewrite Nat.min_l by lia. rewrite !drop_ge by lia. done.
Qed.

(** [l[:k]] *)
Lemma slice_prefix l (k : nat) : slice l None (Some (Z.of_nat k)) = take k l.
Proof.
  unfold slice. simpl. rewrite slice_bound_nat, Nat.sub_0_r.
  apply take_min_length.
Qed.

(** [l[k:]] *)
Lemma slice_suffix l (k : nat) : slice l (Some (Z.of_nat k)) None = drop k l.
Proof.
  unfold slice. simpl. rewrite slice_bound_nat, drop_min_length.
  apply take_ge. rewrite length_drop. lia.
Qed.

(** [l[a:b]] *)
Lemma slice_between l (a b : nat) :
  slice l (Some (Z.of_nat a)) (Some (Z.of_nat b)) = take (b - a) (drop a l).
Proof.
  unfold slice. simpl. rewrite !slice_bound_nat, drop_min_length.
  destruct (decide (b ≤ length l)%nat); destruct (decide (a ≤ length l)%nat).
  - by rewrite !Nat.min_r by lia.
  - rewrite drop_ge by lia. by rewrite !take_nil.
  - rewrite Nat.min_l, Nat.min_r by lia.
    rewrite !take_ge; [done | rewrite length_drop; lia | rewrite length_drop; lia].
  - rewrite drop_ge by lia. by rewrite !take_nil.
Qed.

(** [l[k]] *)
Lemma index_lookup l (k : nat) x : l !! k = Some x → index l (Z.of_nat k) = Ok x.
Proof.
  intros Hx. unfold index.
  assert ((Z.of_nat k <? 0) = false) as E by (apply Z.ltb_ge; lia).
  rewrite E. simpl. rewrite E, Nat2Z.id, Hx. done.
Qed.

Lemma index_out_of_range l (k : nat) : (length l ≤ k)%nat → index l (Z.of_nat k) = Raise IndexError.
Proof.
  intros Hk. unfold index.
  assert ((Z.of_nat k <? 0) = false) as E by (apply Z.ltb_ge; lia).
  rewrite E. simpl. rewrite E, Nat2Z.id. by rewrite lookup_ge_None_2.
Qed.

Lemma slice_prefix_Z l (k : Z) : 0 ≤ k → slice l None (Some k) = take (Z.to_nat k) l.
Proof. intros. rewrite <- (Z2Nat.id k) at 1 by done. apply slice_prefix. Qed.

Lemma slice_suffix_Z l (k : Z) : 0 ≤ k → slice l (Some k) None = drop (Z.to_nat k) l.
Proof. intros. rewrite <- (Z2Nat.id k) at 1 by done. apply slice_suffix. Qed.

Lemma slice_between_Z l (a b : Z) :
  0 ≤ a → 0 ≤ b →
  slice l (Some a) (Some b) = take (Z.to_nat b - Z.to_nat a) (drop (Z.to_nat a) l).
Proof.
  intros. rewrite <- (Z2Nat.id a) at 1 by done. rewrite <- (Z2Nat.id b) at 1 by done.
  apply slice_between.
Qed.

Lemma index_lookup_Z l (k : Z) x :
  0 ≤ k → l !! Z.to_nat k = Some x → index l k = Ok x.
Proof. intros. rewrite <- (Z2Nat.id k) by done. by apply index_lookup. Qed.
End sequences.

(** ** Error-injection derivations *)

(** What [single_mismatch] computes on a log of at least 9 entries. *)
Lemma single_mismatch_eq (ref_data : list str) l8 :
  ref_data !! 8%nat = Some l8 →
  single_mismatch ref_data = Ok (take 7 ref_data ++ l8 :: l8 :: drop 9 ref_data).
Proof.
  intros H8. unfold single_mismatch.
  rewrite (index_lookup_Z ref_data 8 l8) by done. simpl.
  rewrite slice_prefix_Z, slice_suffix_Z by done.
  change (Z.to_nat 7) with 7%nat. change (Z.to_nat 8) with 8%nat.
  by rewrite (drop_S _ _ _ H8).
Qed.

(** C1 (amended): on a base log of at least 9 lines, [single_mismatch]
    keeps lines 0..6, leaves line 7 out, writes line 8 twice and then the
    lines from 9 on; the output has as many lines as the base log. *)
Theorem single_mismatch_skips_and_duplicates (ref_data : list str) :
  (9 ≤ length ref_data)%nat →
  ∃ l8 out,
    ref_data !! 8%nat = Some l8
    ∧ single_mismatch ref_data = Ok out
    ∧ out = take 7 ref_data ++ [l8; l8] ++ drop 9 ref_data
    ∧ length out = length ref_data.
Proof.
  intros Hlen.
  destruct (lookup_lt_is_Some_2 ref_data 8 ltac:(lia)) as [l8 H8].
  exists l8, (take 7 ref_data ++ [l8; l8] ++ drop 9 ref_data).
  split; [done|]. split; [by apply single_mismatch_eq|]. split; [done|].
  rewrite !length_app, length_take, length_drop.
  change (length [l8; l8]) with 2%nat. lia.
Qed.

Lemma single_mismatch_skips_and_duplicates_witness :
  (9 ≤ length twenty_lines)%nat
  ∧ ∃ l8 out,
      twenty_lines !! 8%nat = Some l8
      ∧ single_mismatch twenty_lines = Ok out
      ∧ out = take 7 twenty_lines ++ [l8; l8] ++ drop 9 twenty_lines
      ∧ length out = length twenty_lines.
Proof.
  split; [vm_compute; lia|].
  apply (single_mismatch_skips_and_duplicates twenty_lines). vm_compute. lia.
Defined.

(** C1 as the specification words it fails: on the twenty-line log the
    output is the log with line 7 replaced by line 8, it does not contain
    line 7 twice and it is not one line longer. *)
Lemma single_mismatch_not_as_specified :
  (9 ≤ length twenty_lines)%nat
  ∧ ∃ out, single_mismatch twenty_lines = Ok out
           ∧ length out = length twenty_lines
           ∧ out !! 7%nat = Some (lit "8")
           ∧ ¬ single_mismatch_as_specified twenty_lines out.
Proof.
  split; [vm_compute; lia|].
  eexists. split; [vm_compute; reflexivity|].
  split; [reflexivity|]. split; [reflexivity|].
  intros (l7 & _ & _ & Hlen). vm_compute in Hlen. discriminate.
Qed.

(** What [double_mismatch] computes on a log of at least 18 entries. *)
Lemma double_mismatch_eq (ref_data : list str) l8 l17 :
  ref_data !! 8%nat = Some l8 →
  ref_data !! 17%nat = Some l17 →
  double_mismatch ref_data
  = Ok (take 7 ref_data ++ [l8; l8] ++ take 7 (drop 9 ref_data)
        ++ l17 :: l17 :: drop 18 ref_data).
Proof.
  intros H8 H17. unfold double_mismatch.
  rewrite (index_lookup_Z ref_data 8 l8) by done. simpl.
  rewrite (index_lookup_Z ref_data 17 l17) by done. simpl.
  rewrite slice_prefix_Z, slice_suffix_Z, slice_between_Z by done.
  change (Z.to_nat 7) with 7%nat. change (Z.to_nat 17) with 17%nat.
  change (Z.to_nat 16 - Z.to_nat 9)%nat with 7%nat. change (Z.to_nat 9) with 9%nat.
  by rewrite (drop_S _ _ _ H17).
Qed.

(** C4 (amended): on a base log of at least 18 lines, [double_mismatch]
    keeps lines 0..6, leaves line 7 out and writes line 8 twice, keeps lines
    9..15, leaves line 16 out and writes line 17 twice, then the lines from
    18 on; the output has as many lines as the base log. *)
Theorem double_mismatch_skips_and_duplicates (ref_data : list str) :
  (18 ≤ length ref_data)%nat →
  ∃ l8 l17 out,
    ref_data !! 8%nat = Some l8
    ∧ ref_data !! 17%nat = Some l17
    ∧ double_mismatch ref_data = Ok out
    ∧ out = take 7 ref_data ++ [l8; l8] ++ take 7 (drop 9 ref_data)
            ++ [l17; l17] ++ drop 18 ref_data
    ∧ length out = length ref_data.
Proof.
  intros Hlen.
  destruct (lookup_lt_is_Some_2 ref_data 8 ltac:(lia)) as [l8 H8].
  destruct (lookup_lt_is_Some_2 ref_data 17 ltac:(lia)) as [l17 H17].
  exists l8, l17. eexists.
  split; [done|]. split; [done|]. split; [by apply double_mismatch_eq|].
  split; [done|].
  rewrite !length_app, !length_take. simpl length. rewrite !length_drop. lia.
Qed.

Lemma double_mismatch_skips_and_duplicates_witness :
  (18 ≤ length twenty_lines)%nat
  ∧ ∃ l8 l17 out,
      twenty_lines !! 8%nat = Some l8
      ∧ twenty_lines !! 17%nat = Some l17
      ∧ double_mismatch twenty_lines = Ok out
      ∧ out = take 7 twenty_lines ++ [l8; l8] ++ take 7 (drop 9 twenty_lines)
              ++ [l17; l17] ++ drop 18 twenty_lines
      ∧ length out = length twenty_lines.
Proof.
  split; [vm_compute; lia|].
  apply (double_mismatch_skips_and_duplicates twenty_lines). vm_compute. lia.
Defined.

(** C4 as the specification words it fails: on the twenty-line log lines 7
    and 16 are absent from the output, lines 8 and 17 are there twice, and
    the output is not two lines longer. *)
Lemma double_mismatch_not_as_specified :
  (18 ≤ length twenty_lines)%nat
  ∧ ∃ out, double_mismatch twenty_lines = Ok out
           ∧ length out = length twenty_lines
           ∧ (lit "7" ∉ out) ∧ (lit "16" ∉ out)
           ∧ ¬ double_mismatch_as_specified twenty_lines out.
Proof.
  split; [vm_compute; lia|].
  eexists. split; [vm_compute; reflexivity|].
  split; [reflexivity|].
  split; [by apply (bool_decide_unpack _)|].
  split; [by apply (bool_decide_unpack _)|].
  intros (l7 & l16 & _ & _ & _ & Hlen). vm_compute in Hlen. discriminate.
Qed.

(** ** Windows *)

Section chunks.
Context {A : Type}.
Implicit Types l w : list A.

Lemma chunks_aux_fuel (n : nat) fuel1 fuel2 l :
  (0 < n)%nat → (length l ≤ fuel1)%nat → (length l ≤ fuel2)%nat →
  chunks_aux fuel1 n l = chunks_aux fuel2 n l.
Proof.
  intros Hn. revert fuel2 l.
  induction fuel1 as [|fuel1 IH]; intros fuel2 l H1 H2.
  - destruct l; [|simpl in H1; lia]. by destruct fuel2.
  - destruct l as [|x l]; [by destruct fuel2|].
    destruct fuel2 as [|fuel2]; [simpl in H2; lia|].
    simpl chunks_aux. f_equal.
    apply IH; rewrite length_drop; simpl in *; lia.
Qed.

Lemma chunks_nil (n : nat) : chunks n (@nil A) = [].
Proof. done. Qed.

Lemma chunks_cons (n : nat) l :
  (0 < n)%nat → l ≠ [] → chunks n l = take n l :: chunks n (drop n l).
Proof.
  intros Hn Hl. unfold chunks. destruct l as [|x l]; [done|].
  simpl length. simpl chunks_aux at 1. f_equal.
  apply chunks_aux_fuel; [done| |done].
  rewrite length_drop. simpl. lia.
Qed.

(** Induction along the windows of a list. *)
Lemma chunks_ind (n : nat) (P : list A → list (list A) → Prop) :
  (0 < n)%nat →
  P [] [] →
  (∀ l, l ≠ [] → P (drop n l) (chunks n (drop n l)) →
        P l (take n l :: chunks n (drop n l))) →
  ∀ l, P l (chunks n l).
Proof.
  intros Hn Hnil Hcons l.
  induction l as [l IH] using (induction_ltof1 _ length). unfold ltof in IH.
  destruct (decide (l = [])) as [->|Hl]; [done|].
  rewrite chunks_cons by done. apply Hcons; [done|].
  apply IH. rewrite length_drop. destruct l; [done|simpl; lia].
Qed.

Lemma chunks_app_window (n : nat) w l :
  (0 < n)%nat → length w = n → chunks n (w ++ l) = w :: chunks n l.
Proof.
  intros Hn Hw. rewrite chunks_cons; [|done|].
  - rewrite take_app_length', drop_app_length' by done. done.
  - destruct w; [simpl in Hw; lia|done].
Qed.

Lemma chunks_short (n : nat) w :
  w ≠ [] → (length w ≤ n)%nat → chunks n w = [w].
Proof.
  intros Hw Hn. rewrite chunks_cons; [|destruct w; simpl in *; [done|lia]|done].
  rewrite take_ge, drop_ge by done. done.
Qed.

Lemma chunks_empty_iff (n : nat) l : (0 < n)%nat → chunks n l = [] ↔ l = [].
Proof.
  intros Hn. split; [|by intros ->].
  destruct (decide (l = [])); [done|]. by rewrite chunks_cons.
Qed.

Lemma concat_chunks (n : nat) l : (0 < n)%nat → concat (chunks n l) = l.
Proof.
  intros Hn. apply (chunks_ind n (λ l ws, concat ws = l)); [done..|].
  intros l' _ IH. simpl. rewrite IH. apply take_drop.
Qed.

(** Every window holds between 1 and [n] elements. *)
Lemma chunks_sizes (n : nat) l :
  (0 < n)%nat → Forall (λ w, 0 < length w ≤ n)%nat (chunks n l).
Proof.
  intros Hn. apply (chunks_ind n (λ l ws, Forall (λ w, 0 < length w ≤ n)%nat ws)); [done..|].
  intros l' Hl IH. constructor; [|done].
  rewrite length_take. destruct l'; [done|simpl; lia].
Qed.

(** The number of windows. *)
Lemma length_chunks (n : nat) l :
  (0 < n)%nat →
  Z.of_nat (length (chunks n l)) = ceil_div (Z.of_nat (length l)) (Z.of_nat n).
Proof.
  intros Hn.
  apply (chunks_ind n (λ l ws, Z.of_nat (length ws) = ceil_div (Z.of_nat (length l)) (Z.of_nat n)));
    [done| |].
  - unfold ceil_div. simpl. symmetry. apply Z.div_small. lia.
  - intros l' Hl IH. simpl length. rewrite Nat2Z.inj_succ, IH, length_drop.
    unfold ceil_div.
    assert (0 < length l')%nat by (destruct l'; [done|simpl; lia]).
    destruct (decide (length l' ≤ n)%nat) as [Hle|Hgt].
    + replace (length l' - n)%nat with 0%nat by lia.
      change (Z.of_nat 0) with 0.
      rewrite (Z.div_small (0 + Z.of_nat n - 1)) by lia.
      change (Z.succ 0) with 1.
      apply (Z.div_unique _ _ 1 (Z.of_nat (length l') - 1)); lia.
    + rewrite Nat2Z.inj_sub by lia.
      replace (Z.of_nat (length l') + Z.of_nat n - 1)
        with ((Z.of_nat (length l') - Z.of_nat n + Z.of_nat n - 1) + 1 * Z.of_nat n) by lia.
      rewrite Z.div_add by lia. lia.
Qed.
End chunks.

(** [ceil_div a b] is the least [q] with [a ≤ q * b]. *)
Lemma ceil_div_spec (a b : Z) :
  0 < b → a ≤ ceil_div a b * b ∧ ∀ q, a ≤ q * b → ceil_div a b ≤ q.
Proof.
  intros Hb. unfold ceil_div. split.
  - pose proof (Z.div_mod (a + b - 1) b ltac:(lia)).
    pose proof (Z.mod_pos_bound (a + b - 1) b Hb). nia.
  - intros q Hq. apply Z.lt_succ_r. apply Z.div_lt_upper_bound; [done|]. nia.
Qed.

(** ** The byte-aligned branch: the loop computes the lines of the windows *)

Lemma map_last_cons {A B} (f : bool → A → B) x l :
  l ≠ [] → map_last f (x :: l) = f false x :: map_last f l.
Proof. by destruct l. Qed.

Lemma length_map_last {A B} (f : bool → A → B) l : length (map_last f l) = length l.
Proof.
  induction l as [|x [|y l] IH]; [done..|].
  rewrite map_last_cons by done. simpl in *. by rewrite IH.
Qed.

Lemma aligned_lines_finish W L S :
  aligned_lines W L S
  = aligned_finish W (W / 8 / 4)
      (for_enumerate (aligned_body W L (W / 8 / 4)) 0 S (LoopState [] 0 [])).
Proof. reflexivity. Qed.

(** The test [(8 * (i + 1) % data_width) == 0] holds exactly when the window
    is full. *)
Lemma window_condition (n c : nat) (i q : Z) :
  (c < n)%nat → i = q * Z.of_nat n + Z.of_nat c →
  ((8 * (i + 1)) mod (8 * Z.of_nat n) =? 0) = bool_decide (S c = n).
Proof.
  intros Hc ->. rewrite Z.mul_mod_distr_l by lia.
  replace (q * Z.of_nat n + Z.of_nat c + 1) with (Z.of_nat c + 1 + q * Z.of_nat n) by lia.
  rewrite Z.mod_add by lia.
  case_bool_decide as Hn.
  - replace (Z.of_nat c + 1) with (Z.of_nat n) by lia.
    rewrite Z.mod_same by lia. done.
  - rewrite Z.mod_small by lia. apply Z.eqb_neq. lia.
Qed.

Lemma aligned_body_step (n : nat) (L prec : Z) cur ls (i q b : Z) :
  (length cur < n)%nat →
  i = q * Z.of_nat n + Z.of_nat (length cur) →
  aligned_body (8 * Z.of_nat n) L prec (LoopState (format_02x <$> reverse cur) 0 ls) i b
  = if decide (S (length cur) = n)
    then LoopState [] (if i =? L - 1 then Z.shiftl 1 (Z.of_nat n) - 1 else 0)
           (ls ++ [window_line n prec (i =? L - 1) (cur ++ [b])])
    else LoopState (format_02x <$> reverse (cur ++ [b])) 0 ls.
Proof.
  intros Hc Hi. unfold aligned_body.
  rewrite (window_condition n (length cur) i q Hc Hi).
  cbn [line tkeep lines]. rewrite reverse_snoc, fmap_cons.
  case_bool_decide as Hn; [rewrite decide_True by done|by rewrite decide_False by done].
  f_equal.
  - simpl length. rewrite length_fmap, length_reverse, Hn. done.
  - do 2 f_equal. unfold window_line.
    rewrite length_app. simpl length. rewrite length_fmap, length_reverse.
    replace (n - (length cur + 1))%nat with 0%nat by lia.
    rewrite reverse_snoc, fmap_cons. simpl replicate. simpl app.
    replace (length cur + 1)%nat with (S (length cur)) by lia. done.
Qed.

Lemma aligned_loop (n : nat) (L prec : Z) :
  (0 < n)%nat →
  ∀ rest cur ls (i q : Z),
    (length cur < n)%nat →
    i = q * Z.of_nat n + Z.of_nat (length cur) →
    i + Z.of_nat (length rest) = L →
    aligned_finish (8 * Z.of_nat n) prec
      (for_enumerate (aligned_body (8 * Z.of_nat n) L prec) i rest
         (LoopState (format_02x <$> reverse cur) 0 ls))
    = ls ++ map_last (window_line n prec) (chunks n (cur ++ rest)).
Proof.
  intros Hn. induction rest as [|b rest IH]; intros cur ls i q Hc Hi HL.
  - rewrite app_nil_r. cbn [for_enumerate]. unfold aligned_finish. cbn [line lines].
    destruct (decide (cur = [])) as [->|Hcur]; [simpl; by rewrite app_nil_r|].
    rewrite chunks_short by (done || lia). cbn [map_last]. unfold window_line.
    rewrite length_fmap, length_reverse.
    replace (8 * Z.of_nat n / 8) with (Z.of_nat n) by (rewrite Z.mul_comm, Z.div_mul; lia).
    replace (Z.to_nat (Z.of_nat n - Z.of_nat (length cur))) with (n - length cur)%nat by lia.
    destruct (format_02x <$> reverse cur) as [|x xs] eqn:E; [|done].
    apply (f_equal length) in E. rewrite length_fmap, length_reverse in E.
    destruct cur; done.
  - cbn [for_enumerate]. rewrite (aligned_body_step n L prec cur ls i q b Hc Hi).
    simpl length in HL.
    case_decide as Hfull.
    + replace (cur ++ b :: rest) with ((cur ++ [b]) ++ rest) by (by rewrite <- app_assoc).
      rewrite chunks_app_window by (done || rewrite length_app; simpl; lia).
      destruct rest as [|b' rest].
      * assert ((i =? L - 1) = true) as -> by (apply Z.eqb_eq; simpl in HL; lia).
        done.
      * assert ((i =? L - 1) = false) as -> by (apply Z.eqb_neq; simpl in HL; lia).
        rewrite map_last_cons by (rewrite chunks_empty_iff; done).
        rewrite (IH [] _ (i + 1) (q + 1)).
        -- by rewrite <- app_assoc.
        -- simpl. lia.
        -- change (length (@nil Z)) with 0%nat. lia.
        -- cbn [length] in *. lia.
    + rewrite (IH (cur ++ [b]) ls (i + 1) q).
      * by rewrite <- app_assoc.
      * rewrite length_app. simpl. lia.
      * rewrite length_app. simpl. lia.
      * lia.
Qed.

(** The lines of the byte-aligned branch are the lines of the windows of
    [n = W/8] bytes. *)
Lemma aligned_lines_windows (n : nat) (S : list Z) :
  (0 < n)%nat →
  aligned_lines (8 * Z.of_nat n) (Z.of_nat (length S)) S
  = map_last (window_line n (Z.of_nat n / 4)) (chunks n S).
Proof.
  intros Hn. rewrite aligned_lines_finish.
  replace (8 * Z.of_nat n / 8) with (Z.of_nat n) by (rewrite Z.mul_comm, Z.div_mul; lia).
  apply (aligned_loop n _ _ Hn S [] [] 0 0); simpl; lia.
Qed.

(** ** Hexadecimal formatting read back *)

(** A property checked on every value of a finite range. *)
Lemma forall_range (P : Z → Prop) `{!∀ z, Decision (P z)} (lo len : Z) :
  bool_decide (Forall P (seqZ lo len)) = true → ∀ z, lo ≤ z < lo + len → P z.
Proof.
  intros HP z Hz. apply bool_decide_eq_true_1 in HP.
  rewrite Forall_forall in HP. apply HP, elem_of_seqZ. lia.
Qed.

Lemma hexval_hexdigit d : 0 ≤ d < 16 → hexval (hexdigit d) = Some d.
Proof.
  intros Hd. by apply (forall_range (λ d, hexval (hexdigit d) = Some d) 0 16).
Qed.

Lemma format_02x_byte b :
  0 ≤ b ≤ 255 → format_02x b = [hexdigit (b / 16); hexdigit (b mod 16)].
Proof.
  intros Hb.
  apply (forall_range (λ b, format_02x b = [hexdigit (b / 16); hexdigit (b mod 16)]) 0 256);
    [by vm_compute | lia].
Qed.

Lemma parse_hex_acc_app acc s1 s2 :
  parse_hex_acc acc (s1 ++ s2) = parse_hex_acc acc s1 ≫= λ a, parse_hex_acc a s2.
Proof.
  revert acc. induction s1 as [|c s1 IH]; intros acc; [done|].
  simpl. destruct (hexval c); simpl; [apply IH|done].
Qed.

Lemma parse_hex_acc_zeros k s : parse_hex_acc 0 (zeros k ++ s) = parse_hex_acc 0 s.
Proof. induction k as [|k IH]; [done|]. simpl. apply IH. Qed.

Lemma parse_hex_acc_byte acc b :
  0 ≤ b ≤ 255 → parse_hex_acc acc (format_02x b) = Some (256 * acc + b).
Proof.
  intros Hb. rewrite format_02x_byte by done.
  assert (0 ≤ b / 16 < 16) as Hhi
    by (split; [apply Z.div_pos|apply Z.div_lt_upper_bound]; lia).
  assert (0 ≤ b mod 16 < 16) as Hlo by (apply Z.mod_pos_bound; lia).
  cbn [parse_hex_acc]. rewrite (hexval_hexdigit _ Hhi). cbn [mbind option_bind].
  rewrite (hexval_hexdigit _ Hlo). cbn [mbind option_bind].
  f_equal. pose proof (Z.div_mod b 16 ltac:(lia)). lia.
Qed.

Lemma parse_digits_aux fuel n acc :
  0 ≤ n < 16 ^ Z.of_nat fuel →
  parse_hex_acc 0 (digits_aux 16 fuel n acc) = parse_hex_acc n acc.
Proof.
  revert n acc. induction fuel as [|fuel IH]; intros n acc Hn.
  - simpl in *. by replace n with 0 by lia.
  - simpl digits_aux. destruct (Z.leb_spec n 0) as [H0|H0].
    + by replace n with 0 by lia.
    + rewrite IH.
      * cbn [parse_hex_acc].
        rewrite hexval_hexdigit by (apply Z.mod_pos_bound; lia). cbn [mbind option_bind].
        f_equal. pose proof (Z.div_mod n 16 ltac:(lia)). lia.
      * split; [apply Z.div_pos; lia|].
        apply Z.div_lt_upper_bound; [lia|].
        rewrite Nat2Z.inj_succ, Z.pow_succ_r in Hn by lia. lia.
Qed.

Lemma parse_digits v : 0 ≤ v → parse_hex_acc 0 (digits 16 v) = Some v.
Proof.
  intros Hv. unfold digits. rewrite Z.abs_eq by done.
  destruct (Z.eqb_spec v 0) as [->|Hnz]; [done|].
  rewrite parse_digits_aux; [done|]. split; [done|].
  rewrite Nat2Z.inj_succ, Z2Nat.id by apply Z.log2_nonneg.
  pose proof (Z.log2_spec v ltac:(lia)) as [_ Hlt].
  eapply Z.lt_le_trans; [exact Hlt|].
  apply Z.pow_le_mono_l. lia.
Qed.

Lemma digits_aux_length b fuel n acc : (length acc ≤ length (digits_aux b fuel n acc))%nat.
Proof.
  revert n acc. induction fuel as [|fuel IH]; intros n acc; [done|].
  simpl. destruct (n <=? 0); [done|].
  etrans; [|apply IH]. simpl. lia.
Qed.

Lemma digits_nonempty b v : digits b v ≠ [].
Proof.
  unfold digits. destruct (Z.eqb_spec (Z.abs v) 0) as [|Hnz]; [done|].
  cbn [digits_aux]. destruct (Z.leb_spec (Z.abs v) 0) as [|Hpos]; [lia|].
  intros E.
  pose proof (digits_aux_length b (Z.to_nat (Z.log2 (Z.abs v))) (Z.abs v / b)
                [hexdigit (Z.abs v mod b)]) as Hl.
  rewrite E in Hl. simpl in Hl. lia.
Qed.

Lemma parse_hex_acc_hexstr acc s v : parse_hex_acc acc s = Some v → hexstr s.
Proof.
  revert acc. induction s as [|c s IH]; intros acc Hs; [constructor|].
  simpl in Hs. destruct (hexval c) as [d|] eqn:Hc; [|done].
  constructor; [by rewrite Hc|]. by eapply IH.
Qed.

Lemma parse_hex_hexstr s v : parse_hex s = Some v → hexstr s.
Proof. destruct s; [done|]. apply parse_hex_acc_hexstr. Qed.

Lemma hexstr_no_comma s : hexstr s → COMMA ∉ s.
Proof.
  intros Hs Hin. unfold hexstr in Hs. rewrite Forall_forall in Hs.
  by destruct (Hs _ Hin).
Qed.

Lemma hexstr_no_newline s : hexstr s → NL ∉ s.
Proof.
  intros Hs Hin. unfold hexstr in Hs. rewrite Forall_forall in Hs.
  by destruct (Hs _ Hin).
Qed.

(** ** Split and join *)

Lemma split_on_notin c s : c ∉ s → split_on c s = [s].
Proof.
  induction s as [|x s IH]; intros Hc; [done|].
  apply not_elem_of_cons in Hc as [Hx Hs]. simpl.
  rewrite decide_False by done. by rewrite IH.
Qed.

Lemma split_on_app c a b : c ∉ a → split_on c (a ++ c :: b) = a :: split_on c b.
Proof.
  induction a as [|x a IH]; intros Hc.
  - simpl. by rewrite decide_True.
  - apply not_elem_of_cons in Hc as [Hx Ha]. simpl.
    rewrite decide_False by done. by rewrite IH.
Qed.

Lemma split_join c parts :
  parts ≠ [] → Forall (λ p, c ∉ p) parts → split_on c (join [c] parts) = parts.
Proof.
  induction parts as [|p [|p' parts] IH]; intros Hne Hall; [done| |].
  - simpl. apply split_on_notin. by inversion Hall.
  - inversion Hall as [|?? Hp Hrest]; subst.
    change (join [c] (p :: p' :: parts)) with (p ++ c :: join [c] (p' :: parts)).
    rewrite split_on_app by done. f_equal. by apply IH.
Qed.

Lemma join_snoc_empty c parts : parts ≠ [] → join [c] (parts ++ [[]]) = join [c] parts ++ [c].
Proof.
  induction parts as [|p [|p' parts] IH]; intros Hne; [done| |].
  - simpl. done.
  - change (join [c] ((p :: p' :: parts) ++ [[]]))
      with (p ++ [c] ++ join [c] ((p' :: parts) ++ [[]])).
    rewrite IH by done.
    change (join [c] (p :: p' :: parts)) with (p ++ [c] ++ join [c] (p' :: parts)).
    by rewrite <- !app_assoc.
Qed.

(** The reference file splits back into its lines and one empty entry. *)
Lemma split_reference_text lines_ :
  lines_ ≠ [] → Forall (λ l, NL ∉ l) lines_ →
  split_on NL (reference_text lines_) = lines_ ++ [[]].
Proof.
  intros Hne Hall. unfold reference_text.
  rewrite <- join_snoc_empty by done.
  apply split_join; [by destruct lines_|].
  apply Forall_app. split; [done|]. constructor; [|constructor]. apply not_elem_of_nil.
Qed.

Lemma parse_log_reference_text lines_ :
  lines_ ≠ [] → Forall (λ l, NL ∉ l) lines_ →
  parse_log (reference_text lines_) = mapM parse_record lines_.
Proof.
  intros Hne Hall. unfold parse_log.
  rewrite split_reference_text by done.
  rewrite reverse_app. simpl. by rewrite reverse_involutive.
Qed.

(** ** Reference lines read back *)

Lemma parse_flag_flag f : parse_flag (flag f) = Some f.
Proof. by destruct f. Qed.

Lemma split_record_line t k f :
  hexstr t → hexstr k → split_on COMMA (record_line t k f) = [t; k; flag f].
Proof.
  intros Ht Hk. unfold record_line.
  change (join (lit ",") [t; k; flag f]) with (t ++ COMMA :: (k ++ COMMA :: flag f)).
  rewrite split_on_app by by apply hexstr_no_comma.
  rewrite split_on_app by by apply hexstr_no_comma.
  by destruct f.
Qed.

Lemma record_line_no_newline t k f : hexstr t → hexstr k → NL ∉ record_line t k f.
Proof.
  intros Ht Hk. unfold record_line.
  change (join (lit ",") [t; k; flag f]) with (t ++ COMMA :: (k ++ COMMA :: flag f)).
  rewrite elem_of_app, elem_of_cons, elem_of_app, elem_of_cons.
  intros [?|[?|[?|[?|Hf]]]]; try done.
  - by apply (hexstr_no_newline t Ht).
  - by apply (hexstr_no_newline k Hk).
  - destruct f; apply list_elem_of_singleton in Hf; done.
Qed.

Lemma parse_record_line t k f wv kv :
  parse_hex t = Some wv → parse_hex k = Some kv →
  parse_record (record_line t k f) = Some (Transfer wv (Some kv) f).
Proof.
  intros Ht Hk. unfold parse_record.
  rewrite split_record_line by by eapply parse_hex_hexstr.
  rewrite Ht. simpl. destruct k as [|c k]; [done|].
  rewrite Hk. simpl. by rewrite parse_flag_flag.
Qed.

Lemma parse_record_line_no_keep t f wv :
  parse_hex t = Some wv →
  parse_record (record_line t [] f) = Some (Transfer wv None f).
Proof.
  intros Ht. unfold parse_record.
  rewrite split_record_line; [|by eapply parse_hex_hexstr|by constructor].
  rewrite Ht. simpl. by rewrite parse_flag_flag.
Qed.

Lemma join_nil_concat (l : list str) : join [] l = concat l.
Proof.
  induction l as [|p [|p' l] IH]; [done| |].
  - simpl. by rewrite app_nil_r.
  - change (join [] (p :: p' :: l)) with (p ++ join [] (p' :: l)). by rewrite IH.
Qed.

Lemma parse_hex_acc_pad k s :
  parse_hex_acc 0 (concat (replicate k (lit "00")) ++ s) = parse_hex_acc 0 s.
Proof. induction k as [|k IH]; [done|]. simpl. apply IH. Qed.

Lemma parse_hex_acc_bytes acc l :
  is_bytes l →
  parse_hex_acc acc (concat (format_02x <$> l)) = Some (foldl (λ a b, 256 * a + b) acc l).
Proof.
  intros Hl. revert acc. induction Hl as [|b l Hb Hl IH]; intros acc; [done|].
  rewrite fmap_cons. cbn [concat foldl]. rewrite parse_hex_acc_app.
  rewrite parse_hex_acc_byte by done. apply IH.
Qed.

Lemma window_word_foldl w : window_word w = foldl (λ a b, 256 * a + b) 0 (reverse w).
Proof.
  unfold window_word. induction w as [|b w IH]; [done|].
  rewrite reverse_cons, foldl_app. simpl. rewrite IH. lia.
Qed.

Lemma is_bytes_reverse l : is_bytes l → is_bytes (reverse l).
Proof. unfold is_bytes. by rewrite Forall_reverse. Qed.

(** The data field of a window reads back as the word of the window. *)
Lemma parse_window_tdata (n : nat) w :
  w ≠ [] → is_bytes w →
  parse_hex (join [] (replicate (n - length w) (lit "00") ++ (format_02x <$> reverse w)))
  = Some (window_word w).
Proof.
  intros Hne Hw. rewrite join_nil_concat, concat_app.
  assert (parse_hex_acc 0 (concat (replicate (n - length w) (lit "00"))
                           ++ concat (format_02x <$> reverse w))
          = Some (window_word w)) as Hparse.
  { rewrite parse_hex_acc_pad, parse_hex_acc_bytes by by apply is_bytes_reverse.
    by rewrite window_word_foldl. }
  unfold parse_hex.
  destruct (concat _ ++ concat _) as [|c s] eqn:E; [|done].
  apply app_eq_nil in E as [_ E].
  destruct w as [|b w] using rev_ind; [done|].
  rewrite reverse_snoc, fmap_cons in E. cbn [concat] in E.
  apply app_eq_nil in E as [E _].
  rewrite format_02x_byte in E; [done|].
  apply Forall_app in Hw as [_ Hb]. by inversion Hb.
Qed.

(** A keep mask reads back as its value. *)
Lemma parse_keep prec v : 0 ≤ v → parse_hex (format_prec_x prec v) = Some v.
Proof.
  intros Hv. unfold format_prec_x, sign_of.
  assert ((v <? 0) = false) as -> by (apply Z.ltb_ge; lia).
  rewrite app_nil_l.
  assert (parse_hex_acc 0 (zeros (Z.to_nat prec - length (digits 16 v)) ++ digits 16 v)
          = Some v) as Hparse by (by rewrite parse_hex_acc_zeros, parse_digits).
  unfold parse_hex.
  destruct (zeros _ ++ digits 16 v) as [|c s] eqn:E; [|done].
  apply app_eq_nil in E as [_ E]. by apply digits_nonempty in E.
Qed.

Lemma keep_nonneg (final : bool) (k : nat) :
  0 ≤ (if final then Z.shiftl 1 (Z.of_nat k) - 1 else 0).
Proof.
  destruct final; [|done]. rewrite Z.shiftl_1_l.
  pose proof (Z.pow_pos_nonneg 2 (Z.of_nat k)). lia.
Qed.

Lemma parse_window_line (n : nat) prec final w :
  w ≠ [] → is_bytes w →
  parse_record (window_line n prec final w) = Some (window_record final w).
Proof.
  intros Hne Hw. unfold window_line, window_record.
  apply parse_record_line.
  - by apply parse_window_tdata.
  - apply parse_keep, keep_nonneg.
Qed.

Lemma window_line_no_newline (n : nat) prec final w :
  w ≠ [] → is_bytes w → NL ∉ window_line n prec final w.
Proof.
  intros Hne Hw. unfold window_line. apply record_line_no_newline.
  - eapply parse_hex_hexstr. by apply parse_window_tdata.
  - eapply parse_hex_hexstr. apply parse_keep, keep_nonneg.
Qed.

(** ** Words unpacked into bytes *)

Lemma window_word_nonneg w : is_bytes w → 0 ≤ window_word w.
Proof.
  unfold window_word. induction 1 as [|b w Hb Hw IH]; simpl; lia.
Qed.

Lemma lane_0 b w : 0 ≤ b ≤ 255 → lane (window_word (b :: w)) 0 = b.
Proof.
  intros Hb. unfold lane, window_word. cbn [foldr].
  change (8 * Z.of_nat 0) with 0. rewrite Z.shiftr_0_r.
  change 255 with (Z.ones 8). rewrite Z.land_ones by lia.
  change (2 ^ 8) with 256.
  rewrite (Z.mul_comm 256), Z.mod_add by lia. apply Z.mod_small. lia.
Qed.

Lemma lane_S b w j :
  0 ≤ b ≤ 255 → lane (window_word (b :: w)) (S j) = lane (window_word w) j.
Proof.
  intros Hb. unfold lane. f_equal.
  replace (8 * Z.of_nat (S j)) with (8 + 8 * Z.of_nat j) by lia.
  rewrite <- Z.shiftr_shiftr by lia. f_equal.
  unfold window_word. cbn [foldr]. rewrite Z.shiftr_div_pow2 by lia.
  change (2 ^ 8) with 256.
  rewrite (Z.mul_comm 256), Z.div_add by lia.
  rewrite (Z.div_small b) by lia. lia.
Qed.

(** The lanes of the word of a window are its bytes in order of arrival. *)
Lemma unpack_window_word w : is_bytes w → unpack (length w) (window_word w) = w.
Proof.
  unfold unpack. induction 1 as [|b w Hb Hw IH]; [done|].
  cbn [length seq fmap list_fmap]. rewrite lane_0 by done. f_equal.
  rewrite <- fmap_S_seq, <- list_fmap_compose.
  etrans; [|exact IH]. apply list_fmap_ext. intros _ j _. simpl. by apply lane_S.
Qed.

Lemma filter_all {A} (P : A → Prop) `{!∀ x, Decision (P x)} l :
  Forall P l → filter P l = l.
Proof.
  induction 1 as [|x l Hx Hl IH]; [done|]. by rewrite filter_cons_True, IH.
Qed.

Lemma filter_none {A} (P : A → Prop) `{!∀ x, Decision (P x)} l :
  Forall (λ x, ¬ P x) l → filter P l = [].
Proof.
  induction 1 as [|x l Hx Hl IH]; [done|]. by rewrite filter_cons_False.
Qed.

Lemma testbit_keep (k j : nat) :
  Z.testbit (Z.shiftl 1 (Z.of_nat k) - 1) (Z.of_nat j) = true ↔ (j < k)%nat.
Proof.
  replace (Z.shiftl 1 (Z.of_nat k) - 1) with (Z.ones (Z.of_nat k))
    by (unfold Z.ones; lia).
  destruct (decide (j < k)%nat) as [Hlt|Hge].
  - rewrite Z.ones_spec_low by lia. done.
  - rewrite Z.ones_spec_high by lia. split; [done|lia].
Qed.

(** The lanes kept by the mask [(1 << k) - 1] are the first [k]. *)
Lemma filter_keep_lanes (k n : nat) :
  (k ≤ n)%nat →
  filter (λ j, Z.testbit (Z.shiftl 1 (Z.of_nat k) - 1) (Z.of_nat j) = true) (seq 0 n)
  = seq 0 k.
Proof.
  intros Hk. replace n with (k + (n - k))%nat by lia.
  rewrite seq_app, filter_app, filter_all, filter_none.
  - by rewrite app_nil_r.
  - apply Forall_seq. intros j Hj. rewrite testbit_keep. lia.
  - apply Forall_seq. intros j Hj. rewrite testbit_keep. lia.
Qed.

Lemma unpack_final_window (n : nat) w :
  is_bytes w → (length w ≤ n)%nat → unpack_final n (window_record true w) = w.
Proof.
  intros Hw Hn. unfold unpack_final, window_record. cbn [keep_mask word].
  rewrite filter_keep_lanes by done. by apply unpack_window_word.
Qed.

Lemma decode_records_cons (n : nat) r rs :
  rs ≠ [] → decode_records n (r :: rs) = unpack n (word r) ++ decode_records n rs.
Proof. by destruct rs. Qed.

Lemma map_last_empty_iff {A B} (f : bool → A → B) l : map_last f l = [] ↔ l = [].
Proof. split; [|by intros ->]. by destruct l as [|x [|y l]]. Qed.

(** Decoding the records of the windows of [S] gives [S] back. *)
Lemma decode_windows (n : nat) S :
  (0 < n)%nat → is_bytes S →
  decode_records n (map_last window_record (chunks n S)) = S.
Proof.
  intros Hn.
  apply (chunks_ind n (λ S ws, is_bytes S → decode_records n (map_last window_record ws) = S));
    [done..|].
  intros l Hl IH Hbytes.
  assert (is_bytes (take n l)) as Htake by by apply Forall_take.
  assert (is_bytes (drop n l)) as Hdrop by by apply Forall_drop.
  destruct (decide (drop n l = [])) as [Hlast|Hmore].
  - rewrite Hlast, chunks_nil. cbn [map_last decode_records].
    rewrite unpack_final_window; [|done|rewrite length_take; lia].
    rewrite <- (take_drop n l) at 2. by rewrite Hlast, app_nil_r.
  - rewrite map_last_cons by (by rewrite chunks_empty_iff).
    rewrite decode_records_cons by (by rewrite map_last_empty_iff, chunks_empty_iff).
    rewrite IH by done. cbn [window_record word].
    assert (length (take n l) = n) as Hfull.
    { rewrite length_take. apply Nat.min_l.
      destruct (decide (n ≤ length l)%nat); [done|].
      exfalso. apply Hmore, drop_ge. lia. }
    rewrite <- Hfull at 1. rewrite unpack_window_word by done. apply take_drop.
Qed.

Lemma mapM_map_last {A} (f : bool → A → str) (g : bool → A → TransferRecord) (l : list A) :
  (∀ final x, x ∈ l → parse_record (f final x) = Some (g final x)) →
  mapM parse_record (map_last f l) = Some (map_last g l).
Proof.
  induction l as [|x [|y l] IH]; intros Hf; [done| |].
  - simpl. rewrite Hf by apply list_elem_of_here. done.
  - rewrite !map_last_cons by done. cbn [mapM].
    rewrite Hf by apply list_elem_of_here. cbn [mbind option_bind].
    rewrite IH; [done|]. intros final z Hz. apply Hf. by apply list_elem_of_further.
Qed.

Lemma map_last_lookup {A B} (f : bool → A → B) (l : list A) (j : nat) :
  map_last f l !! j = (λ x, f (bool_decide (S j = length l)) x) <$> l !! j.
Proof.
  revert j. induction l as [|x [|y l] IH]; intros j; [done| |].
  - destruct j as [|j]; [done|]. simpl. by rewrite lookup_nil.
  - rewrite map_last_cons by done. destruct j as [|j]; [done|].
    cbn [lookup list_lookup]. rewrite IH.
    destruct ((y :: l) !! j); [|done]. simpl. f_equal. f_equal.
    apply bool_decide_ext. simpl. lia.
Qed.

(** ** The codec on byte-aligned widths *)

Lemma struct_pack_bytes S :
  is_bytes S → struct_pack_B (Z.of_nat (length S)) S = Ok (raw_bytes S).
Proof.
  intros HS. unfold struct_pack_B.
  rewrite Z.max_r by lia. rewrite Z.eqb_refl. cbn [negb].
  assert (forallb (λ b, (0 <=? b) && (b <=? 255)) S = true) as ->; [|done].
  apply forallb_forall. intros b Hb. apply list_elem_of_In in Hb.
  unfold is_bytes in HS. rewrite Forall_forall in HS. specialize (HS b Hb).
  apply andb_true_iff. split; apply Z.leb_le; lia.
Qed.

Lemma width_in_bytes_spec W :
  0 < W → W mod 8 = 0 →
  (0 < width_in_bytes W)%nat ∧ W = 8 * Z.of_nat (width_in_bytes W) ∧ 8 ≤ W.
Proof.
  intros HW Hmod. unfold width_in_bytes.
  pose proof (Z.div_mod W 8 ltac:(lia)) as Hdiv. rewrite Hmod in Hdiv.
  assert (0 < W / 8) by lia. lia.
Qed.

(** On a byte-aligned width the codec succeeds, and the reference file
    holds the lines of the windows of [W/8] bytes. *)
Lemma encode_aligned S W :
  is_bytes S → 0 < W → W mod 8 = 0 →
  encode S W
  = Ok (raw_bytes S,
        reference_text (map_last (window_line (width_in_bytes W) (W / 8 / 4))
                                 (chunks (width_in_bytes W) S))).
Proof.
  intros HS HW Hmod.
  destruct (width_in_bytes_spec W HW Hmod) as (Hn & HWn & H8).
  unfold encode, codec. rewrite struct_pack_bytes by done. cbn [mbind result_bind].
  unfold reference_lines. replace (8 <=? W) with true by (symmetry; apply Z.leb_le; lia).
  cbn [mbind result_bind mret result_ret]. do 3 f_equal.
  rewrite HWn at 1. rewrite aligned_lines_windows by done.
  do 2 f_equal. unfold width_in_bytes. rewrite Z2Nat.id; [done|]. apply Z.div_pos; lia.
Qed.

Lemma chunks_bytes (n : nat) S w :
  (0 < n)%nat → is_bytes S → w ∈ chunks n S → w ≠ [] ∧ is_bytes w.
Proof.
  intros Hn HS Hw. split.
  - pose proof (chunks_sizes n S Hn) as Hsz. rewrite Forall_forall in Hsz.
    specialize (Hsz w Hw). destruct w; [simpl in Hsz; lia|done].
  - rewrite <- (concat_chunks n S Hn) in HS. unfold is_bytes in HS.
    rewrite Forall_concat, Forall_forall in HS. by apply HS.
Qed.

(** The records a consumer reads from the reference file. *)
Lemma parse_log_aligned S W :
  S ≠ [] → is_bytes S → 0 < W → W mod 8 = 0 →
  ∃ raw ref,
    encode S W = Ok (raw, ref)
    ∧ parse_log ref = Some (map_last window_record (chunks (width_in_bytes W) S)).
Proof.
  intros Hne HS HW Hmod.
  destruct (width_in_bytes_spec W HW Hmod) as (Hn & HWn & H8).
  eexists _, _. split; [by apply encode_aligned|].
  rewrite parse_log_reference_text.
  - apply mapM_map_last. intros final w Hw.
    destruct (chunks_bytes _ _ _ Hn HS Hw). by apply parse_window_line.
  - by rewrite map_last_empty_iff, chunks_empty_iff.
  - apply Forall_forall. intros l Hl.
    apply list_elem_of_lookup in Hl as [j Hj]. rewrite map_last_lookup in Hj.
    destruct (chunks _ S !! j) as [w|] eqn:Hw; [|done]. simplify_eq/=.
    apply list_elem_of_lookup_2 in Hw.
    destruct (chunks_bytes _ _ _ Hn HS Hw). by apply window_line_no_newline.
Qed.


(** C5: for a non-empty byte sequence and a width that is a positive
    multiple of 8, the codec succeeds and decoding its reference file (words
    unpacked with the byte read last at the most significant position, the
    final record trimmed by its keep mask) gives the byte sequence back. *)
Theorem decode_encode_aligned (S : list Z) (W : Z) :
  S ≠ [] → is_bytes S → 0 < W → W mod 8 = 0 →
  ∃ raw ref, encode S W = Ok (raw, ref) ∧ decode W ref = Some S.
Proof.
  intros Hne HS HW Hmod.
  destruct (width_in_bytes_spec W HW Hmod) as (Hn & HWn & H8).
  destruct (parse_log_aligned S W Hne HS HW Hmod) as (raw & ref & Henc & Hlog).
  exists raw, ref. split; [done|].
  unfold decode. rewrite Hlog. cbn [mbind option_bind]. f_equal.
  by apply decode_windows.
Qed.

Lemma decode_encode_aligned_witness :
  ∃ raw ref, encode [1; 2; 3; 254; 255] 16 = Ok (raw, ref)
             ∧ decode 16 ref = Some [1; 2; 3; 254; 255].
Proof.
  apply (decode_encode_aligned [1; 2; 3; 254; 255] 16); [done| |lia|done].
  repeat constructor; lia.
Defined.

Lemma ceil_div_bits (len n : Z) :
  0 ≤ len → 0 < n → ceil_div (8 * len) (8 * n) = ceil_div len n.
Proof.
  intros Hlen Hn. unfold ceil_div.
  pose proof (Z.div_mod (len + n - 1) n ltac:(lia)) as Hdiv.
  pose proof (Z.mod_pos_bound (len + n - 1) n Hn) as Hmod.
  symmetry. apply (Z.div_unique _ _ _ (8 * ((len + n - 1) mod n) + 7)); lia.
Qed.

(** C6: for a non-empty byte sequence and a byte-aligned width, the
    reference file holds exactly [ceil(len(S) * 8 / W)] records, and a
    record has [last] set exactly when it is the final one. *)
Theorem record_count_and_last (S : list Z) (W : Z) :
  S ≠ [] → is_bytes S → 0 < W → W mod 8 = 0 →
  ∃ raw ref rs,
    encode S W = Ok (raw, ref)
    ∧ parse_log ref = Some rs
    ∧ Z.of_nat (length rs) = ceil_div (Z.of_nat (length S) * 8) W
    ∧ (∀ j r, rs !! j = Some r → (last r = true ↔ j = (length rs - 1)%nat))
    ∧ (∃ r, rs !! (length rs - 1)%nat = Some r ∧ last r = true).
Proof.
  intros Hne HS HW Hmod.
  destruct (width_in_bytes_spec W HW Hmod) as (Hn & HWn & H8).
  destruct (parse_log_aligned S W Hne HS HW Hmod) as (raw & ref & Henc & Hlog).
  exists raw, ref, (map_last window_record (chunks (width_in_bytes W) S)).
  split; [done|]. split; [done|].
  assert (Z.of_nat (length (map_last window_record (chunks (width_in_bytes W) S)))
          = ceil_div (Z.of_nat (length S) * 8) W) as Hcount.
  { rewrite length_map_last, length_chunks by done.
    rewrite HWn at 2. rewrite (Z.mul_comm _ 8), ceil_div_bits by lia. done. }
  split; [done|].
  assert (0 < length (map_last window_record (chunks (width_in_bytes W) S)))%nat as Hpos.
  { rewrite length_map_last.
    destruct (chunks (width_in_bytes W) S) eqn:E; [|simpl; lia].
    by apply chunks_empty_iff in E. }
  split.
  - intros j r Hj. rewrite map_last_lookup in Hj.
    destruct (chunks _ S !! j) as [w|] eqn:Hw; [|done]. simplify_eq/=.
    rewrite length_map_last in *. rewrite bool_decide_eq_true. lia.
  - destruct (lookup_lt_is_Some_2 (map_last window_record (chunks (width_in_bytes W) S))
                (length (map_last window_record (chunks (width_in_bytes W) S)) - 1))
      as [r Hr]; [lia|].
    exists r. split; [done|].
    rewrite map_last_lookup in Hr.
    destruct (chunks _ S !! _) as [w|] eqn:Hw; [|done]. simplify_eq/=.
    rewrite length_map_last in *. rewrite bool_decide_eq_true. lia.
Qed.

Lemma record_count_and_last_witness :
  ∃ raw ref rs,
    encode [1; 2; 3; 254; 255] 16 = Ok (raw, ref)
    ∧ parse_log ref = Some rs
    ∧ Z.of_nat (length rs) = ceil_div (Z.of_nat (length [1; 2; 3; 254; 255]) * 8) 16
    ∧ (∀ j r, rs !! j = Some r → (last r = true ↔ j = (length rs - 1)%nat))
    ∧ (∃ r, rs !! (length rs - 1)%nat = Some r ∧ last r = true).
Proof.
  apply (record_count_and_last [1; 2; 3; 254; 255] 16); [done| |lia|done].
  repeat constructor; lia.
Defined.

(** C3 (amended): for a byte-aligned width, a complete window gives a
    record whose keep mask is [(1 << W/8) - 1] when the window is the final
    one and 0 when it is not; the bytes 01 02 at width 8 give the two lines
    [01,0,0] and [02,1,1]. *)
Theorem keep_mask_of_complete_windows (S : list Z) (W : Z) :
  S ≠ [] → is_bytes S → 0 < W → W mod 8 = 0 →
  (∃ raw ref rs,
     encode S W = Ok (raw, ref)
     ∧ parse_log ref = Some rs
     ∧ length rs = length (chunks (width_in_bytes W) S)
     ∧ ∀ j w, chunks (width_in_bytes W) S !! j = Some w →
              Z.of_nat (length w) = W / 8 →
              ∃ r, rs !! j = Some r
                   ∧ keep_mask r
                     = Some (if bool_decide (Nat.succ j = length rs)
                             then Z.shiftl 1 (W / 8) - 1 else 0))
  ∧ snd <$> (match encode [1; 2] 8 with Ok x => Some x | _ => None end)
    = Some (lit "01,0,0
02,1,1
").
Proof.
  intros Hne HS HW Hmod. split; [|reflexivity].
  destruct (parse_log_aligned S W Hne HS HW Hmod) as (raw & ref & Henc & Hlog).
  exists raw, ref, (map_last window_record (chunks (width_in_bytes W) S)).
  split; [done|]. split; [done|]. split; [apply length_map_last|].
  intros j w Hw Hfull. rewrite map_last_lookup, Hw. simpl.
  eexists. split; [done|]. simpl. rewrite length_map_last, Hfull. done.
Qed.

Lemma keep_mask_of_complete_windows_witness :
  (∃ raw ref rs,
     encode [1; 2; 3; 4] 16 = Ok (raw, ref)
     ∧ parse_log ref = Some rs
     ∧ length rs = length (chunks (width_in_bytes 16) [1; 2; 3; 4])
     ∧ ∀ j w, chunks (width_in_bytes 16) [1; 2; 3; 4] !! j = Some w →
              Z.of_nat (length w) = 16 / 8 →
              ∃ r, rs !! j = Some r
                   ∧ keep_mask r
                     = Some (if bool_decide (Nat.succ j = length rs)
                             then Z.shiftl 1 (16 / 8) - 1 else 0))
  ∧ snd <$> (match encode [1; 2] 8 with Ok x => Some x | _ => None end)
    = Some (lit "01,0,0
02,1,1
").
Proof.
  apply (keep_mask_of_complete_windows [1; 2; 3; 4] 16); [done| |lia|done].
  repeat constructor; lia.
Defined.

(** C3 as the specification words it fails: for the bytes 01 02 at width 8
    the first window is complete and not final, its record has keep mask 0
    and not [(1 << 1) - 1 = 1], and the reference file is not the one the
    specification gives. *)
Lemma keep_mask_nonfinal_window_is_zero :
  ∃ raw ref rs r,
    encode [1; 2] 8 = Ok (raw, ref)
    ∧ parse_log ref = Some rs
    ∧ chunks (width_in_bytes 8) [1; 2] !! 0%nat = Some [1]
    ∧ rs !! 0%nat = Some r
    ∧ keep_mask r = Some 0
    ∧ keep_mask r ≠ Some (Z.shiftl 1 (8 / 8) - 1)
    ∧ ref ≠ lit "01,1,0
02,1,1
".
Proof.
  eexists _, _, _, _.
  split; [vm_compute; reflexivity|].
  split; [vm_compute; reflexivity|].
  split; [reflexivity|]. split; [reflexivity|]. split; [reflexivity|].
  split; [by vm_compute|]. by vm_compute.
Qed.

(** ** The sub-byte branch *)

Lemma flatten_byte_bits b :
  0 ≤ b ≤ 255 →
  length (flatten_byte b) = 8%nat
  ∧ Forall (λ c, c = "0"%char ∨ c = "1"%char) (flatten_byte b).
Proof.
  intros Hb.
  apply (forall_range
           (λ b, length (flatten_byte b) = 8%nat
                 ∧ Forall (λ c, c = "0"%char ∨ c = "1"%char) (flatten_byte b)) 0 256);
    [by vm_compute | lia].
Qed.

Lemma flatten_concat S : flatten S = concat (flatten_byte <$> S).
Proof.
  unfold flatten.
  assert (∀ acc, fold_left (λ flattened_bin_data byte, flattened_bin_data ++ flatten_byte byte) S acc
                 = acc ++ concat (flatten_byte <$> S)) as H; [|apply H].
  induction S as [|b S IH]; intros acc; simpl.
  - by rewrite app_nil_r.
  - by rewrite IH, app_assoc.
Qed.

Lemma flatten_length S : is_bytes S → length (flatten S) = (8 * length S)%nat.
Proof.
  intros HS. rewrite flatten_concat.
  induction HS as [|b S Hb HS IH]; [done|].
  rewrite fmap_cons. cbn [concat]. rewrite length_app, IH.
  destruct (flatten_byte_bits b Hb) as [-> _]. simpl. lia.
Qed.

Lemma flatten_bits S : is_bytes S → Forall is_bit (flatten S).
Proof.
  intros HS. rewrite flatten_concat.
  induction HS as [|b S Hb HS IH]; [constructor|].
  rewrite fmap_cons. cbn [concat]. apply Forall_app. split; [|done].
  by destruct (flatten_byte_bits b Hb) as [_ ?].
Qed.

Lemma int2_acc_bits acc s :
  Forall is_bit s →
  int2_acc acc s
  = Ok (foldl (λ acc c, 2 * acc + (if decide (c = "1"%char) then 1 else 0)) acc s).
Proof.
  intros Hs. revert acc. induction Hs as [|c s Hc Hs IH]; intros acc; [done|].
  cbn [int2_acc foldl]. destruct Hc as [->| ->].
  - rewrite decide_True by done. rewrite IH. by rewrite Z.add_0_r.
  - rewrite decide_False by done. rewrite decide_True by done. apply IH.
Qed.

(** [int(chunk, 2)] on a non-empty run of binary digits. *)
Lemma int2_bits s : s ≠ [] → Forall is_bit s → int2 s = Ok (bits_value s).
Proof.
  intros Hne Hs. unfold int2, bits_value. destruct s; [done|]. by apply int2_acc_bits.
Qed.

Lemma bits_value_bound s : 0 ≤ bits_value s < 2 ^ Z.of_nat (length s).
Proof.
  unfold bits_value.
  assert (∀ acc, 0 ≤ acc →
            0 ≤ foldl (λ acc c, 2 * acc + (if decide (c = "1"%char) then 1 else 0)) acc s
              < (acc + 1) * 2 ^ Z.of_nat (length s)) as H.
  { induction s as [|c s IH]; intros acc Hacc.
    - simpl. lia.
    - cbn [foldl length]. rewrite Nat2Z.inj_succ, Z.pow_succ_r by lia.
      specialize (IH (2 * acc + (if decide (c = "1"%char) then 1 else 0))).
      pose proof (Z.pow_pos_nonneg 2 (Z.of_nat (length s)) ltac:(lia) ltac:(lia)).
      destruct (decide (c = "1"%char)); nia. }
  specialize (H 0 ltac:(lia)). lia.
Qed.

(** The [while] loop computes the lines of the slices of the bit string,
    and does not run out of fuel. *)
Lemma slice_words_chunks (n : nat) fuel fl ls :
  (0 < n)%nat → (length fl ≤ fuel)%nat → Forall is_bit fl →
  slice_words fuel (Z.of_nat n) fl ls = Ok (ls ++ map_last slice_line (chunks n fl)).
Proof.
  intros Hn. revert fl ls. induction fuel as [|fuel IH]; intros fl ls Hfuel Hbits.
  - destruct fl; [|simpl in Hfuel; lia]. simpl. by rewrite app_nil_r.
  - destruct (decide (fl = [])) as [->|Hne]; [simpl; by rewrite app_nil_r|].
    assert (slice_words (S fuel) (Z.of_nat n) fl ls
            = word ← int2 (slice fl None (Some (Z.of_nat n)));
              slice_words fuel (Z.of_nat n) (slice fl (Some (Z.of_nat n)) None)
                (ls ++ [record_line (format_x word) []
                          (bool_decide (slice fl (Some (Z.of_nat n)) None = []))])) as ->
      by (by destruct fl).
    rewrite slice_prefix, slice_suffix.
    assert (take n fl ≠ []) as Htake by (destruct fl, n; try done; lia).
    rewrite int2_bits by (done || by apply Forall_take).
    cbn [mbind result_bind].
    rewrite IH; [|rewrite length_drop; lia|by apply Forall_drop].
    rewrite (chunks_cons n fl) by done. f_equal.
    rewrite <- app_assoc. f_equal.
    case_bool_decide as Hrest.
    + by rewrite Hrest.
    + rewrite map_last_cons by (by rewrite chunks_empty_iff). done.
Qed.

Lemma parse_format_x v : 0 ≤ v → parse_hex (format_x v) = Some v.
Proof.
  intros Hv. unfold format_x, sign_of.
  assert ((v <? 0) = false) as -> by (apply Z.ltb_ge; lia).
  rewrite app_nil_l. unfold parse_hex.
  pose proof (digits_nonempty 16 v).
  destruct (digits 16 v) eqn:E; [done|].
  rewrite <- E. by apply parse_digits.
Qed.

Lemma parse_slice_line final chunk :
  parse_record (slice_line final chunk) = Some (slice_record final chunk).
Proof.
  unfold slice_line, slice_record. apply parse_record_line_no_keep.
  apply parse_format_x, bits_value_bound.
Qed.

Lemma slice_line_no_newline final chunk : NL ∉ slice_line final chunk.
Proof.
  unfold slice_line. apply record_line_no_newline; [|constructor].
  eapply parse_hex_hexstr. apply parse_format_x, bits_value_bound.
Qed.

(** The last window of a list whose length is not a multiple of [n] holds
    the remaining [length l mod n] elements. *)
Lemma chunks_last_ragged {A} (n : nat) (l : list A) (r : nat) :
  (0 < n)%nat → Z.of_nat (length l) mod Z.of_nat n = Z.of_nat r → r ≠ 0%nat →
  list.last (chunks n l) = Some (drop (length l - r) l).
Proof.
  intros Hn. revert r.
  apply (chunks_ind n (λ l ws, ∀ r, Z.of_nat (length l) mod Z.of_nat n = Z.of_nat r →
                                    r ≠ 0%nat →
                                    list.last ws = Some (drop (length l - r) l)));
    [done| |].
  - intros r Hr Hnz. simpl in Hr. rewrite Z.mod_0_l in Hr by lia. lia.
  - intros l' Hl IH r Hr Hnz.
    destruct (decide (drop n l' = [])) as [Hlast|Hmore].
    + rewrite Hlast, chunks_nil. simpl.
      assert (length l' ≤ n)%nat as Hle.
      { apply (f_equal length) in Hlast. rewrite length_drop in Hlast. simpl in Hlast. lia. }
      assert (length l' ≠ n) as Hlt.
      { intros E. rewrite E, Z.mod_same in Hr by lia. lia. }
      rewrite Z.mod_small in Hr by lia.
      replace (length l' - r)%nat with 0%nat by lia. by rewrite take_ge.
    + assert (n < length l')%nat as Hgt.
      { destruct (decide (n < length l')%nat); [done|].
        exfalso. apply Hmore, drop_ge. lia. }
      rewrite last_cons.
      rewrite (IH r); cbn [from_option].
      * rewrite drop_drop, length_drop. do 2 f_equal.
        pose proof (Z.div_mod (Z.of_nat (length l')) (Z.of_nat n) ltac:(lia)) as Hdiv.
        assert (1 ≤ Z.of_nat (length l') / Z.of_nat n)
          by (apply Z.div_le_lower_bound; lia).
        nia.
      * rewrite length_drop, Nat2Z.inj_sub by lia.
        rewrite <- Hr.
        replace (Z.of_nat (length l')) with (Z.of_nat (length l') - Z.of_nat n + 1 * Z.of_nat n)
          at 2 by lia.
        by rewrite Z.mod_add by lia.
      * done.
Qed.

(** On a sub-byte width the codec succeeds, and the reference file holds
    the lines of the slices of [W] bits of the flattened bit string. *)
Lemma encode_subbyte S W :
  is_bytes S → 1 ≤ W < 8 →
  encode S W
  = Ok (raw_bytes S, reference_text (map_last slice_line (chunks (Z.to_nat W) (flatten S)))).
Proof.
  intros HS HW. unfold encode, codec.
  rewrite struct_pack_bytes by done. cbn [mbind result_bind].
  unfold reference_lines. replace (8 <=? W) with false by (symmetry; apply Z.leb_gt; lia).
  unfold subbyte_lines. rewrite flatten_length by done.
  replace (Z.of_nat (8 * length S) mod 8 =? 0) with true.
  2:{ symmetry. apply Z.eqb_eq. rewrite Nat2Z.inj_mul, Z.mul_comm.
      apply Z.mod_mul. lia. }
  cbn [negb]. rewrite <- (Z2Nat.id W) at 1 by lia.
  rewrite slice_words_chunks; [done|lia|by rewrite flatten_length|by apply flatten_bits].
Qed.

Lemma parse_log_subbyte S W :
  S ≠ [] → is_bytes S → 1 ≤ W < 8 →
  ∃ raw ref,
    encode S W = Ok (raw, ref)
    ∧ parse_log ref = Some (map_last slice_record (chunks (Z.to_nat W) (flatten S))).
Proof.
  intros Hne HS HW. eexists _, _. split; [by apply encode_subbyte|].
  assert (flatten S ≠ []) as Hfl.
  { intros E. apply (f_equal length) in E. rewrite flatten_length in E by done.
    destruct S; simpl in *; [done|lia]. }
  rewrite parse_log_reference_text.
  - apply mapM_map_last. intros final w _. apply parse_slice_line.
  - rewrite map_last_empty_iff, chunks_empty_iff by lia. done.
  - apply Forall_forall. intros l Hl.
    apply list_elem_of_lookup in Hl as [j Hj]. rewrite map_last_lookup in Hj.
    destruct (chunks _ _ !! j) as [w|] eqn:Hw; [|done]. simplify_eq/=.
    apply slice_line_no_newline.
Qed.

(** C10: for a non-empty byte sequence and a width [1 ≤ W < 8] the
    reference file holds exactly [ceil(8 * len(S) / W)] records; when
    [8 * len(S)] is not a multiple of [W], the word of the final record is
    the value of the remaining [(8 * len(S)) mod W] bits alone, hence below
    [2 ^ ((8 * len(S)) mod W)]. *)
Theorem subbyte_record_count_and_ragged_word (S : list Z) (W : Z) :
  S ≠ [] → is_bytes S → 1 ≤ W < 8 →
  ∃ raw ref rs,
    encode S W = Ok (raw, ref)
    ∧ parse_log ref = Some rs
    ∧ Z.of_nat (length rs) = ceil_div (8 * Z.of_nat (length S)) W
    ∧ ((8 * Z.of_nat (length S)) mod W ≠ 0 →
       ∃ r, rs !! (length rs - 1)%nat = Some r
            ∧ int2 (drop (length (flatten S) - Z.to_nat ((8 * Z.of_nat (length S)) mod W))
                         (flatten S)) = Ok (word r)
            ∧ 0 ≤ word r < 2 ^ ((8 * Z.of_nat (length S)) mod W)).
Proof.
  intros Hne HS HW.
  destruct (parse_log_subbyte S W Hne HS HW) as (raw & ref & Henc & Hlog).
  exists raw, ref, (map_last slice_record (chunks (Z.to_nat W) (flatten S))).
  split; [done|]. split; [done|].
  assert (Z.of_nat (length (flatten S)) = 8 * Z.of_nat (length S)) as Hlen
    by (rewrite flatten_length by done; lia).
  split.
  - rewrite length_map_last, length_chunks by lia.
    rewrite Hlen, Z2Nat.id by lia. done.
  - intros Hrag. rewrite length_map_last.
    set (r := Z.to_nat ((8 * Z.of_nat (length S)) mod W)).
    pose proof (Z.mod_pos_bound (8 * Z.of_nat (length S)) W ltac:(lia)) as Hr.
    pose proof (Z.mod_le (8 * Z.of_nat (length S)) W ltac:(lia) ltac:(lia)) as Hle.
    pose proof (chunks_last_ragged (Z.to_nat W) (flatten S) r ltac:(lia)) as Hlast.
    rewrite Hlen, Z2Nat.id in Hlast by lia.
    specialize (Hlast ltac:(unfold r; lia) ltac:(unfold r; lia)).
    rewrite last_lookup in Hlast.
    replace (pred (length (chunks (Z.to_nat W) (flatten S))))
      with (length (chunks (Z.to_nat W) (flatten S)) - 1)%nat in Hlast by lia.
    exists (slice_record true (drop (length (flatten S) - r) (flatten S))).
    assert (drop (length (flatten S) - r) (flatten S) ≠ []) as Hnonempty.
    { intros E. apply (f_equal length) in E. rewrite length_drop in E. simpl in E.
      unfold r in E. lia. }
    split; [|split].
    + rewrite map_last_lookup, Hlast. simpl. f_equal. f_equal.
      apply bool_decide_eq_true. 
      assert (0 < length (chunks (Z.to_nat W) (flatten S)))%nat; [|lia].
      apply lookup_lt_Some in Hlast. lia.
    + cbn [slice_record word]. apply int2_bits; [done|].
      apply Forall_drop. by apply flatten_bits.
    + cbn [slice_record word].
      pose proof (bits_value_bound (drop (length (flatten S) - r) (flatten S))) as Hb.
      rewrite length_drop in Hb.
      replace (Z.of_nat (length (flatten S) - (length (flatten S) - r)))
        with ((8 * Z.of_nat (length S)) mod W) in Hb by (unfold r; lia).
      done.
Qed.

Lemma subbyte_record_count_and_ragged_word_witness :
  ∃ raw ref rs,
    encode [255] 3 = Ok (raw, ref)
    ∧ parse_log ref = Some rs
    ∧ Z.of_nat (length rs) = ceil_div (8 * Z.of_nat (length [255])) 3
    ∧ ((8 * Z.of_nat (length [255])) mod 3 ≠ 0 →
       ∃ r, rs !! (length rs - 1)%nat = Some r
            ∧ int2 (drop (length (flatten [255]) - Z.to_nat ((8 * Z.of_nat (length [255])) mod 3))
                         (flatten [255])) = Ok (word r)
            ∧ 0 ≤ word r < 2 ^ ((8 * Z.of_nat (length [255])) mod 3)).
Proof.
  apply (subbyte_record_count_and_ragged_word [255] 3); [done| |lia].
  repeat constructor; lia.
Defined.

(** C8: the single byte 01 at width 1 gives exactly 8 records, with the
    words 1,0,0,0,0,0,0,0 in transmission order, [last] set on the final
    record only and no keep mask on any record. *)
Theorem encode_byte_01_width_1 :
  ∃ raw ref rs,
    encode [1] 1 = Ok (raw, ref)
    ∧ parse_log ref = Some rs
    ∧ length rs = 8%nat
    ∧ word <$> rs = [1; 0; 0; 0; 0; 0; 0; 0]
    ∧ last <$> rs = [false; false; false; false; false; false; false; true]
    ∧ keep_mask <$> rs = replicate 8 None
    ∧ ref = lit "1,,0
0,,0
0,,0
0,,0
0,,0
0,,0
0,,0
0,,1
".
Proof.
  eexists _, _, _.
  split; [vm_compute; reflexivity|].
  split; [vm_compute; reflexivity|].
  repeat split.
Qed.

(** ** The codec in the world: [generateAxiFileReaderTestFile] *)

Lemma randints_eq (n : nat) (a b : Z) w :
  a ≤ b → randints n a b w = Ok (drawn n a b w, after_draws n w).
Proof.
  intros Hab. revert w. induction n as [|n IH]; intros w.
  - by destruct w.
  - cbn [randints]. unfold mbind at 1, M_bind. unfold randint at 1.
    assert ((b <? a) = false) as -> by (apply Z.ltb_ge; lia).
    unfold mbind at 1, M_bind. rewrite IH. unfold mret, M_ret.
    unfold drawn, after_draws. cbn [seq fmap list_fmap rand_stream rand_pos files clock
      ROOT FILE_ arbiter_tests set_iter configs].
    f_equal. f_equal.
    + rewrite Nat.add_0_r. f_equal.
      rewrite <- fmap_S_seq, <- list_fmap_compose. apply list_fmap_ext.
      intros _ k _. simpl. do 4 f_equal. lia.
    + f_equal. lia.
Qed.

(** The codec does not look at [length] beyond the number of bytes. *)
Lemma codec_encode W L S : Z.to_nat L = length S → codec W L S = encode S W.
Proof.
  intros HL. unfold encode.
  destruct (Z.le_gt_cases 0 L) as [Hpos|Hneg].
  - f_equal. lia.
  - assert (S = []) as -> by (destruct S; [done|simpl in HL; lia]).
    unfold codec, struct_pack_B. simpl length.
    rewrite Z.max_l by lia. cbn [Z.of_nat Z.eqb negb forallb map mbind result_bind].
    unfold reference_lines. destruct (8 <=? W); reflexivity.
Qed.

(** [generateAxiFileReaderTestFile] writes the two files of [codec] for the
    bytes it draws, and fails exactly when [codec] does. *)
Lemma generate_eq tf rf W L w :
  generateAxiFileReaderTestFile tf rf W L w
  = match encode (drawn (Z.to_nat L) 0 255 w) W with
    | Ok (raw, ref) =>
        let w1 := after_draws (Z.to_nat L) w in
        Ok (tt, World (<[rf := File ref (clock w)]> (<[tf := File raw (clock w)]> (files w)))
                      (clock w) (rand_stream w1) (rand_pos w1) (ROOT w) (FILE_ w)
                      (arbiter_tests w) (set_iter w) (configs w))
    | Raise e => Raise e
    | OutOfFuel => OutOfFuel
    end.
Proof.
  rewrite <- (codec_encode W L) by (unfold drawn; by rewrite length_fmap, length_seq).
  unfold generateAxiFileReaderTestFile. unfold mbind at 1, M_bind.
  rewrite randints_eq by lia. unfold codec.
  unfold mbind at 1, M_bind. unfold lift at 1.
  destruct (struct_pack_B L _) as [raw|e|]; [|done..].
  cbn [mbind result_bind]. unfold mbind at 1, M_bind. unfold write_file at 1.
  unfold mbind at 1, M_bind. unfold lift at 1.
  destruct (reference_lines W L _) as [ls|e|]; done.
Qed.

(** The [while] loop of the sub-byte branch ends: with fuel for one turn
    per character it never runs out, whatever the width and the string. *)
Lemma slice_shrinks {A} (l : list A) (k : Z) :
  slice l None (Some k) ≠ [] → (length (slice l (Some k) None) < length l)%nat.
Proof.
  unfold slice. cbn [from_option]. intros Hne.
  rewrite Nat.sub_0_r, drop_0 in Hne.
  assert (0 < slice_bound (Z.of_nat (length l)) k)%nat as Hpos.
  { destruct (slice_bound (Z.of_nat (length l)) k); [by rewrite take_0 in Hne|lia]. }
  assert (0 < length l)%nat
    by (destruct l; [by rewrite take_nil in Hne|simpl; lia]).
  rewrite length_take, length_drop. lia.
Qed.

Lemma int2_acc_fuel acc s : int2_acc acc s ≠ OutOfFuel.
Proof.
  revert acc. induction s as [|c s IH]; intros acc; [done|].
  simpl. repeat case_decide; [apply IH..|done].
Qed.

Lemma int2_ok_nonempty s v : int2 s = Ok v → s ≠ [].
Proof. by destruct s. Qed.

Lemma slice_words_fuel fuel W fl ls :
  (length fl ≤ fuel)%nat → slice_words fuel W fl ls ≠ OutOfFuel.
Proof.
  revert fl ls. induction fuel as [|fuel IH]; intros fl ls Hfuel.
  - destruct fl; [done|simpl in Hfuel; lia].
  - destruct fl as [|c fl]; [done|].
    cbn [slice_words]. destruct (int2 (slice (c :: fl) None (Some W))) as [v|e|] eqn:Hv.
    + cbn [mbind result_bind]. apply IH.
      pose proof (slice_shrinks (c :: fl) W (int2_ok_nonempty _ _ Hv)). lia.
    + done.
    + exfalso. unfold int2 in Hv. destruct (slice _ _ _); [done|].
      by apply int2_acc_fuel in Hv.
Qed.

(** The codec is total: it returns or raises. *)
Lemma encode_total S W : encode S W ≠ OutOfFuel.
Proof.
  unfold encode, codec.
  destruct (struct_pack_B _ S) as [raw|e|] eqn:Hp.
  - cbn [mbind result_bind]. unfold reference_lines.
    destruct (8 <=? W); [done|]. unfold subbyte_lines.
    destruct (negb _); [done|].
    destruct (slice_words _ _ _ _) eqn:E; [done..|].
    by apply slice_words_fuel in E.
  - done.
  - unfold struct_pack_B in Hp. repeat case_match; done.
Qed.

(** C2: two runs of the codec that draw the same byte sequence [S], at the
    same width, end in the same way: both fail with the same exception, or
    both succeed and leave the same raw file and the same reference file,
    whatever the file systems and the generator states were. *)
Theorem codec_idempotent (tf rf : str) (W L : Z) (S : list Z) (w1 w2 : world) :
  drawn (Z.to_nat L) 0 255 w1 = S →
  drawn (Z.to_nat L) 0 255 w2 = S →
  match generateAxiFileReaderTestFile tf rf W L w1,
        generateAxiFileReaderTestFile tf rf W L w2 with
  | Ok (_, w1'), Ok (_, w2') =>
      content_of w1' tf = content_of w2' tf ∧ content_of w1' rf = content_of w2' rf
      ∧ (tf ≠ rf → ∃ raw ref, encode S W = Ok (raw, ref)
                              ∧ content_of w1' tf = Some raw ∧ content_of w1' rf = Some ref)
  | Raise e1, Raise e2 => e1 = e2
  | _, _ => False
  end.
Proof.
  intros H1 H2. rewrite !generate_eq, H1, H2.
  destruct (encode S W) as [[raw ref]|e|] eqn:Henc.
  - unfold content_of. cbn [files].
    rewrite !lookup_insert_eq. rewrite !(lookup_insert _ rf tf).
    destruct (decide (rf = tf)) as [->|Hne].
    + split; [done|]. split; [done|]. intros Hne. done.
    + rewrite !lookup_insert_eq. split; [done|]. split; [done|].
      intros _. exists raw, ref. done.
  - done.
  - by apply encode_total in Henc.
Qed.

Lemma codec_idempotent_witness :
  match generateAxiFileReaderTestFile (lit "in.bin") (lit "ref.bin") 16 3 sample_world,
        generateAxiFileReaderTestFile (lit "in.bin") (lit "ref.bin") 16 3 other_world with
  | Ok (_, w1'), Ok (_, w2') =>
      content_of w1' (lit "in.bin") = content_of w2' (lit "in.bin")
      ∧ content_of w1' (lit "ref.bin") = content_of w2' (lit "ref.bin")
      ∧ (lit "in.bin" ≠ lit "ref.bin" →
         ∃ raw ref, encode [11; 48; 85] 16 = Ok (raw, ref)
                    ∧ content_of w1' (lit "in.bin") = Some raw
                    ∧ content_of w1' (lit "ref.bin") = Some ref)
  | Raise e1, Raise e2 => e1 = e2
  | _, _ => False
  end.
Proof.
  apply (codec_idempotent (lit "in.bin") (lit "ref.bin") 16 3 [11; 48; 85]
           sample_world other_world); reflexivity.
Defined.

(** ** Registered configurations *)

Lemma bind_ok {A B} (m : M A) (k : A → M B) w b w' :
  (m ≫= k) w = Ok (b, w') → ∃ a w1, m w = Ok (a, w1) ∧ k a w1 = Ok (b, w').
Proof.
  unfold mbind, M_bind. destruct (m w) as [[a w1]|e|]; [|done..].
  intros Hk. by exists a, w1.
Qed.

Lemma adds_silent P {A} (m : M A) : silent m → adds P m.
Proof.
  intros Hm w a w' Hrun. exists []. rewrite app_nil_r. split; [by eapply Hm|constructor].
Qed.

Lemma adds_ret P {A} (a : A) : adds P (mret a : M A).
Proof. apply adds_silent. intros w a' w' [= _ <-]. done. Qed.

Lemma adds_bind P {A B} (m : M A) (k : A → M B) :
  adds P m → (∀ a, adds P (k a)) → adds P (m ≫= k).
Proof.
  intros Hm Hk w b w' Hrun.
  apply bind_ok in Hrun as (a & w1 & Hm1 & Hk1).
  apply Hm in Hm1 as (cs1 & Hw1 & Hcs1). apply Hk in Hk1 as (cs2 & Hw' & Hcs2).
  exists (cs1 ++ cs2). rewrite Hw', Hw1, <- app_assoc. rewrite Forall_app. done.
Qed.

Lemma adds_for_each P {A} (l : list A) (body : A → M unit) :
  (∀ x, adds P (body x)) → adds P (for_each l body).
Proof.
  intros Hbody. induction l as [|x l IH]; simpl.
  - apply adds_ret.
  - apply adds_bind; [apply Hbody|]. intros _. apply IH.
Qed.

Lemma adds_for_fold P {A St} (l : list A) (acc : St) (body : St → A → M St) :
  (∀ acc x, adds P (body acc x)) → adds P (for_fold l acc body).
Proof.
  intros Hbody. revert acc. induction l as [|x l IH]; intros acc; simpl.
  - apply adds_ret.
  - apply adds_bind; [apply Hbody|]. intros acc'. apply IH.
Qed.

Lemma adds_when P (c : bool) (body : M unit) : adds P body → adds P (when c body).
Proof. intros Hbody. destruct c; [done|apply adds_ret]. Qed.

Lemma adds_add_config P c : P c → adds P (add_config c).
Proof.
  intros Hc w a w' [= _ <-]. exists [c]. split; [done|]. by constructor.
Qed.

Lemma adds_get P {A} (f : world → A) : adds P (get f).
Proof. apply adds_silent. intros w a w' [= _ <-]. done. Qed.

Lemma adds_lift P {A} (r : result A) : adds P (lift r).
Proof. apply adds_silent. intros w a w'. unfold lift. destruct r; [|done..]. by intros [= _ <-]. Qed.

Lemma adds_randint P a b : adds P (randint a b).
Proof.
  apply adds_silent. intros w x w'. unfold randint.
  destruct (b <? a); [done|]. by intros [= _ <-].
Qed.

Lemma adds_randints P n a b : adds P (randints n a b).
Proof.
  induction n as [|n IH]; simpl; [apply adds_ret|].
  apply adds_bind; [apply adds_randint|]. intros x.
  apply adds_bind; [apply IH|]. intros xs. apply adds_ret.
Qed.

Lemma adds_exists_ P path : adds P (exists_ path).
Proof. apply adds_get. Qed.

Lemma adds_getmtime P path : adds P (getmtime path).
Proof.
  apply adds_silent. intros w x w'. unfold getmtime.
  destruct (files w !! path); [|done]. by intros [= _ <-].
Qed.

Lemma adds_read_file P path : adds P (read_file path).
Proof.
  apply adds_silent. intros w x w'. unfold read_file.
  destruct (files w !! path); [|done]. by intros [= _ <-].
Qed.

Lemma adds_write_file P path data : adds P (write_file path data).
Proof. apply adds_silent. intros w x w' [= _ <-]. done. Qed.

Lemma adds_vunit_out P name : adds P (vunit_out name).
Proof. apply adds_bind; [apply adds_get|]. intros root. apply adds_ret. Qed.

(** Goes through a monadic program along its binds, loops and tests,
    without unfolding the operations of the world. *)
Ltac adds_step :=
  cbv beta;
  lazymatch goal with
  | |- adds _ (mbind _ _) => apply adds_bind; [|intros ?]
  | |- adds _ (mret _) => apply adds_ret
  | |- adds _ (for_each _ _) => apply adds_for_each; intros ?
  | |- adds _ (for_fold _ _ _) => apply adds_for_fold; intros ? ?
  | |- adds _ (when _ _) => apply adds_when
  | |- adds _ (get _) => apply adds_get
  | |- adds _ (lift _) => apply adds_lift
  | |- adds _ (randints _ _ _) => apply adds_randints
  | |- adds _ (randint _ _) => apply adds_randint
  | |- adds _ (exists_ _) => apply adds_exists_
  | |- adds _ (getmtime _) => apply adds_getmtime
  | |- adds _ (read_file _) => apply adds_read_file
  | |- adds _ (write_file _ _) => apply adds_write_file
  | |- adds _ (vunit_out _) => apply adds_vunit_out
  | |- adds _ (add_config _) => apply adds_add_config
  | |- adds _ (let '(_, _) := ?p in _) => destruct p
  | |- adds _ (if ?c then _ else _) => destruct c
  end.

Ltac adds_walk := repeat adds_step.

Lemma adds_generate P tf rf W L : adds P (generateAxiFileReaderTestFile tf rf W L).
Proof. unfold generateAxiFileReaderTestFile. adds_walk. Qed.

Lemma adds_missing_or_stale P tf rf : adds P (missing_or_stale tf rf).
Proof. unfold missing_or_stale. adds_walk. Qed.

Lemma succeeds_ret {A} (a : A) : succeeds (mret a : M A).
Proof. intros w. by exists a, w. Qed.

Lemma succeeds_bind {A B} (m : M A) (k : A → M B) :
  succeeds m → (∀ a, succeeds (k a)) → succeeds (m ≫= k).
Proof.
  intros Hm Hk w. destruct (Hm w) as (a & w1 & Hm1). destruct (Hk a w1) as (b & w' & Hk1).
  exists b, w'. unfold mbind, M_bind. by rewrite Hm1.
Qed.

Lemma succeeds_for_each {A} (l : list A) (body : A → M unit) :
  (∀ x, succeeds (body x)) → succeeds (for_each l body).
Proof.
  intros Hbody. induction l as [|x l IH]; simpl.
  - apply succeeds_ret.
  - apply succeeds_bind; [apply Hbody|]. intros _. apply IH.
Qed.

Lemma succeeds_add_config c : succeeds (add_config c).
Proof. intros w. by eexists _, _. Qed.

Lemma succeeds_get {A} (f : world → A) : succeeds (get f).
Proof. intros w. by eexists _, _. Qed.

(** ** The seed in the generics *)

(** The generics built by [dict(..., seed=seed)] or [dict(..., SEED=seed)]
    hold the seed. *)
Ltac seed_in_dict :=
  unfold has_seed; cbn [generics];
  first [left; vm_compute; reflexivity | right; vm_compute; reflexivity].

Ltac adds_seed :=
  repeat first
    [ apply adds_generate
    | apply adds_missing_or_stale
    | adds_step ];
  try seed_in_dict.

Lemma seed_addAsyncFifoTests entity seed : adds (has_seed seed) (addAsyncFifoTests entity seed).
Proof. unfold addAsyncFifoTests. adds_seed. Qed.

Lemma seed_addAxiStreamDelayTests entity seed :
  adds (has_seed seed) (addAxiStreamDelayTests entity seed).
Proof. unfold addAxiStreamDelayTests. adds_seed. Qed.

Lemma seed_addAxiFileCompareTests entity seed :
  adds (has_seed seed) (addAxiFileCompareTests entity seed).
Proof. unfold addAxiFileCompareTests. adds_seed. Qed.

Lemma seed_addAxiFileReaderTests entity seed :
  adds (has_seed seed) (addAxiFileReaderTests entity seed).
Proof. unfold addAxiFileReaderTests. adds_seed. Qed.

Lemma seed_addAxiWidthConverterTests entity seed :
  adds (has_seed seed) (addAxiWidthConverterTests entity seed).
Proof. unfold addAxiWidthConverterTests. adds_seed. Qed.

Lemma seed_addAxiEmbiggenerTests entity seed :
  adds (has_seed seed) (addAxiEmbiggenerTests entity seed).
Proof. unfold addAxiEmbiggenerTests. adds_seed. Qed.

Lemma seed_addAxiArbiterTests entity seed :
  adds (has_seed seed) (addAxiArbiterTests entity seed).
Proof. unfold addAxiArbiterTests. adds_seed. Qed.

(** Every configuration that [addTests] registers carries the seed it was
    given. *)
Lemma seed_addTests seed : adds (has_seed seed) (addTests seed).
Proof.
  unfold addTests.
  repeat lazymatch goal with
         | |- adds _ (mbind _ _) => apply adds_bind; [|intros _]
         end.
  - apply seed_addAsyncFifoTests.
  - apply seed_addAxiStreamDelayTests.
  - apply seed_addAxiFileReaderTests.
  - apply seed_addAxiFileCompareTests.
  - apply seed_addAxiWidthConverterTests.
  - apply seed_addAxiEmbiggenerTests.
  - apply seed_addAxiArbiterTests.
  - adds_seed.
Qed.

Lemma parse_args_eq seed_arg w :
  parse_args seed_arg w
  = Ok (from_option id (drawn 1 (Z.shiftl (-1) 31) (Z.shiftl 1 31) w !!! 0%nat) seed_arg,
        after_draws 1 w).
Proof.
  unfold parse_args. unfold mbind, M_bind, randint.
  change (Z.shiftl 1 31 <? Z.shiftl (-1) 31) with false. cbv iota.
  unfold mret, M_ret, drawn, after_draws.
  cbn [seq fmap list_fmap lookup_total list_lookup_total rand_pos rand_stream files clock
       ROOT FILE_ arbiter_tests set_iter configs].
  rewrite Nat.add_0_r. reflexivity.
Qed.

Lemma main_eq seed_arg : main seed_arg = (parse_args seed_arg ≫= addTests).
Proof. reflexivity. Qed.

(** C7 (amended): a seed given with [--seed] is the seed of the run as it
    is, without a range check; whatever seed the run has, [main] puts it in
    the generics of every configuration it registers, under the name [seed]
    or [SEED]. *)
Theorem seed_in_every_configuration (seed_arg : option Z) (w w' : world) :
  main seed_arg w = Ok (tt, w') →
  ∃ seed w1 cs,
    parse_args seed_arg w = Ok (seed, w1)
    ∧ (∀ s, seed_arg = Some s → seed = s)
    ∧ configs w' = configs w ++ cs
    ∧ Forall (has_seed seed) cs.
Proof.
  intros Hmain. rewrite main_eq in Hmain.
  apply bind_ok in Hmain as (seed & w1 & Hargs & Htests).
  exists seed, w1.
  destruct (seed_addTests seed w1 tt w' Htests) as (cs & Hcs & Hseed).
  exists cs. split; [done|].
  rewrite parse_args_eq in Hargs. injection Hargs as Hs Hw1.
  split; [|split; [|done]].
  - intros s ->. by rewrite <- Hs.
  - by rewrite Hcs, <- Hw1.
Qed.


Lemma seed_in_every_configuration_witness :
  ∃ w', main (Some 42) sample_world = Ok (tt, w')
        ∧ ∃ seed w1 cs,
            parse_args (Some 42) sample_world = Ok (seed, w1)
            ∧ (∀ s, Some 42 = Some s → seed = s)
            ∧ configs w' = configs sample_world ++ cs
            ∧ Forall (has_seed seed) cs.
Proof.
  assert (match main (Some 42) sample_world with Ok _ => True | _ => False end) as Hok
    by (vm_compute; exact I).
  destruct (main (Some 42) sample_world) as [[[] w']|e|] eqn:E; [|destruct Hok..].
  exists w'. split; [reflexivity|].
  exact (seed_in_every_configuration (Some 42) sample_world w' E).
Defined.

(** C7 as the specification words it fails: run with [--seed 2147483648],
    the tool takes that value, which is outside the signed 32-bit range, as
    the seed and puts it in each of the 48 configurations. *)
Lemma given_seed_outside_int32 :
  ∃ w1 w',
    parse_args (Some (2 ^ 31)) sample_world = Ok (2 ^ 31, w1)
    ∧ ¬ int32 (2 ^ 31)
    ∧ main (Some (2 ^ 31)) sample_world = Ok (tt, w')
    ∧ length (configs w') = 48%nat
    ∧ Forall (has_seed (2 ^ 31)) (configs w').
Proof.
  assert (match main (Some (2 ^ 31)) sample_world with
          | Ok (_, w) => length (configs w) = 48%nat
          | _ => False
          end) as Hok by (vm_compute; reflexivity).
  destruct (main (Some (2 ^ 31)) sample_world) as [[[] w']|e|] eqn:E; [|destruct Hok..].
  rewrite main_eq in E. apply bind_ok in E as (seed & w1 & Hargs & Htests).
  pose proof Hargs as Hargs'. rewrite parse_args_eq in Hargs'.
  cbn [from_option id] in Hargs'. injection Hargs' as Hs Hw1. subst seed.
  exists w1, w'.
  split; [exact Hargs|].
  split; [unfold int32; lia|]. split; [reflexivity|]. split; [exact Hok|].
  destruct (seed_addTests (2 ^ 31) _ _ _ Htests) as (cs & Hcs & Hseed).
  rewrite Hcs, <- Hw1. exact Hseed.
Qed.

(** The default seed is drawn from [-2^31 .. 2^31], both ends included. *)
Lemma default_seed_range w seed w1 :
  parse_args None w = Ok (seed, w1) → - 2 ^ 31 ≤ seed ≤ 2 ^ 31.
Proof.
  rewrite parse_args_eq. intros [= <- _]. cbn [from_option id].
  unfold drawn. cbn [seq fmap list_fmap lookup_total list_lookup_total].
  change (Z.shiftl (-1) 31) with (- 2 ^ 31). change (Z.shiftl 1 31) with (2 ^ 31).
  pose proof (Z.mod_pos_bound (Z.of_N (rand_stream w (rand_pos w + 0)))
                (2 ^ 31 - - 2 ^ 31 + 1) ltac:(lia)).
  lia.
Qed.

(** The upper end is reached when the generator gives the last value of the
    range: the default seed is then 2^31. *)
Lemma default_seed_top :
  ∃ w1, parse_args None top_draw_world = Ok (2 ^ 31, w1) ∧ ¬ int32 (2 ^ 31).
Proof.
  eexists. split; [by rewrite parse_args_eq|]. unfold int32. lia.
Qed.

(** ** The width-converter configurations *)

Lemma generic_is_inj c name v v' : generic_is c name v → generic_is c name v' → v = v'.
Proof. unfold generic_is. intros -> [= ->]. done. Qed.

Lemma narrowing_not_wider c : narrowing c → ¬ not_narrowing c.
Proof.
  intros (i & o & Hi & Ho & Hlt) (i' & o' & Hi' & Ho' & Hle).
  pose proof (generic_is_inj _ _ _ _ Hi Hi'). pose proof (generic_is_inj _ _ _ _ Ho Ho'). lia.
Qed.

Lemma narrowing_not_equal_widths c : narrowing c → ¬ equal_widths_32 c.
Proof.
  intros (i & o & Hi & Ho & Hlt) [Hi' Ho'].
  pose proof (generic_is_inj _ _ _ _ Hi Hi'). pose proof (generic_is_inj _ _ _ _ Ho Ho'). lia.
Qed.

(** C9: the width-converter builder registers the baseline [same_widths]
    with [INPUT_DATA_WIDTH = OUTPUT_DATA_WIDTH = 32] first; no configuration
    after it has [output_width >= input_width], so none of them is the
    baseline again: it appears exactly once.  This holds for every order in
    which the two sets of widths are iterated. *)
Theorem width_converter_filter (entity : str) (seed : Z) (w : world) :
  ∃ w' baseline rest,
    addAxiWidthConverterTests entity seed w = Ok (tt, w')
    ∧ configs w' = configs w ++ baseline :: rest
    ∧ cfg_name baseline = lit "same_widths"
    ∧ equal_widths_32 baseline
    ∧ Forall (λ c, ¬ not_narrowing c) rest
    ∧ Forall (λ c, ¬ equal_widths_32 c) rest.
Proof.
  unfold addAxiWidthConverterTests.
  match goal with
  | |- context [mbind (λ _, ?loops) (add_config ?c)] =>
      set (body := loops); set (baseline := c)
  end.
  assert (adds narrowing body) as Hadds.
  { unfold body. apply adds_bind; [apply adds_get|]. intros iter.
    apply adds_for_each. intros i. apply adds_for_each. intros o.
    destruct (Z.leb_spec i o) as [Hle|Hlt]; [apply adds_ret|].
    apply adds_add_config. exists i, o.
    split; [|split; [|lia]]; unfold generic_is; cbn [generics]; vm_compute; reflexivity. }
  assert (succeeds body) as Hsucc.
  { unfold body. apply succeeds_bind; [apply succeeds_get|]. intros iter.
    apply succeeds_for_each. intros i. apply succeeds_for_each. intros o.
    destruct (i <=? o); [apply succeeds_ret|apply succeeds_add_config]. }
  clearbody body.
  unfold mbind, M_bind, add_config.
  match goal with |- context [body ?w1] => destruct (Hsucc w1) as ([] & w' & Hrun) end.
  destruct (Hadds _ _ _ Hrun) as (rest & Hcfg & Hrest). cbn [configs] in Hcfg.
  exists w', baseline, rest.
  split; [done|]. split; [by rewrite Hcfg, <- app_assoc|]. split; [done|].
  split; [split; unfold generic_is; cbn [generics]; vm_compute; reflexivity|].
  split; (eapply Forall_impl; [exact Hrest|]).
  - apply narrowing_not_wider.
  - apply narrowing_not_equal_widths.
Qed.

(** With the sets iterated in increasing order, the baseline is followed by
    the 14 narrowing pairs. *)
Example width_converter_sample :
  match addAxiWidthConverterTests (lit "axi_stream_width_converter_tb") 7 sample_world with
  | Ok (_, w') =>
      cfg_name <$> configs w'
      = lit <$> ["same_widths";
                 "input_data_width=8,output_data_width=1";
                 "input_data_width=8,output_data_width=3";
                 "input_data_width=24,output_data_width=1";
                 "input_data_width=24,output_data_width=3";
                 "input_data_width=24,output_data_width=8";
                 "input_data_width=32,output_data_width=1";
                 "input_data_width=32,output_data_width=3";
                 "input_data_width=32,output_data_width=8";
                 "input_data_width=32,output_data_width=24";
                 "input_data_width=128,output_data_width=1";
                 "input_data_width=128,output_data_width=3";
                 "input_data_width=128,output_data_width=8";
                 "input_data_width=128,output_data_width=24";
                 "input_data_width=128,output_data_width=32"]%string
  | _ => False
  end.
Proof. vm_compute. reflexivity. Qed.

(** The bytes are not an argument of [generateAxiFileReaderTestFile]: called
    with the same arguments in worlds whose generators differ, it writes
    other bytes. *)
Example same_arguments_other_bytes :
  match generateAxiFileReaderTestFile (lit "in.bin") (lit "ref.bin") 16 3 sample_world,
        generateAxiFileReaderTestFile (lit "in.bin") (lit "ref.bin") 16 3 top_draw_world with
  | Ok (_, w1'), Ok (_, w2') =>
      content_of w1' (lit "ref.bin") = Some (lit "300b,0,0
0055,1,1
")
      ∧ content_of w2' (lit "ref.bin") = Some (lit "0000,0,0
0000,1,1
")
  | _, _ => False
  end.
Proof. vm_compute. split; reflexivity. Qed.

(** * Further properties of the code *)

(** ** Binary digits *)

Lemma is_bit_hexdigit_mod2 n : is_bit (hexdigit (n mod 2)).
Proof.
  pose proof (Z.mod_pos_bound n 2 ltac:(lia)) as H.
  assert (n mod 2 = 0 ∨ n mod 2 = 1) as [-> | ->] by lia; [by left|by right].
Qed.

Lemma digits_aux_bits fuel n acc :
  Forall is_bit acc → Forall is_bit (digits_aux 2 fuel n acc).
Proof.
  revert n acc. induction fuel as [|fuel IH]; intros n acc Hacc; [done|].
  simpl. destruct (n <=? 0); [done|].
  apply IH. constructor; [apply is_bit_hexdigit_mod2|done].
Qed.

Lemma digits_bits v : Forall is_bit (digits 2 v).
Proof.
  unfold digits. destruct (Z.abs v =? 0).
  - constructor; [by left|constructor].
  - apply digits_aux_bits. constructor.
Qed.

Lemma bits_value_app s1 s2 :
  bits_value (s1 ++ s2) = bits_value s1 * 2 ^ Z.of_nat (length s2) + bits_value s2.
Proof.
  induction s2 as [|c s2 IH] using rev_ind.
  - rewrite app_nil_r. change (bits_value []) with 0.
    change (Z.of_nat (length (@nil ascii))) with 0. lia.
  - rewrite app_assoc. unfold bits_value in *. rewrite !foldl_snoc, IH.
    rewrite length_app. simpl length.
    rewrite Nat2Z.inj_add, Z.pow_add_r by lia. change (2 ^ Z.of_nat 1) with 2. lia.
Qed.

Lemma bits_value_cons_bit c s :
  bits_value (c :: s)
  = (if decide (c = "1"%char) then 1 else 0) * 2 ^ Z.of_nat (length s) + bits_value s.
Proof.
  change (c :: s) with ([c] ++ s). rewrite bits_value_app.
  unfold bits_value at 1. simpl foldl. done.
Qed.

Lemma bits_value_zeros k s : bits_value (zeros k ++ s) = bits_value s.
Proof.
  induction k as [|k IH]; [done|].
  change (zeros (S k) ++ s) with ("0"%char :: (zeros k ++ s)).
  rewrite bits_value_cons_bit, IH. rewrite decide_False by done. lia.
Qed.

Lemma bits_value_digits_aux fuel n acc :
  0 ≤ n < 2 ^ Z.of_nat fuel →
  bits_value (digits_aux 2 fuel n acc) = n * 2 ^ Z.of_nat (length acc) + bits_value acc.
Proof.
  revert n acc. induction fuel as [|fuel IH]; intros n acc Hn.
  - simpl in *. replace n with 0 by lia. lia.
  - simpl digits_aux. destruct (Z.leb_spec n 0) as [H0|H0].
    + replace n with 0 by lia. lia.
    + rewrite IH.
      * rewrite bits_value_cons_bit. simpl length.
        rewrite Nat2Z.inj_succ, Z.pow_succ_r by lia.
        pose proof (Z.div_mod n 2 ltac:(lia)) as Hdiv.
        pose proof (Z.mod_pos_bound n 2 ltac:(lia)) as Hmod.
        assert (n mod 2 = 0 ∨ n mod 2 = 1) as [E|E] by lia; rewrite E in *.
        -- rewrite decide_False by done. nia.
        -- rewrite decide_True by done. nia.
      * split; [apply Z.div_pos; lia|].
        apply Z.div_lt_upper_bound; [lia|].
        rewrite Nat2Z.inj_succ, Z.pow_succ_r in Hn by lia. lia.
Qed.

(** The binary digits of a number have the number as value. *)
Lemma bits_value_digits v : 0 ≤ v → bits_value (digits 2 v) = v.
Proof.
  intros Hv. unfold digits. rewrite Z.abs_eq by done.
  destruct (Z.eqb_spec v 0) as [->|Hnz]; [done|].
  rewrite bits_value_digits_aux.
  - change (bits_value []) with 0. change (Z.of_nat (length (@nil ascii))) with 0. lia.
  - split; [done|].
    rewrite Nat2Z.inj_succ, Z2Nat.id by apply Z.log2_nonneg.
    apply Z.log2_spec. lia.
Qed.

Lemma digits_aux_length_le fuel n acc (k : nat) :
  0 ≤ n < 2 ^ Z.of_nat k → (length (digits_aux 2 fuel n acc) ≤ length acc + k)%nat.
Proof.
  revert n acc k. induction fuel as [|fuel IH]; intros n acc k Hn; [simpl; lia|].
  simpl. destruct (Z.leb_spec n 0) as [H0|H0]; [lia|].
  destruct k as [|k]; [simpl in Hn; lia|].
  etrans; [apply (IH _ _ k)|simpl; lia].
  split; [apply Z.div_pos; lia|].
  apply Z.div_lt_upper_bound; [lia|].
  rewrite Nat2Z.inj_succ, Z.pow_succ_r in Hn by lia. lia.
Qed.

(** A number below [2 ^ k] has at most [k] binary digits ([k ≥ 1]). *)
Lemma digits_length_le v (k : nat) :
  (0 < k)%nat → 0 ≤ v < 2 ^ Z.of_nat k → (length (digits 2 v) ≤ k)%nat.
Proof.
  intros Hk Hv. unfold digits. rewrite Z.abs_eq by lia.
  destruct (Z.eqb_spec v 0); [simpl; lia|].
  etrans; [by apply (digits_aux_length_le _ _ _ k)|simpl; lia].
Qed.

(** Conversely the number of digits bounds the number. *)
Lemma digits_length_bound v : 0 ≤ v → v < 2 ^ Z.of_nat (length (digits 2 v)).
Proof.
  intros Hv. pose proof (bits_value_bound (digits 2 v)) as H.
  rewrite bits_value_digits in H by done. lia.
Qed.

Lemma py_bin_digits v : 0 ≤ v → slice (py_bin v) (Some 2) None = digits 2 v.
Proof.
  intros Hv. rewrite slice_suffix_Z by lia. unfold py_bin, sign_of.
  assert ((v <? 0) = false) as -> by (apply Z.ltb_ge; lia). done.
Qed.

(** Bit [i] of the value of a bit string is its character [i] from the
    right. *)
Lemma testbit_bits_value s (i : nat) :
  Forall is_bit s →
  Z.testbit (bits_value s) (Z.of_nat i)
  = bool_decide (reverse s !! i = Some "1"%char).
Proof.
  intros Hs. revert i. induction s as [|c s IH] using rev_ind; intros i.
  - simpl. by rewrite Z.testbit_0_l.
  - apply Forall_app in Hs as [Hs Hc]. apply Forall_singleton in Hc.
    rewrite reverse_snoc. unfold bits_value in *. rewrite foldl_snoc.
    replace (if decide (c = "1"%char) then 1 else 0)
      with (Z.b2z (bool_decide (c = "1"%char))) by (by case_bool_decide; case_decide).
    destruct i as [|i].
    + rewrite Z.testbit_0_r. simpl. apply bool_decide_ext. naive_solver.
    + rewrite Nat2Z.inj_succ, Z.testbit_succ_r by lia. simpl. by apply IH.
Qed.

(** ** [swapBits] *)

Lemma padded_bits_spec value (width : nat) :
  (0 < width)%nat → 0 ≤ value < 2 ^ Z.of_nat width →
  length (padded_bits value width) = width
  ∧ Forall is_bit (padded_bits value width)
  ∧ bits_value (padded_bits value width) = value.
Proof.
  intros Hw Hv. unfold padded_bits.
  pose proof (digits_length_le value width Hw Hv) as Hlen.
  split; [|split].
  - rewrite length_app. unfold zeros. rewrite length_replicate. lia.
  - apply Forall_app. split; [|apply digits_bits].
    apply Forall_replicate. by left.
  - rewrite bits_value_zeros. apply bits_value_digits. lia.
Qed.

Lemma swapBits_eq value width :
  0 < width → 0 ≤ value < 2 ^ width →
  swapBits value width = Ok (bits_value (reverse (padded_bits value (Z.to_nat width)))).
Proof.
  intros Hw Hv. unfold swapBits. rewrite py_bin_digits by lia.
  pose proof (digits_length_le value (Z.to_nat width) ltac:(lia)) as Hlen.
  rewrite Z2Nat.id in Hlen by lia. specialize (Hlen Hv).
  replace (Z.of_nat (length (digits 2 value)) <=? width) with true
    by (symmetry; apply Z.leb_le; lia).
  cbn [negb].
  replace (Z.to_nat (width - Z.of_nat (length (digits 2 value))))
    with (Z.to_nat width - length (digits 2 value))%nat by lia.
  fold (padded_bits value (Z.to_nat width)).
  destruct (padded_bits_spec value (Z.to_nat width)) as (Hl & Hb & _);
    [lia|rewrite Z2Nat.id; lia|].
  apply int2_bits.
  - intros E. apply (f_equal length) in E. rewrite length_reverse, Hl in E. simpl in E. lia.
  - by apply Forall_reverse.
Qed.

Lemma testbit_above a w n : 0 ≤ a < 2 ^ w → 0 ≤ w ≤ n → Z.testbit a n = false.
Proof.
  intros Ha Hn. rewrite <- (Z.mod_small a (2 ^ w)) by done.
  apply Z.mod_pow2_bits_high. lia.
Qed.

(** Reading a string of bits backwards mirrors the bits of its value. *)
Lemma testbit_reverse_bits (P : str) (i : Z) :
  Forall is_bit P → 0 ≤ i < Z.of_nat (length P) →
  Z.testbit (bits_value (reverse P)) i
  = Z.testbit (bits_value P) (Z.of_nat (length P) - 1 - i).
Proof.
  intros Hb Hi.
  rewrite <- (Z2Nat.id i) at 1 by lia.
  rewrite testbit_bits_value by by apply Forall_reverse.
  rewrite reverse_involutive.
  replace (Z.of_nat (length P) - 1 - i)
    with (Z.of_nat (Z.to_nat (Z.of_nat (length P) - 1 - i))) by lia.
  rewrite testbit_bits_value by done.
  rewrite reverse_lookup by lia.
  apply bool_decide_ext.
  replace (length P - S (Z.to_nat (Z.of_nat (length P) - 1 - i)))%nat
    with (Z.to_nat i) by lia. done.
Qed.

(** The result of [swapBits], with what is known of the padded digits. *)
Lemma swapBits_padded value width :
  0 < width → 0 ≤ value < 2 ^ width →
  swapBits value width = Ok (bits_value (reverse (padded_bits value (Z.to_nat width))))
  ∧ Z.of_nat (length (padded_bits value (Z.to_nat width))) = width
  ∧ Forall is_bit (padded_bits value (Z.to_nat width))
  ∧ bits_value (padded_bits value (Z.to_nat width)) = value
  ∧ 0 ≤ bits_value (reverse (padded_bits value (Z.to_nat width))) < 2 ^ width.
Proof.
  intros Hw Hv. split; [by apply swapBits_eq|].
  destruct (padded_bits_spec value (Z.to_nat width)) as (Hl & Hb & Hval);
    [lia|rewrite Z2Nat.id; lia|].
  split; [lia|]. split; [done|]. split; [done|].
  pose proof (bits_value_bound (reverse (padded_bits value (Z.to_nat width)))) as Hr.
  rewrite length_reverse, Hl, Z2Nat.id in Hr by lia. done.
Qed.

(** [swapBits] exchanges the bit [i] and the bit [width - 1 - i]: for
    [0 ≤ value < 2 ^ width] it returns the number below [2 ^ width] whose
    bits are those of [value] in reverse order. *)
Theorem swapBits_reverses_bits (value width : Z) :
  0 < width → 0 ≤ value < 2 ^ width →
  ∃ r, swapBits value width = Ok r
       ∧ 0 ≤ r < 2 ^ width
       ∧ ∀ i, 0 ≤ i < width → Z.testbit r i = Z.testbit value (width - 1 - i).
Proof.
  intros Hw Hv.
  destruct (swapBits_padded value width Hw Hv) as (Hrun & Hl & Hb & Hval & Hr).
  eexists. split; [exact Hrun|]. split; [exact Hr|].
  intros i Hi. rewrite testbit_reverse_bits by (done || lia).
  by rewrite Hl, Hval.
Qed.

Lemma swapBits_reverses_bits_witness :
  ∃ r, swapBits 6 4 = Ok r
       ∧ 0 ≤ r < 2 ^ 4
       ∧ ∀ i, 0 ≤ i < 4 → Z.testbit r i = Z.testbit 6 (4 - 1 - i).
Proof. apply (swapBits_reverses_bits 6 4); lia. Defined.

(** [swapBits] is its own inverse on [0 .. 2 ^ width - 1]. *)
Theorem swapBits_involutive (value width : Z) :
  0 < width → 0 ≤ value < 2 ^ width →
  swapBits value width ≫= (λ r, swapBits r width) = Ok value.
Proof.
  intros Hw Hv.
  destruct (swapBits_padded value width Hw Hv) as (-> & Hl & Hb & Hval & Hr).
  cbn [mbind result_bind].
  set (r := bits_value (reverse (padded_bits value (Z.to_nat width)))) in *.
  destruct (swapBits_padded r width Hw Hr) as (-> & Hl' & Hb' & Hval' & Hr').
  f_equal. apply Z.bits_inj'. intros n Hn.
  destruct (Z.lt_ge_cases n width) as [Hlt|Hge].
  - rewrite testbit_reverse_bits by (done || lia). rewrite Hl', Hval'.
    unfold r. rewrite testbit_reverse_bits by (done || lia). rewrite Hl, Hval.
    f_equal. lia.
  - rewrite (testbit_above _ width n Hr'), (testbit_above value width n) by lia. done.
Qed.

Lemma swapBits_involutive_witness :
  swapBits 6 4 ≫= (λ r, swapBits r 4) = Ok 6.
Proof. apply (swapBits_involutive 6 4); lia. Defined.

Lemma int2_acc_ok_bits acc s v : int2_acc acc s = Ok v → Forall is_bit s.
Proof.
  revert acc. induction s as [|c s IH]; intros acc Hs; [constructor|].
  simpl in Hs. repeat case_decide; [| |done].
  - constructor; [by left|by eapply IH].
  - constructor; [by right|by eapply IH].
Qed.

Lemma int2_ok_bits s v : int2 s = Ok v → Forall is_bit s.
Proof. destruct s; [done|]. apply int2_acc_ok_bits. Qed.

(** [swapBits] returns a number exactly when [width ≥ 1] and
    [0 ≤ value < 2 ^ width]; a non-negative value that does not fit fails
    the assertion "input is too big". *)
Theorem swapBits_returns_iff (value width : Z) :
  ((∃ r, swapBits value width = Ok r) ↔ 0 < width ∧ 0 ≤ value < 2 ^ width)
  ∧ (0 ≤ value → ¬ (0 < width ∧ value < 2 ^ width) →
     swapBits value width = Raise AssertionError).
Proof.
  assert (0 ≤ value → ¬ (0 < width ∧ value < 2 ^ width) →
          swapBits value width = Raise AssertionError) as Hbig.
  { intros Hv Hout. unfold swapBits. rewrite py_bin_digits by done.
    destruct (Z.leb_spec (Z.of_nat (length (digits 2 value))) width) as [Hle|Hgt]; [|done].
    exfalso. apply Hout.
    pose proof (digits_nonempty 2 value) as Hne.
    assert (0 < length (digits 2 value))%nat by (destruct (digits 2 value); [done|simpl; lia]).
    split; [lia|].
    eapply Z.lt_le_trans; [by apply digits_length_bound|].
    apply Z.pow_le_mono_r; lia. }
  split; [|exact Hbig]. split.
  - intros [r Hr]. destruct (Z.lt_ge_cases value 0) as [Hneg|Hpos].
    + exfalso. unfold swapBits in Hr.
      destruct (negb _); [done|]. apply int2_ok_bits in Hr.
      rewrite Forall_reverse, Forall_app in Hr. destruct Hr as [_ Hr].
      rewrite slice_suffix_Z in Hr by lia. unfold py_bin, sign_of in Hr.
      assert ((value <? 0) = true) as E by (apply Z.ltb_lt; lia). rewrite E in Hr.
      simpl in Hr. inversion Hr as [|?? Hb _]. by destruct Hb.
    + destruct (decide (0 < width ∧ value < 2 ^ width)) as [[??]|Hout]; [lia|].
      rewrite Hbig in Hr by done. done.
  - intros (Hw & Hv). eexists. by apply swapBits_eq.
Qed.

(** ** Split and join, both ways *)

Lemma split_on_nonempty c s : split_on c s ≠ [].
Proof.
  destruct s as [|x s]; [done|]. simpl.
  destruct (decide (x = c)); [done|]. by destruct (split_on c s).
Qed.

Lemma join_split c s : join [c] (split_on c s) = s.
Proof.
  induction s as [|x s IH]; [done|]. simpl.
  pose proof (split_on_nonempty c s) as Hne.
  destruct (decide (x = c)) as [->|Hx].
  - destruct (split_on c s) as [|w ws] eqn:E; [done|].
    change (join [c] ([] :: w :: ws)) with (c :: join [c] (w :: ws)). by rewrite IH.
  - destruct (split_on c s) as [|w ws] eqn:E; [done|].
    destruct ws as [|w' ws].
    + simpl in *. by rewrite IH.
    + change (join [c] ((x :: w) :: w' :: ws)) with (x :: join [c] (w :: w' :: ws)).
      by rewrite IH.
Qed.

Lemma split_on_free c s : Forall (λ p, c ∉ p) (split_on c s).
Proof.
  induction s as [|x s IH]; simpl.
  - constructor; [apply not_elem_of_nil|constructor].
  - destruct (decide (x = c)) as [->|Hx].
    + constructor; [apply not_elem_of_nil|done].
    + destruct (split_on c s) as [|w ws] eqn:E; [by apply split_on_nonempty in E|].
      inversion IH as [|?? Hw Hws]; subst.
      constructor; [|done]. by apply not_elem_of_cons.
Qed.

Lemma length_split_on s : length (split_on NL s) = S (newlines s).
Proof.
  unfold newlines. induction s as [|x s IH]; [done|]. simpl.
  destruct (decide (x = NL)) as [->|Hx].
  - rewrite filter_cons_True by done. simpl. by rewrite IH.
  - rewrite filter_cons_False by done.
    destruct (split_on NL s) as [|w ws]; [done|]. done.
Qed.

(** A text joined from newline-free entries has one newline less than
    entries. *)
Lemma newlines_join parts :
  parts ≠ [] → Forall (λ p, NL ∉ p) parts → S (newlines (join [NL] parts)) = length parts.
Proof.
  intros Hne Hfree. rewrite <- length_split_on. by rewrite split_join.
Qed.

(** ** The mismatch derivations on files *)

Lemma index_out_of_range_Z {A} (l : list A) (k : Z) :
  0 ≤ k → (length l ≤ Z.to_nat k)%nat → index l k = Raise IndexError.
Proof. intros. rewrite <- (Z2Nat.id k) by done. by apply index_out_of_range. Qed.

Lemma single_mismatch_short (ref_data : list str) :
  (length ref_data < 9)%nat → single_mismatch ref_data = Raise IndexError.
Proof.
  intros Hlen. unfold single_mismatch.
  rewrite (index_out_of_range_Z ref_data 8) by lia. done.
Qed.

Lemma double_mismatch_short (ref_data : list str) :
  (length ref_data < 18)%nat → double_mismatch ref_data = Raise IndexError.
Proof.
  intros Hlen. unfold double_mismatch.
  destruct (decide (length ref_data < 9)%nat).
  - rewrite (index_out_of_range_Z ref_data 8) by lia. done.
  - destruct (lookup_lt_is_Some_2 ref_data 8 ltac:(lia)) as [l8 H8].
    rewrite (index_lookup_Z ref_data 8 l8) by done. cbn [mbind result_bind].
    rewrite (index_out_of_range_Z ref_data 17) by lia. done.
Qed.

(** The file with one data error: [IndexError] when the reference file has
    fewer than 8 newlines; otherwise a file with as many newlines as the
    reference file. *)
Theorem single_mismatch_file_newlines (reference : str) :
  ((newlines reference < 8)%nat → single_mismatch_file reference = Raise IndexError)
  ∧ ((8 ≤ newlines reference)%nat →
     ∃ out, single_mismatch_file reference = Ok out ∧ newlines out = newlines reference).
Proof.
  pose proof (length_split_on reference) as Hlen.
  pose proof (split_on_free NL reference) as Hfree.
  unfold single_mismatch_file. split; intros Hn.
  - rewrite single_mismatch_short by lia. done.
  - destruct (lookup_lt_is_Some_2 (split_on NL reference) 8 ltac:(lia)) as [l8 H8].
    rewrite (single_mismatch_eq _ l8 H8). cbn [mbind result_bind mret result_ret].
    eexists. split; [done|].
    match goal with |- ?a = ?b => enough (S a = S b) by lia end.
    rewrite newlines_join.
    + rewrite length_app, length_take. simpl length. rewrite length_drop. lia.
    + by destruct (take 7 (split_on NL reference)).
    + rewrite Forall_app. split; [by apply Forall_take|].
      assert (NL ∉ l8) by (rewrite Forall_forall in Hfree;
                            by eapply Hfree, list_elem_of_lookup_2).
      repeat constructor; [done..|]. by apply Forall_drop.
Qed.

(** The file with two data errors: [IndexError] when the reference file has
    fewer than 17 newlines; otherwise a file with as many newlines as the
    reference file. *)
Theorem double_mismatch_file_newlines (reference : str) :
  ((newlines reference < 17)%nat → double_mismatch_file reference = Raise IndexError)
  ∧ ((17 ≤ newlines reference)%nat →
     ∃ out, double_mismatch_file reference = Ok out ∧ newlines out = newlines reference).
Proof.
  pose proof (length_split_on reference) as Hlen.
  pose proof (split_on_free NL reference) as Hfree.
  unfold double_mismatch_file. split; intros Hn.
  - rewrite double_mismatch_short by lia. done.
  - destruct (lookup_lt_is_Some_2 (split_on NL reference) 8 ltac:(lia)) as [l8 H8].
    destruct (lookup_lt_is_Some_2 (split_on NL reference) 17 ltac:(lia)) as [l17 H17].
    rewrite (double_mismatch_eq _ l8 l17 H8 H17). cbn [mbind result_bind mret result_ret].
    eexists. split; [done|].
    match goal with |- ?a = ?b => enough (S a = S b) by lia end.
    assert (NL ∉ l8) by (rewrite Forall_forall in Hfree;
                          by eapply Hfree, list_elem_of_lookup_2).
    assert (NL ∉ l17) by (rewrite Forall_forall in Hfree;
                           by eapply Hfree, list_elem_of_lookup_2).
    rewrite newlines_join.
    + rewrite !length_app, !length_take. simpl length. rewrite !length_drop. lia.
    + by destruct (take 7 (split_on NL reference)).
    + rewrite !Forall_app. split; [by apply Forall_take|].
      split; [by repeat constructor|].
      split; [by apply Forall_take, Forall_drop|].
      repeat constructor; [done..|]. by apply Forall_drop.
Qed.

(** ** The last-flag derivation *)

Lemma hexval_not_space c d : hexval c = Some d → is_space c = false.
Proof.
  unfold hexval, is_space. intros H.
  destruct (Z.leb_spec 48 (Z.of_nat (nat_of_ascii c))) as [H48|H48];
    destruct (Z.leb_spec (Z.of_nat (nat_of_ascii c)) 57);
    destruct (Z.leb_spec 97 (Z.of_nat (nat_of_ascii c)));
    destruct (Z.leb_spec (Z.of_nat (nat_of_ascii c)) 102);
    simpl in H; try done;
    (apply orb_false_iff; split;
     [apply andb_false_iff; right; apply Nat.leb_gt; lia|apply Nat.eqb_neq; lia]).
Qed.

Lemma lstrip_head c s : is_space c = false → lstrip (c :: s) = c :: s.
Proof. intros Hc. simpl. by rewrite Hc. Qed.

(** [strip] takes the final newline off a text that starts and ends with
    characters that are not blank. *)
Lemma strip_final_newline c s c' :
  is_space c = false → is_space c' = false →
  strip ((c :: s) ++ [c'] ++ [NL]) = (c :: s) ++ [c'].
Proof.
  intros Hc Hc'. unfold strip.
  change ((c :: s) ++ [c'] ++ [NL]) with (c :: (s ++ [c'] ++ [NL])).
  rewrite lstrip_head by done.
  change (c :: (s ++ [c'] ++ [NL])) with ((c :: s) ++ [c'] ++ [NL]).
  rewrite app_assoc, !rev_unit.
  change (lstrip (NL :: c' :: rev (c :: s))) with (lstrip (c' :: rev (c :: s))).
  rewrite lstrip_head by done.
  change (rev (c' :: rev (c :: s))) with (rev (rev (c :: s)) ++ [c']).
  by rewrite rev_involutive.
Qed.

(** A line that parses is [word,keep,flag]. *)
Lemma parse_record_shape l r :
  parse_record l = Some r →
  ∃ w k, l = w ++ COMMA :: k ++ COMMA :: flag (last r)
         ∧ parse_hex w = Some (word r) ∧ (COMMA ∉ w) ∧ (COMMA ∉ k).
Proof.
  unfold parse_record. intros Hp.
  pose proof (join_split COMMA l) as Hjoin.
  pose proof (split_on_free COMMA l) as Hfree.
  destruct (split_on COMMA l) as [|w [|k [|f [|??]]]]; try done.
  destruct (parse_hex w) as [wv|] eqn:Hw; [|done]. cbn [mbind option_bind] in Hp.
  destruct (match k with [] => Some None | _ => Some <$> parse_hex k end) as [kv|];
    [|done].
  cbn [mbind option_bind] in Hp.
  destruct (parse_flag f) as [b|] eqn:Hf; [|done]. cbn in Hp.
  injection Hp as <-. cbn [word last].
  exists w, k.
  apply Forall_cons in Hfree as [Hcw Hfree]. apply Forall_cons in Hfree as [Hck _].
  split; [|done]. rewrite <- Hjoin.
  assert (f = flag b) as ->; [|done].
  unfold parse_flag in Hf. repeat case_decide; simplify_eq; done.
Qed.

Lemma parse_hex_head s v : parse_hex s = Some v → ∃ c s', s = c :: s' ∧ is_space c = false.
Proof.
  intros Hs. destruct s as [|c s']; [done|]. exists c, s'. split; [done|].
  apply parse_hex_hexstr in Hs. inversion Hs as [|?? [d Hd] _]; subst.
  by eapply hexval_not_space.
Qed.

(** A line that parses starts and ends with a character that is not blank,
    and holds no newline. *)
Lemma parse_record_ends l r :
  parse_record l = Some r →
  ∃ c s c', l = (c :: s) ++ [c'] ∧ is_space c = false ∧ is_space c' = false.
Proof.
  intros Hp. destruct (parse_record_shape l r Hp) as (w & k & -> & Hw & _ & _).
  destruct (parse_hex_head w _ Hw) as (c & w' & -> & Hc).
  exists c. destruct (last r).
  - exists (w' ++ COMMA :: k ++ [COMMA]), "1"%char.
    split; [|done]. simpl. f_equal. rewrite <- app_assoc. simpl. f_equal. f_equal.
    by rewrite <- app_assoc.
  - exists (w' ++ COMMA :: k ++ [COMMA]), "0"%char.
    split; [|done]. simpl. f_equal. rewrite <- app_assoc. simpl. f_equal. f_equal.
    by rewrite <- app_assoc.
Qed.

Lemma strip_newline_after X c s X' c' :
  X = c :: s → X = X' ++ [c'] → is_space c = false → is_space c' = false →
  strip (X ++ [NL]) = X.
Proof.
  intros HX HX' Hc Hc'. unfold strip.
  rewrite HX at 1. change ((c :: s) ++ [NL]) with (c :: (s ++ [NL])).
  rewrite lstrip_head by done.
  change (c :: (s ++ [NL])) with ((c :: s) ++ [NL]). rewrite <- HX.
  rewrite rev_unit. change (lstrip (NL :: rev X)) with (lstrip (rev X)).
  rewrite HX' at 1. rewrite rev_unit, lstrip_head by done.
  rewrite <- rev_unit, <- HX'. apply rev_involutive.
Qed.

Lemma join_head (sep : str) l ls c s : l = c :: s → ∃ s', join sep (l :: ls) = c :: s'.
Proof. intros ->. destruct ls; simpl; eauto. Qed.

Lemma join_last (sep : str) ls l x c : l = x ++ [c] → ∃ X, join sep (ls ++ [l]) = X ++ [c].
Proof.
  intros ->. induction ls as [|l' [|l'' ls] IH].
  - by exists x.
  - exists (l' ++ sep ++ x). simpl. by rewrite <- !app_assoc.
  - destruct IH as [X HX]. exists (l' ++ sep ++ X).
    change (join sep ((l' :: l'' :: ls) ++ [x ++ [c]]))
      with (l' ++ sep ++ join sep ((l'' :: ls) ++ [x ++ [c]])).
    rewrite HX. by rewrite <- !app_assoc.
Qed.

Lemma index_last {A} (l : list A) x : index (l ++ [x]) (-1) = Ok x.
Proof.
  unfold index. change (-1 <? 0) with true. cbv iota.
  rewrite length_app. simpl length.
  assert ((Z.of_nat (length l + 1) + -1 <? 0) = false) as -> by (apply Z.ltb_ge; lia).
  replace (Z.to_nat (Z.of_nat (length l + 1) + -1)) with (length l) by lia.
  by rewrite list_lookup_middle.
Qed.

Lemma slice_but_last {A} (l : list A) x : slice (l ++ [x]) None (Some (-1)) = l.
Proof.
  unfold slice. cbn [from_option]. unfold slice_bound. change (-1 <? 0) with true.
  cbv iota. rewrite length_app. simpl length. rewrite drop_0.
  replace (Z.to_nat (Z.max 0 (Z.of_nat (length l + 1) + -1)) - 0)%nat with (length l) by lia.
  by rewrite take_app_length.
Qed.

Lemma clear_last_snoc rs r :
  clear_last (rs ++ [r]) = rs ++ [Transfer (word r) (Some 0) false].
Proof. unfold clear_last. by rewrite reverse_snoc, reverse_involutive. Qed.

(** What [last_flag_error] does to a log whose last line is
    [word,keep,flag]. *)
Lemma last_flag_error_lines init w k f :
  COMMA ∉ w →
  last_flag_error (init ++ [w ++ COMMA :: k ++ COMMA :: flag f])
  = Ok (init ++ [record_line w (lit "0") false]).
Proof.
  intros Hw. unfold last_flag_error.
  rewrite index_last. cbn [mbind result_bind].
  rewrite split_on_app by done.
  change (index (w :: ?l) 0) with (Ok (A:=str) w). cbn [mbind result_bind].
  by rewrite slice_but_last.
Qed.

(** The last-flag error file of a well-formed reference log: the derivation
    succeeds, its output has one record per record of the log, the same
    records but for the final one, which keeps its word and has keep mask 0
    and no last flag; the output does not end with a newline. *)
Theorem last_flag_error_clears_last (text : str) (rs : list TransferRecord) :
  parse_log text = Some rs → rs ≠ [] →
  ∃ out, last_flag_error_file text = Ok out
         ∧ mapM parse_record (split_on NL out) = Some (clear_last rs)
         ∧ S (newlines out) = newlines text.
Proof.
  intros Hlog Hne. unfold parse_log in Hlog.
  pose proof (join_split NL text) as Htext.
  pose proof (split_on_free NL text) as Hfree.
  pose proof (length_split_on text) as Hcount.
  destruct (reverse (split_on NL text)) as [|[|??] rlines] eqn:Hrev; try done.
  apply (f_equal reverse) in Hrev. rewrite reverse_involutive, reverse_cons in Hrev.
  set (lines_ := reverse rlines) in *. rewrite Hrev in *.
  apply mapM_Some_1 in Hlog.
  apply Forall_app in Hfree as [Hfree _].
  (* the last line and the last record *)
  destruct rs as [|r0 rs0] using rev_ind; [done|]. clear IHrs0.
  apply Forall2_app_inv_r in Hlog as (init & last_l & Hinit & Hlast & Hlines).
  apply Forall2_cons_inv_r in Hlast as (ll & nil_ & Hll & Hnil & ->).
  apply Forall2_nil_inv_r in Hnil as ->.
  assert (lines_ ≠ []) as Hlne by (rewrite Hlines; by destruct init).
  rewrite join_snoc_empty in Htext by done.
  (* the ends of the text *)
  destruct (parse_record_shape ll r0 Hll) as (w & k & Hshape & Hw & Hcw & Hck).
  destruct (parse_record_ends ll r0 Hll) as (c' & s' & e' & Hends & _ & He').
  assert (∃ c s, join [NL] lines_ = c :: s ∧ is_space c = false) as (c & s & Hhead & Hc).
  { destruct lines_ as [|l1 ls] eqn:El; [done|].
    assert (∃ r1, parse_record l1 = Some r1) as [r1 Hr1].
    { destruct init as [|i0 init].
      - simpl in Hlines. injection Hlines as -> _. eauto.
      - injection Hlines as -> _. apply Forall2_cons_inv_l in Hinit as (r1 & ? & ? & _). eauto. }
    destruct (parse_record_ends l1 r1 Hr1) as (c & s & e & -> & Hc & _).
    destruct (join_head [NL] ((c :: s) ++ [e]) ls c (s ++ [e]) eq_refl) as [s'' Hj].
    eauto. }
  destruct (join_last [NL] init ll (c' :: s') e' Hends) as [X' HX'].
  rewrite <- Hlines in HX'.
  assert (strip text = join [NL] lines_) as Hstrip.
  { rewrite <- Htext. by eapply strip_newline_after. }
  unfold last_flag_error_file. rewrite Hstrip, split_join by done.
  rewrite Hlines, Hshape, last_flag_error_lines by done.
  cbn [mbind result_bind]. eexists. split; [done|].
  assert (Forall (λ l, NL ∉ l) (init ++ [record_line w (lit "0") false])) as Hfree'.
  { rewrite Hlines in Hfree. apply Forall_app in Hfree as [Hi _].
    apply Forall_app. split; [done|]. constructor; [|constructor].
    apply record_line_no_newline; [by eapply parse_hex_hexstr|].
    by eapply (parse_hex_hexstr _ 0). }
  rewrite split_join by (done || by destruct init).
  split.
  - rewrite clear_last_snoc. apply mapM_Some_2, Forall2_app; [done|].
    constructor; [|constructor]. by apply parse_record_line.
  - rewrite newlines_join by (done || by destruct init).
    rewrite length_app in Hcount. simpl in Hcount.
    rewrite Hlines in Hcount. rewrite !length_app in *. simpl in *. lia.
Qed.

Lemma last_flag_error_clears_last_witness :
  ∃ out, last_flag_error_file (lit "0201,0,0
0003,1,1
") = Ok out
         ∧ mapM parse_record (split_on NL out)
           = Some (clear_last [Transfer 513 (Some 0) false; Transfer 3 (Some 1) true])
         ∧ S (newlines out) = newlines (lit "0201,0,0
0003,1,1
").
Proof.
  apply (last_flag_error_clears_last _ [Transfer 513 (Some 0) false; Transfer 3 (Some 1) true]);
    [reflexivity|done].
Defined.

(** The last-flag derivation never raises, whatever the reference file
    holds: the split of a text is never empty, nor is the split of its last
    entry.  Its output has as many newlines as the stripped text. *)
Theorem last_flag_error_file_total (text : str) :
  ∃ out, last_flag_error_file text = Ok out ∧ newlines out = newlines (strip text).
Proof.
  unfold last_flag_error_file.
  pose proof (split_on_free NL (strip text)) as Hfree.
  pose proof (length_split_on (strip text)) as Hcount.
  destruct (split_on NL (strip text)) as [|e es] eqn:E using rev_ind;
    [by apply split_on_nonempty in E|]. clear IHes.
  apply Forall_app in Hfree as [Hinit Hl]. apply Forall_cons in Hl as [Hl _].
  pose proof (join_split COMMA e) as Hjoin.
  pose proof (split_on_free COMMA e) as Hcfree.
  unfold last_flag_error. rewrite index_last. cbn [mbind result_bind].
  destruct (split_on COMMA e) as [|w ws] eqn:Ew; [by apply split_on_nonempty in Ew|].
  change (index (w :: ws) 0) with (Ok (A:=str) w). cbn [mbind result_bind].
  rewrite slice_but_last. eexists. split; [done|].
  match goal with |- ?a = ?b => enough (S a = S b) by lia end.
  rewrite newlines_join.
  - rewrite length_app in *. simpl in *. lia.
  - by destruct es.
  - apply Forall_app. split; [done|]. constructor; [|constructor].
    assert (NL ∉ w) as Hw.
    { intros Hin. apply Hl. rewrite <- Hjoin.
      destruct ws; simpl; [done|]. apply elem_of_app. by left. }
    change (join (lit ",") [w; lit "0"; lit "0"]) with (w ++ lit ",0,0").
    rewrite elem_of_app. intros [?|Hin]; [done|].
    by repeat (apply elem_of_cons in Hin as [?|Hin]; [done|]); apply elem_of_nil in Hin.
Qed.

(** ** When the codec returns *)

Lemma encode_wide S W :
  is_bytes S → 8 ≤ W →
  encode S W
  = Ok (raw_bytes S, reference_text (aligned_lines W (Z.of_nat (length S)) S)).
Proof.
  intros HS HW. unfold encode, codec. rewrite struct_pack_bytes by done.
  cbn [mbind result_bind]. unfold reference_lines.
  replace (8 <=? W) with true by (symmetry; apply Z.leb_le; lia). done.
Qed.

Lemma encode_not_bytes S W : ¬ is_bytes S → encode S W = Raise StructError.
Proof.
  intros HS. unfold encode, codec, struct_pack_B.
  rewrite Z.max_r by lia. rewrite Z.eqb_refl. cbn [negb].
  destruct (forallb _ S) eqn:E; [|done]. exfalso. apply HS.
  rewrite forallb_forall in E. apply Forall_forall. intros b Hb.
  apply list_elem_of_In, E in Hb. apply andb_true_iff in Hb as [H1 H2].
  apply Z.leb_le in H1, H2. lia.
Qed.

Lemma slice_words_step fuel W fl ls :
  fl ≠ [] →
  slice_words (S fuel) W fl ls
  = word ← int2 (slice fl None (Some W));
    slice_words fuel W (slice fl (Some W) None)
      (ls ++ [record_line (format_x word) [] (bool_decide (slice fl (Some W) None = []))]).
Proof. by destruct fl. Qed.

(** With a width that is not positive the [while] loop stops at the empty
    slice it gives to [int]. *)
Lemma slice_words_nonpositive fuel W fl ls :
  W ≤ 0 → fl ≠ [] → Forall is_bit fl → (length fl ≤ fuel)%nat →
  slice_words fuel W fl ls = Raise ValueError.
Proof.
  intros HW. revert fl ls. induction fuel as [|fuel IH]; intros fl ls Hne Hbits Hfuel.
  - destruct fl; [done|simpl in Hfuel; lia].
  - rewrite slice_words_step by done.
    assert (0 < length fl)%nat as Hpos by (destruct fl; [done|simpl; lia]).
    destruct (decide (W = 0)) as [->|Hnz].
    { by rewrite (slice_prefix_Z fl 0). }
    assert (slice fl None (Some W) = take (Z.to_nat (Z.of_nat (length fl) + W)) fl) as Hpre.
    { unfold slice. cbn [from_option]. rewrite drop_0, Nat.sub_0_r. unfold slice_bound.
      apply (f_equal (λ n, take n fl)).
      destruct (Z.ltb_spec W 0); lia. }
    assert (slice fl (Some W) None = drop (Z.to_nat (Z.of_nat (length fl) + W)) fl) as Hsuf.
    { unfold slice. cbn [from_option]. unfold slice_bound.
      rewrite take_ge by (rewrite length_drop; lia).
      apply (f_equal (λ n, drop n fl)).
      destruct (Z.ltb_spec W 0); lia. }
    rewrite Hpre, Hsuf.
    destruct (decide (Z.of_nat (length fl) + W ≤ 0)) as [Hall|Hsome].
    + replace (Z.to_nat (Z.of_nat (length fl) + W)) with 0%nat by lia. done.
    + rewrite int2_bits.
      * cbn [mbind result_bind]. apply IH.
        -- intros E. apply (f_equal length) in E. rewrite length_drop in E. simpl in E. lia.
        -- by apply Forall_drop.
        -- rewrite length_drop. lia.
      * intros E. apply (f_equal length) in E. rewrite length_take in E. simpl in E. lia.
      * by apply Forall_take.
Qed.

(** The codec returns exactly when every value is a byte and the width is
    positive (or there is no byte at all); a value outside 0..255 raises
    [struct.error], a width that is not positive raises [ValueError]; an
    empty sequence gives an empty raw file and a reference file of one
    newline, for every width. *)
Theorem encode_returns_iff (S : list Z) (W : Z) :
  ((∃ out, encode S W = Ok out) ↔ is_bytes S ∧ (0 < W ∨ S = []))
  ∧ (¬ is_bytes S → encode S W = Raise StructError)
  ∧ (is_bytes S → S ≠ [] → W ≤ 0 → encode S W = Raise ValueError)
  ∧ encode [] W = Ok ([], [NL]).
Proof.
  assert (encode [] W = Ok ([], [NL])) as Hempty.
  { unfold encode, codec. cbn [mbind result_bind struct_pack_B]. unfold reference_lines.
    destruct (8 <=? W); reflexivity. }
  assert (is_bytes S → S ≠ [] → W ≤ 0 → encode S W = Raise ValueError) as Hwidth.
  { intros HS Hne HW. unfold encode, codec. rewrite struct_pack_bytes by done.
    cbn [mbind result_bind]. unfold reference_lines.
    replace (8 <=? W) with false by (symmetry; apply Z.leb_gt; lia).
    unfold subbyte_lines. rewrite flatten_length by done.
    replace (Z.of_nat (8 * length S) mod 8 =? 0) with true.
    2:{ symmetry. apply Z.eqb_eq. rewrite Nat2Z.inj_mul, Z.mul_comm. apply Z.mod_mul. lia. }
    cbn [negb]. rewrite slice_words_nonpositive; [done|done| |by apply flatten_bits|].
    - intros E. apply (f_equal length) in E. rewrite flatten_length in E by done.
      destruct S; simpl in *; [done|lia].
    - by rewrite flatten_length. }
  split; [|split; [apply encode_not_bytes|split; [exact Hwidth|exact Hempty]]].
  split.
  - intros [out Hout]. destruct (decide (is_bytes S)) as [HS|HS].
    + split; [done|]. destruct (decide (S = [])) as [|Hne]; [by right|]. left.
      destruct (Z.lt_ge_cases 0 W); [done|]. rewrite Hwidth in Hout by (done || lia). done.
    + rewrite encode_not_bytes in Hout by done. done.
  - intros [HS [HW| ->]]; [|by eauto].
    destruct (Z.lt_ge_cases W 8).
    + eexists. apply encode_subbyte; [done|lia].
    + eexists. by apply encode_wide.
Qed.

(** ** Invariants of the records *)

Lemma Forall_map_last {A B} (P : B → Prop) (f : bool → A → B) (l : list A) :
  (∀ final x, x ∈ l → P (f final x)) → Forall P (map_last f l).
Proof.
  intros Hf. apply Forall_forall. intros y Hy.
  apply list_elem_of_lookup in Hy as [j Hj]. rewrite map_last_lookup in Hj.
  destruct (l !! j) as [x|] eqn:Hx; [|done]. simplify_eq/=.
  apply Hf. by eapply list_elem_of_lookup_2.
Qed.

Lemma window_word_bound w : is_bytes w → 0 ≤ window_word w < 2 ^ (8 * Z.of_nat (length w)).
Proof.
  unfold window_word. induction 1 as [|b w Hb Hw IH]; [simpl; lia|].
  cbn [foldr length]. rewrite Nat2Z.inj_succ.
  replace (8 * Z.succ (Z.of_nat (length w))) with (8 + 8 * Z.of_nat (length w)) by lia.
  rewrite Z.pow_add_r by lia. change (2 ^ 8) with 256. lia.
Qed.

(** Every record of a reference file holds a word below [2 ^ W]; on a
    byte-aligned width it has a keep mask, below [2 ^ (W/8)]; on a sub-byte
    width it has none. *)
Theorem record_invariants (S : list Z) (W : Z) :
  S ≠ [] → is_bytes S → 1 ≤ W < 8 ∨ (0 < W ∧ W mod 8 = 0) →
  ∃ raw ref rs,
    encode S W = Ok (raw, ref)
    ∧ parse_log ref = Some rs
    ∧ Forall (λ r, 0 ≤ word r < 2 ^ W
                   ∧ match keep_mask r with
                     | Some k => 8 ≤ W ∧ 0 ≤ k < 2 ^ (W / 8)
                     | None => W < 8
                     end) rs.
Proof.
  intros Hne HS [Hsub|[HW Hmod]].
  - destruct (parse_log_subbyte S W Hne HS Hsub) as (raw & ref & Henc & Hlog).
    eexists raw, ref, _. split; [done|]. split; [done|].
    apply Forall_map_last. intros final chunk Hchunk. cbn [slice_record word keep_mask].
    split; [|lia].
    pose proof (chunks_sizes (Z.to_nat W) (flatten S) ltac:(lia)) as Hsz.
    rewrite Forall_forall in Hsz. specialize (Hsz _ Hchunk).
    pose proof (bits_value_bound chunk) as Hb.
    split; [lia|]. eapply Z.lt_le_trans; [apply Hb|].
    apply Z.pow_le_mono_r; lia.
  - destruct (width_in_bytes_spec W HW Hmod) as (Hn & HWn & H8).
    destruct (parse_log_aligned S W Hne HS HW Hmod) as (raw & ref & Henc & Hlog).
    eexists raw, ref, _. split; [done|]. split; [done|].
    apply Forall_map_last. intros final w Hw. cbn [window_record word keep_mask].
    destruct (chunks_bytes _ _ _ Hn HS Hw) as [_ Hbytes].
    pose proof (chunks_sizes (width_in_bytes W) S Hn) as Hsz.
    rewrite Forall_forall in Hsz. specialize (Hsz _ Hw).
    pose proof (window_word_bound w Hbytes) as Hb.
    assert (W / 8 = Z.of_nat (width_in_bytes W)) as Hdiv
      by (rewrite HWn at 1; rewrite Z.mul_comm, Z.div_mul; lia).
    split.
    + split; [lia|]. eapply Z.lt_le_trans; [apply Hb|].
      apply Z.pow_le_mono_r; lia.
    + split; [done|]. destruct final; [|rewrite Hdiv; split; [done|apply Z.pow_pos_nonneg; lia]].
      rewrite Z.shiftl_1_l, Hdiv.
      assert (2 ^ Z.of_nat (length w) ≤ 2 ^ Z.of_nat (width_in_bytes W))
        by (apply Z.pow_le_mono_r; lia).
      pose proof (Z.pow_pos_nonneg 2 (Z.of_nat (length w)) ltac:(lia) ltac:(lia)). lia.
Qed.

Lemma record_invariants_witness :
  ∃ raw ref rs,
    encode [1; 2; 3] 16 = Ok (raw, ref)
    ∧ parse_log ref = Some rs
    ∧ Forall (λ r, 0 ≤ word r < 2 ^ 16
                   ∧ match keep_mask r with
                     | Some k => 8 ≤ 16 ∧ 0 ≤ k < 2 ^ (16 / 8)
                     | None => 16 < 8
                     end) rs.
Proof.
  apply (record_invariants [1; 2; 3] 16); [done| |right; split; [lia|done]].
  repeat constructor; lia.
Defined.

(** The bytes of a list are those of its full windows and of its last
    window. *)
Lemma chunks_length_sum {A} (n : nat) (l : list A) :
  (0 < n)%nat → l ≠ [] →
  ∃ w, list.last (chunks n l) = Some w
       ∧ length l = (n * (length (chunks n l) - 1) + length w)%nat.
Proof.
  intros Hn.
  apply (chunks_ind n (λ l ws, l ≠ [] →
           ∃ w, list.last ws = Some w ∧ length l = (n * (length ws - 1) + length w)%nat));
    [done..|].
  intros l' Hl IH _.
  destruct (decide (drop n l' = [])) as [Hlast|Hmore].
  - rewrite Hlast, chunks_nil. exists (take n l'). split; [done|].
    assert (length l' ≤ n)%nat.
    { apply (f_equal length) in Hlast. rewrite length_drop in Hlast. simpl in Hlast. lia. }
    rewrite length_take. simpl. lia.
  - destruct (IH Hmore) as (w & Hw & Hlen). exists w.
    rewrite last_cons, Hw. split; [done|].
    rewrite length_drop in Hlen. simpl length.
    assert (n < length l')%nat.
    { destruct (decide (n < length l')%nat); [done|]. exfalso. apply Hmore, drop_ge. lia. }
    assert (0 < length (chunks n (drop n l')))%nat.
    { destruct (chunks n (drop n l')); [done|simpl; lia]. }
    nia.
Qed.

(** On a byte-aligned width the final record tells how many bytes the final
    window holds: with [m] records and [k = len(S) - (W/8) * (m - 1)] bytes
    left for the last one, [1 ≤ k ≤ W/8], its keep mask is [(1 << k) - 1],
    its word is below [2 ^ (8 * k)] (the padding is zero) and it has the
    last flag. *)
Theorem final_record_keep_mask (S : list Z) (W : Z) :
  S ≠ [] → is_bytes S → 0 < W → W mod 8 = 0 →
  ∃ raw ref rs r k,
    encode S W = Ok (raw, ref)
    ∧ parse_log ref = Some rs
    ∧ list.last rs = Some r
    ∧ k = Z.of_nat (length S) - W / 8 * (Z.of_nat (length rs) - 1)
    ∧ 1 ≤ k ≤ W / 8
    ∧ keep_mask r = Some (Z.shiftl 1 k - 1)
    ∧ 0 ≤ word r < 2 ^ (8 * k)
    ∧ last r = true.
Proof.
  intros Hne HS HW Hmod.
  destruct (width_in_bytes_spec W HW Hmod) as (Hn & HWn & H8).
  destruct (parse_log_aligned S W Hne HS HW Hmod) as (raw & ref & Henc & Hlog).
  destruct (chunks_length_sum (width_in_bytes W) S Hn Hne) as (w & Hw & Hlen).
  assert (W / 8 = Z.of_nat (width_in_bytes W)) as Hdiv
    by (rewrite HWn at 1; rewrite Z.mul_comm, Z.div_mul; lia).
  assert (w ∈ chunks (width_in_bytes W) S) as Hin.
  { rewrite last_lookup in Hw. by eapply list_elem_of_lookup_2. }
  destruct (chunks_bytes _ _ _ Hn HS Hin) as [Hwne Hbytes].
  pose proof (chunks_sizes (width_in_bytes W) S Hn) as Hsz.
  rewrite Forall_forall in Hsz. specialize (Hsz _ Hin).
  assert (0 < length (chunks (width_in_bytes W) S))%nat as Hm.
  { destruct (chunks (width_in_bytes W) S); [done|simpl; lia]. }
  eexists raw, ref, _, (window_record true w), (Z.of_nat (length w)).
  split; [done|]. split; [done|]. split.
  { rewrite last_lookup, map_last_lookup, length_map_last.
    rewrite last_lookup in Hw. rewrite Hw. simpl. f_equal. f_equal.
    apply bool_decide_eq_true. lia. }
  split; [rewrite length_map_last, Hdiv; nia|].
  split; [lia|]. split; [done|]. split; [|done].
  cbn [window_record word]. by apply window_word_bound.
Qed.

Lemma final_record_keep_mask_witness :
  ∃ raw ref rs r k,
    encode [1; 2; 3; 4; 5] 32 = Ok (raw, ref)
    ∧ parse_log ref = Some rs
    ∧ list.last rs = Some r
    ∧ k = Z.of_nat (length [1; 2; 3; 4; 5]) - 32 / 8 * (Z.of_nat (length rs) - 1)
    ∧ 1 ≤ k ≤ 32 / 8
    ∧ keep_mask r = Some (Z.shiftl 1 k - 1)
    ∧ 0 ≤ word r < 2 ^ (8 * k)
    ∧ last r = true.
Proof.
  apply (final_record_keep_mask [1; 2; 3; 4; 5] 32); [done| |lia|done].
  repeat constructor; lia.
Defined.

(** The raw file is the byte sequence itself: one character per byte, with
    the byte as its code. *)
Theorem raw_file_is_the_bytes (S : list Z) (W : Z) :
  is_bytes S → 0 < W →
  ∃ raw ref, encode S W = Ok (raw, ref)
             ∧ (λ c, Z.of_nat (nat_of_ascii c)) <$> raw = S.
Proof.
  intros HS HW.
  assert (∃ ref, encode S W = Ok (raw_bytes S, ref)) as [ref Href].
  { destruct (Z.lt_ge_cases W 8).
    - eexists. apply encode_subbyte; [done|lia].
    - eexists. by apply encode_wide. }
  exists (raw_bytes S), ref. split; [done|].
  clear Href. unfold raw_bytes. induction HS as [|b S Hb HS IH]; [done|].
  cbn [map fmap list_fmap]. f_equal; [|done].
  rewrite nat_ascii_embedding by lia. lia.
Qed.

Lemma raw_file_is_the_bytes_witness :
  ∃ raw ref, encode [0; 65; 255] 3 = Ok (raw, ref)
             ∧ (λ c, Z.of_nat (nat_of_ascii c)) <$> raw = [0; 65; 255].
Proof. apply (raw_file_is_the_bytes [0; 65; 255] 3); [repeat constructor; lia|lia]. Defined.

(** ** What [generateAxiFileReaderTestFile] touches *)

(** A successful run draws [length] random values (none when [length] is
    negative), writes the two files it is given, stamped with the current
    time, and leaves every other file and the registered configurations as
    they were. *)
Theorem generate_touches_only_its_files (tf rf : str) (W L : Z) (w w' : world) :
  generateAxiFileReaderTestFile tf rf W L w = Ok (tt, w') →
  (∀ p, p ≠ tf → p ≠ rf → files w' !! p = files w !! p)
  ∧ (∃ f, files w' !! tf = Some f ∧ mtime f = clock w)
  ∧ (∃ f, files w' !! rf = Some f ∧ mtime f = clock w)
  ∧ rand_pos w' = (Z.to_nat L + rand_pos w)%nat
  ∧ configs w' = configs w.
Proof.
  rewrite generate_eq.
  destruct (encode _ W) as [[raw ref]|e|]; [|done..].
  intros [= <-]. cbn [files rand_pos configs after_draws].
  split; [|split; [|split; [|done]]].
  - intros p Htf Hrf. by rewrite !lookup_insert_ne.
  - destruct (decide (rf = tf)) as [->|Hne].
    + rewrite lookup_insert_eq. eauto.
    + rewrite lookup_insert_ne, lookup_insert_eq by done. eauto.
  - rewrite lookup_insert_eq. eauto.
Qed.

Lemma generate_touches_only_its_files_witness :
  ∃ w', generateAxiFileReaderTestFile (lit "in.bin") (lit "ref.bin") 16 3 other_world
        = Ok (tt, w')
        ∧ (∀ p, p ≠ lit "in.bin" → p ≠ lit "ref.bin" → files w' !! p = files other_world !! p)
        ∧ (∃ f, files w' !! lit "in.bin" = Some f ∧ mtime f = clock other_world)
        ∧ (∃ f, files w' !! lit "ref.bin" = Some f ∧ mtime f = clock other_world)
        ∧ rand_pos w' = (Z.to_nat 3 + rand_pos other_world)%nat
        ∧ configs w' = configs other_world.
Proof.
  assert (match generateAxiFileReaderTestFile (lit "in.bin") (lit "ref.bin") 16 3 other_world
          with Ok _ => True | _ => False end) as Hok by (vm_compute; exact I).
  destruct (generateAxiFileReaderTestFile (lit "in.bin") (lit "ref.bin") 16 3 other_world)
    as [[[] w']|e|] eqn:E; [|destruct Hok..].
  exists w'. split; [reflexivity|].
  exact (generate_touches_only_its_files _ _ _ _ _ _ E).
Defined.

(** ** Exactly which configurations a builder registers *)

Lemma with_configs_nil w : with_configs w [] = w.
Proof. destruct w. unfold with_configs. simpl. by rewrite app_nil_r. Qed.

Lemma with_configs_app w a b : with_configs (with_configs w a) b = with_configs w (a ++ b).
Proof. unfold with_configs. simpl. by rewrite app_assoc. Qed.

Lemma registers_ret : registers (mret tt) [].
Proof. intros w. by rewrite with_configs_nil. Qed.

Lemma registers_bind (m k : M unit) a b :
  registers m a → registers k b → registers (m ;; k) (a ++ b).
Proof.
  intros Hm Hk w. unfold mbind, M_bind. rewrite Hm, Hk. by rewrite with_configs_app.
Qed.

Lemma registers_add_config c : registers (add_config c) [c].
Proof. by intros w. Qed.

Lemma registers_for_each {A} (l : list A) (body : A → M unit) (f : A → list TestConfiguration) :
  (∀ x, registers (body x) (f x)) → registers (for_each l body) (l ≫= f).
Proof.
  intros Hbody. induction l as [|x l IH].
  - apply registers_ret.
  - cbn [for_each]. rewrite bind_cons. by apply registers_bind.
Qed.

Lemma registers_when (c : bool) m cs :
  registers m cs → registers (when c m) (if c then cs else []).
Proof. intros Hm. destruct c; [done|apply registers_ret]. Qed.

Lemma registers_addAsyncFifoTests entity seed :
  registers (addAsyncFifoTests entity seed) (async_fifo_configs entity seed).
Proof.
  unfold addAsyncFifoTests, async_fifo_configs.
  apply registers_for_each. intros wr. apply registers_for_each. intros rd.
  apply registers_for_each. intros [a b]. apply registers_add_config.
Qed.

(** The clock and rate sweep: [addAsyncFifoTests] never fails and registers
    16 configurations with pairwise distinct names, one for every
    combination of a write clock period, a read clock period and a pair of
    random-enable rates, each carrying the seed; nothing else changes. *)
Theorem async_fifo_matrix (entity : str) (seed : Z) (w : world) :
  ∃ cs,
    addAsyncFifoTests entity seed w = Ok (tt, with_configs w cs)
    ∧ length cs = 16%nat
    ∧ NoDup (cfg_name <$> cs)
    ∧ ∀ wr rd wr_rand rd_rand,
        wr ∈ clk_periods → rd ∈ clk_periods → (wr_rand, rd_rand) ∈ rate_pairs →
        ∃ c, c ∈ cs
             ∧ generic_is c "WR_CLK_PERIOD_NS" wr ∧ generic_is c "RD_CLK_PERIOD_NS" rd
             ∧ generic_is c "WR_EN_RANDOM" wr_rand ∧ generic_is c "RD_EN_RANDOM" rd_rand
             ∧ generic_is c "SEED" seed.
Proof.
  exists (async_fifo_configs entity seed).
  split; [apply registers_addAsyncFifoTests|].
  split; [reflexivity|].
  split; [apply (bool_decide_unpack _); vm_compute; exact I|].
  intros wr rd a b Hwr Hrd Hab.
  exists (async_fifo_config entity seed wr rd (a, b)). split.
  - unfold async_fifo_configs.
    apply list_elem_of_bind. exists wr. split; [|done].
    apply list_elem_of_bind. exists rd. split; [|done].
    apply list_elem_of_bind. exists (a, b). split; [|done].
    apply list_elem_of_here.
  - unfold generic_is. cbn [async_fifo_config generics].
    repeat split; vm_compute; reflexivity.
Qed.

(** ** The width converter: every narrowing pair, once *)

Lemma bind_Permutation_ext {A B} (f g : A → list B) l1 l2 :
  l1 ≡ₚ l2 → (∀ x, f x ≡ₚ g x) → l1 ≫= f ≡ₚ l2 ≫= g.
Proof.
  intros Hl Hfg. rewrite Hl. clear Hl l1.
  induction l2 as [|x l IH]; [done|]. rewrite !bind_cons. by rewrite Hfg, IH.
Qed.

Lemma width_converter_configs_Permutation entity seed iter :
  (∀ X, iter X ≡ₚ elements X) →
  width_converter_configs entity seed iter ≡ₚ width_converter_configs entity seed elements.
Proof.
  intros Hiter. unfold width_converter_configs.
  apply bind_Permutation_ext; [apply Hiter|]. intros i.
  apply bind_Permutation_ext; [apply Hiter|]. done.
Qed.

Lemma registers_width_converter_loops entity seed iter :
  registers
    (for_each (iter {[1; 8; 24; 32; 128]}) (λ input_data_width,
       for_each (iter ({[1; 3; 8; 24; 32; 128]} ∖ {[input_data_width]}))
         (λ output_data_width,
            if input_data_width <=? output_data_width then mret tt
            else add_config (width_converter_config entity seed
                               input_data_width output_data_width))))
    (width_converter_configs entity seed iter).
Proof.
  unfold width_converter_configs.
  apply registers_for_each. intros i. apply registers_for_each. intros o.
  destruct (i <=? o); [apply registers_ret|apply registers_add_config].
Qed.

Lemma addAxiWidthConverterTests_eq entity seed w :
  addAxiWidthConverterTests entity seed w
  = Ok (tt, with_configs w (same_widths_config entity seed
                            :: width_converter_configs entity seed (set_iter w))).
Proof.
  unfold addAxiWidthConverterTests. unfold mbind at 1, M_bind. unfold add_config at 1.
  unfold mbind at 1, M_bind. unfold get at 1.
  cbn [set_iter].
  rewrite (registers_width_converter_loops entity seed (set_iter w)).
  change (same_widths_config entity seed :: ?l) with ([same_widths_config entity seed] ++ l).
  by rewrite <- with_configs_app.
Qed.

Lemma generic_is_width_converter_config entity seed i o :
  generic_is (width_converter_config entity seed i o) "INPUT_DATA_WIDTH" i
  ∧ generic_is (width_converter_config entity seed i o) "OUTPUT_DATA_WIDTH" o.
Proof. split; unfold generic_is; cbn [width_converter_config generics]; vm_compute; reflexivity. Qed.

(** Whatever the order in which the interpreter iterates over the two sets
    of widths (each element once), the width-converter builder never fails
    and registers, after the baseline, exactly 14 configurations with
    pairwise distinct names: there is one for the widths [(i, o)] exactly
    when [i] is an input width, [o] an output width and [o < i]. *)
Theorem width_converter_complete (entity : str) (seed : Z) (w : world) :
  (∀ X, set_iter w X ≡ₚ elements X) →
  ∃ rest,
    addAxiWidthConverterTests entity seed w
    = Ok (tt, with_configs w (same_widths_config entity seed :: rest))
    ∧ length rest = 14%nat
    ∧ NoDup (cfg_name <$> rest)
    ∧ ∀ i o, (i ∈ input_widths ∧ o ∈ output_widths ∧ o < i)
             ↔ ∃ c, c ∈ rest ∧ generic_is c "INPUT_DATA_WIDTH" i
                    ∧ generic_is c "OUTPUT_DATA_WIDTH" o.
Proof.
  intros Hiter. exists (width_converter_configs entity seed (set_iter w)).
  split; [apply addAxiWidthConverterTests_eq|].
  pose proof (width_converter_configs_Permutation entity seed _ Hiter) as Hperm.
  split; [by rewrite Hperm|].
  split.
  { rewrite Hperm. apply (bool_decide_unpack _). vm_compute. exact I. }
  intros i o. split.
  - intros (Hi & Ho & Hlt). exists (width_converter_config entity seed i o).
    split; [|apply generic_is_width_converter_config].
    unfold width_converter_configs.
    apply list_elem_of_bind. exists i. split.
    + apply list_elem_of_bind. exists o. split.
      * replace (i <=? o) with false by (symmetry; apply Z.leb_gt; lia).
        apply list_elem_of_here.
      * rewrite Hiter. apply elem_of_elements.
        apply elem_of_difference. split; [done|]. rewrite elem_of_singleton. lia.
    + rewrite Hiter. by apply elem_of_elements.
  - intros (c & Hc & Hci & Hco). unfold width_converter_configs in Hc.
    apply list_elem_of_bind in Hc as (i' & Hc & Hi').
    apply list_elem_of_bind in Hc as (o' & Hc & Ho').
    rewrite Hiter in Hi', Ho'. apply elem_of_elements in Hi', Ho'.
    apply elem_of_difference in Ho' as [Ho' _].
    destruct (Z.leb_spec i' o') as [|Hlt]; [by apply elem_of_nil in Hc|].
    apply list_elem_of_singleton in Hc as ->.
    destruct (generic_is_width_converter_config entity seed i' o') as [Hi'' Ho''].
    rewrite (generic_is_inj _ _ _ _ Hci Hi''), (generic_is_inj _ _ _ _ Hco Ho''). done.
Qed.

Lemma width_converter_complete_witness :
  ∃ rest,
    addAxiWidthConverterTests (lit "tb") 7 sample_world
    = Ok (tt, with_configs sample_world (same_widths_config (lit "tb") 7 :: rest))
    ∧ length rest = 14%nat
    ∧ NoDup (cfg_name <$> rest)
    ∧ ∀ i o, (i ∈ input_widths ∧ o ∈ output_widths ∧ o < i)
             ↔ ∃ c, c ∈ rest ∧ generic_is c "INPUT_DATA_WIDTH" i
                    ∧ generic_is c "OUTPUT_DATA_WIDTH" o.
Proof.
  apply (width_converter_complete (lit "tb") 7 sample_world).
  intros X. cbn [sample_world set_iter]. unfold increasing. apply merge_sort_Permutation.
Defined.

(** ** The arbiter: two configurations for every test case with a mode *)

Lemma list_bind_nil {A B} (f : A → list B) : ([] : list A) ≫= f = [].
Proof. done. Qed.

Lemma registers_arbiter_body entity seed test register_inputs :
  registers
    (when (startswith test (lit "test_round_robin"))
       (add_config (arbiter_config entity test seed "ROUND_ROBIN" register_inputs));;
     when (startswith test (lit "test_interleaved"))
       (add_config (arbiter_config entity test seed "INTERLEAVED" register_inputs));;
     when (startswith test (lit "test_absolute"))
       (add_config (arbiter_config entity test seed "ABSOLUTE" register_inputs)))
    (arbiter_modes ≫= λ pm,
       if startswith test (lit pm.1)
       then [arbiter_config entity test seed pm.2 register_inputs] else []).
Proof.
  unfold arbiter_modes. rewrite !bind_cons, list_bind_nil, app_nil_r. cbn [fst snd].
  repeat apply registers_bind; apply registers_when, registers_add_config.
Qed.

Lemma registers_addAxiArbiterTests_loops entity seed tests :
  registers
    (for_each tests (λ test,
       for_each [true; false] (λ register_inputs,
         when (startswith test (lit "test_round_robin"))
           (add_config (arbiter_config entity test seed "ROUND_ROBIN" register_inputs));;
         when (startswith test (lit "test_interleaved"))
           (add_config (arbiter_config entity test seed "INTERLEAVED" register_inputs));;
         when (startswith test (lit "test_absolute"))
           (add_config (arbiter_config entity test seed "ABSOLUTE" register_inputs)))))
    (arbiter_configs entity seed tests).
Proof.
  unfold arbiter_configs, arbiter_configs_for. apply registers_for_each. intros test.
  apply registers_for_each. intros ri. apply registers_arbiter_body.
Qed.

Lemma addAxiArbiterTests_eq entity seed w :
  addAxiArbiterTests entity seed w
  = Ok (tt, with_configs w (arbiter_configs entity seed (arbiter_tests w))).
Proof.
  unfold addAxiArbiterTests. unfold mbind at 1, M_bind. unfold get at 1.
  apply (registers_addAxiArbiterTests_loops entity seed (arbiter_tests w)).
Qed.

(** No test case name starts with the prefixes of two modes. *)
Lemma arbiter_modes_exclusive test pm1 pm2 :
  pm1 ∈ arbiter_modes → pm2 ∈ arbiter_modes →
  lit pm1.1 `prefix_of` test → lit pm2.1 `prefix_of` test → pm1 = pm2.
Proof.
  intros H1 H2 Hp1 Hp2.
  destruct (prefix_weak_total _ _ _ Hp1 Hp2) as [Hpre|Hpre];
    unfold arbiter_modes in H1, H2;
    repeat (apply elem_of_cons in H1 as [->|H1]);
    try (by apply elem_of_nil in H1);
    repeat (apply elem_of_cons in H2 as [->|H2]);
    try (by apply elem_of_nil in H2);
    try done;
    exfalso; revert Hpre; apply (bool_decide_unpack _); vm_compute; exact I.
Qed.

Lemma arbiter_configs_of_test entity seed test :
  length (arbiter_configs_for entity seed test)
  = if decide (arbiter_supported test) then 2%nat else 0%nat.
Proof.
  unfold arbiter_configs_for.
  unfold arbiter_modes, arbiter_supported, startswith.
  rewrite !bind_cons, !list_bind_nil. cbn [fst snd].
  set (rr := ("test_round_robin", "ROUND_ROBIN")%string : string * string).
  set (il := ("test_interleaved", "INTERLEAVED")%string : string * string).
  set (ab := ("test_absolute", "ABSOLUTE")%string : string * string).
  assert (∀ pm1 pm2, pm1 ∈ [rr; il; ab] → pm2 ∈ [rr; il; ab] →
            lit pm1.1 `prefix_of` test → lit pm2.1 `prefix_of` test → pm1 = pm2) as Hex
    by apply arbiter_modes_exclusive.
  assert (rr ∈ [rr; il; ab]) as Hrr by apply list_elem_of_here.
  assert (il ∈ [rr; il; ab]) as Hil by apply list_elem_of_further, list_elem_of_here.
  assert (ab ∈ [rr; il; ab]) as Hab
    by apply list_elem_of_further, list_elem_of_further, list_elem_of_here.
  change (lit "test_round_robin") with (lit rr.1).
  change (lit "test_interleaved") with (lit il.1).
  change (lit "test_absolute") with (lit ab.1).
  fold arbiter_modes. change arbiter_modes with [rr; il; ab].
  destruct (decide (Exists _ [rr; il; ab])) as [Hsup|Hnot].
  - apply Exists_exists in Hsup as (pm & Hpm & Hpre).
    repeat case_bool_decide; simpl; try done;
      repeat match goal with
      | H1 : lit ?a.1 `prefix_of` test, H2 : lit ?b.1 `prefix_of` test |- _ =>
          lazymatch a with b => fail | _ => idtac end;
          let E := fresh in
          assert (a = b) as E by (by apply Hex); discriminate E
      end.
    repeat (apply elem_of_cons in Hpm as [->|Hpm]); try done. by apply elem_of_nil in Hpm.
  - rewrite !bool_decide_eq_false_2; [done|..];
      intros Hpre; apply Hnot, Exists_exists; eauto.
Qed.

Lemma length_arbiter_configs entity seed tests :
  length (arbiter_configs entity seed tests)
  = (2 * length (filter arbiter_supported tests))%nat.
Proof.
  induction tests as [|t ts IH]; [done|].
  unfold arbiter_configs in *. rewrite bind_cons, length_app, IH.
  rewrite arbiter_configs_of_test, filter_cons.
  destruct (decide (arbiter_supported t)); simpl; lia.
Qed.

(** The arbiter builder never fails.  It registers two configurations (one
    with registered inputs, one without) for every test case of the bench
    whose name starts with the prefix of a mode, and none for the others;
    each configuration is attached to its test case and carries the mode of
    the prefix and the seed. *)
Theorem arbiter_matrix (entity : str) (seed : Z) (w : world) :
  ∃ cs,
    addAxiArbiterTests entity seed w = Ok (tt, with_configs w cs)
    ∧ length cs = (2 * length (filter arbiter_supported (arbiter_tests w)))%nat
    ∧ Forall (λ c, ∃ test pm,
                cfg_test c = Some test ∧ test ∈ arbiter_tests w
                ∧ pm ∈ arbiter_modes ∧ lit pm.1 `prefix_of` test
                ∧ generics c !! lit "MODE" = Some (VStr (lit pm.2))
                ∧ generic_is c "seed" seed) cs
    ∧ ∀ test b, test ∈ arbiter_tests w → arbiter_supported test →
        ∃ c, c ∈ cs ∧ cfg_test c = Some test
             ∧ generics c !! lit "REGISTER_INPUTS" = Some (VBool b).
Proof.
  exists (arbiter_configs entity seed (arbiter_tests w)).
  split; [apply addAxiArbiterTests_eq|].
  split; [apply length_arbiter_configs|].
  split.
  - apply Forall_forall. intros c Hc. unfold arbiter_configs, arbiter_configs_for in Hc.
    apply list_elem_of_bind in Hc as (test & Hc & Htest).
    apply list_elem_of_bind in Hc as (ri & Hc & _).
    apply list_elem_of_bind in Hc as (pm & Hc & Hpm).
    unfold startswith in Hc. case_bool_decide as Hpre; [|by apply elem_of_nil in Hc].
    apply list_elem_of_singleton in Hc as ->.
    exists test, pm. split; [done|]. split; [done|]. split; [done|]. split; [done|].
    unfold arbiter_modes in Hpm.
    repeat (apply elem_of_cons in Hpm as [->|Hpm]);
      [| | |by apply elem_of_nil in Hpm];
      (split; [|unfold generic_is]); cbn [arbiter_config generics snd];
      vm_compute; reflexivity.
  - intros test b Htest Hsup. apply Exists_exists in Hsup as (pm & Hpm & Hpre).
    exists (arbiter_config entity test seed pm.2 b). split; [|split; [done|]].
    + unfold arbiter_configs, arbiter_configs_for.
      apply list_elem_of_bind. exists test. split; [|done].
      apply list_elem_of_bind. exists b.
      split; [|destruct b; [apply list_elem_of_here
                           |apply list_elem_of_further, list_elem_of_here]].
      apply list_elem_of_bind. exists pm. split; [|done].
      unfold startswith. rewrite bool_decide_eq_true_2 by done. apply list_elem_of_here.
    + unfold arbiter_modes in Hpm.
      repeat (apply elem_of_cons in Hpm as [->|Hpm]);
        [| | |by apply elem_of_nil in Hpm];
        cbn [arbiter_config generics snd]; vm_compute; reflexivity.
Qed.

(** ** Running the builders *)

Lemma run_bind {A B} (m : M A) (k : A → M B) w a w1 :
  m w = Ok (a, w1) → (m ≫= k) w = k a w1.
Proof. intros H. unfold mbind, M_bind. by rewrite H. Qed.


Lemma path_join_relative (a b : str) x :
  list.last a = Some x → x ≠ "/"%char → head b ≠ Some "/"%char →
  path_join a b = a ++ lit "/" ++ b.
Proof.
  intros Ha Hx Hb. unfold path_join. rewrite Ha.
  destruct (decide (x = "/"%char)); [done|].
  destruct b as [|c b]; [done|].
  destruct c as [[] [] [] [] [] [] [] []]; try reflexivity.
  exfalso. by apply Hb.
Qed.

Lemma last_vunit_dir root : list.last (path_join root (lit "vunit_out")) = Some "t"%char.
Proof.
  unfold path_join. cbn [lit].
  change (match lit "vunit_out" with "/"%char :: _ => lit "vunit_out" | _ => ?x end) with x.
  destruct (list.last root) as [c|]; [|done].
  destruct (decide _); rewrite ?last_app; done.
Qed.

Lemma vunit_out_eq (name : string) w :
  head (lit name) ≠ Some "/"%char → vunit_out (lit name) w = Ok (out_path w name, w).
Proof.
  intros Hname. unfold vunit_out, out_path, get, mbind, M_bind, mret, M_ret.
  by rewrite (path_join_relative _ _ _ (last_vunit_dir _)).
Qed.

Lemma out_path_inj w n1 n2 : out_path w n1 = out_path w n2 → lit n1 = lit n2.
Proof. unfold out_path. intros H. by apply app_inv_head, app_inv_head in H. Qed.

Ltac paths_ne :=
  let H := fresh in
  intros H; apply out_path_inj in H; discriminate H.



(** ** The files of the compare test bench *)

Lemma derive_step {B} (rf p : str) (f : str → result str) (k : M B) w fr out :
  files w !! rf = Some fr → (files w !! p = None → f (content fr) = Ok out) →
  (e ← exists_ p;
   when (negb e)
     (reference ← read_file rf; data ← lift (f reference); write_file p data);;
   k) w
  = k (derived w p out).
Proof.
  intros Hrf Hf. unfold derived, exists_, get, mbind, M_bind.
  destruct (decide (is_Some (files w !! p))) as [Hp|Hp].
  - by rewrite bool_decide_eq_true_2.
  - rewrite bool_decide_eq_false_2 by done. cbn [negb when].
    apply eq_None_not_Some in Hp.
    unfold read_file, mbind, M_bind. rewrite Hrf. unfold lift. by rewrite (Hf Hp).
Qed.

Lemma derive_step_raise {B} (rf p : str) (f : str → result str) (k : M B) w fr e :
  files w !! p = None → files w !! rf = Some fr → f (content fr) = Raise e →
  (e ← exists_ p;
   when (negb e)
     (reference ← read_file rf; data ← lift (f reference); write_file p data);;
   k) w
  = Raise e.
Proof.
  intros Hp Hrf Hf. unfold exists_, get, mbind, M_bind.
  rewrite bool_decide_eq_false_2 by (rewrite Hp; by intros [? ?]). cbn [negb when].
  unfold read_file, mbind, M_bind. rewrite Hrf. unfold lift. by rewrite Hf.
Qed.

Lemma files_derived w p out q :
  files (derived w p out) !! q
  = if decide (q = p) then Some (from_option id (File out (clock w)) (files w !! p))
    else files w !! q.
Proof.
  unfold derived. destruct (decide (is_Some (files w !! p))) as [[f Hf]|Hp].
  - destruct (decide (q = p)) as [->|]; [by rewrite Hf|done].
  - apply eq_None_not_Some in Hp. unfold with_file. cbn [files].
    destruct (decide (q = p)) as [->|].
    + by rewrite lookup_insert_eq, Hp.
    + by rewrite lookup_insert_ne.
Qed.

Lemma derived_frame w p out :
  clock (derived w p out) = clock w ∧ rand_pos (derived w p out) = rand_pos w
  ∧ ROOT (derived w p out) = ROOT w ∧ configs (derived w p out) = configs w.
Proof. unfold derived. by destruct (decide _). Qed.

(** The files after the three derivations. *)
Lemma files_derivations w1 (p1 p2 p3 s d l : str) q :
  p1 ≠ p2 → p1 ≠ p3 → p2 ≠ p3 →
  files (derived (derived (derived w1 p1 s) p2 d) p3 l) !! q
  = if decide (q = p3) then Some (from_option id (File l (clock w1)) (files w1 !! p3))
    else if decide (q = p2) then Some (from_option id (File d (clock w1)) (files w1 !! p2))
    else if decide (q = p1) then Some (from_option id (File s (clock w1)) (files w1 !! p1))
    else files w1 !! q.
Proof.
  intros H12 H13 H23.
  pose proof (derived_frame w1 p1 s) as (Hk1 & _).
  pose proof (derived_frame (derived w1 p1 s) p2 d) as (Hk2 & _).
  rewrite !files_derived, Hk2, Hk1.
  repeat (let E := fresh "E" in destruct (decide _) as [E|E]; try congruence).
Qed.

Lemma frame_derivations w1 (p1 p2 p3 s d l : str) :
  rand_pos (derived (derived (derived w1 p1 s) p2 d) p3 l) = rand_pos w1
  ∧ configs (derived (derived (derived w1 p1 s) p2 d) p3 l) = configs w1.
Proof.
  pose proof (derived_frame w1 p1 s) as (_ & Hp1 & _ & Hc1).
  pose proof (derived_frame (derived w1 p1 s) p2 d) as (_ & Hp2 & _ & Hc2).
  pose proof (derived_frame (derived (derived w1 p1 s) p2 d) p3 l) as (_ & Hp3 & _ & Hc3).
  split; congruence.
Qed.

Lemma single_mismatch_file_ok reference :
  (8 ≤ newlines reference)%nat → ∃ out, single_mismatch_file reference = Ok out.
Proof.
  intros Hn. pose proof (length_split_on reference) as Hlen. unfold single_mismatch_file.
  destruct (lookup_lt_is_Some_2 (split_on NL reference) 8 ltac:(lia)) as [l8 H8].
  rewrite (single_mismatch_eq _ l8 H8). by eexists.
Qed.

Lemma double_mismatch_file_ok reference :
  (17 ≤ newlines reference)%nat → ∃ out, double_mismatch_file reference = Ok out.
Proof.
  intros Hn. pose proof (length_split_on reference) as Hlen. unfold double_mismatch_file.
  destruct (lookup_lt_is_Some_2 (split_on NL reference) 8 ltac:(lia)) as [l8 H8].
  destruct (lookup_lt_is_Some_2 (split_on NL reference) 17 ltac:(lia)) as [l17 H17].
  rewrite (double_mismatch_eq _ l8 l17 H8 H17). by eexists.
Qed.

Lemma single_mismatch_file_raises reference :
  (newlines reference < 8)%nat → single_mismatch_file reference = Raise IndexError.
Proof.
  intros Hn. pose proof (length_split_on reference) as Hlen. unfold single_mismatch_file.
  by rewrite single_mismatch_short by lia.
Qed.

Lemma double_mismatch_file_raises reference :
  (newlines reference < 17)%nat → double_mismatch_file reference = Raise IndexError.
Proof.
  intros Hn. pose proof (length_split_on reference) as Hlen. unfold double_mismatch_file.
  by rewrite double_mismatch_short by lia.
Qed.

Lemma last_flag_error_file_ok text : ∃ out, last_flag_error_file text = Ok out.
Proof.
  unfold last_flag_error_file.
  destruct (split_on NL (strip text)) as [|e es] eqn:E using rev_ind;
    [by apply split_on_nonempty in E|]. clear IHes.
  unfold last_flag_error. rewrite index_last. cbn [mbind result_bind].
  destruct (split_on COMMA e) as [|w ws] eqn:Ew; [by apply split_on_nonempty in Ew|].
  change (index (w :: ws) 0) with (Ok (A:=str) w). cbn [mbind result_bind].
  rewrite slice_but_last. by eexists.
Qed.


Lemma compare_paths_distinct w :
  compare_reference w ≠ compare_single w ∧ compare_reference w ≠ compare_double w
  ∧ compare_reference w ≠ compare_last w ∧ compare_single w ≠ compare_double w
  ∧ compare_single w ≠ compare_last w ∧ compare_double w ≠ compare_last w
  ∧ compare_input w ≠ compare_reference w ∧ compare_input w ≠ compare_single w
  ∧ compare_input w ≠ compare_double w ∧ compare_input w ≠ compare_last w.
Proof. repeat split; paths_ne. Qed.

(** The builder, once the input and reference files are there. *)
Lemma addAxiFileCompareTests_eq entity seed w w1 :
  when (negb (bool_decide (is_Some (files w !! compare_input w))
              && bool_decide (is_Some (files w !! compare_reference w))))
       (generateAxiFileReaderTestFile (compare_input w) (compare_reference w) 32 (32 * 8)) w
  = Ok (tt, w1) →
  ROOT w1 = ROOT w →
  addAxiFileCompareTests entity seed w = compare_derivations entity seed w w1.
Proof.
  intros Hgen Hroot. unfold addAxiFileCompareTests.
  rewrite (run_bind _ _ _ _ _ (vunit_out_eq "file_compare_input.bin" w ltac:(done))).
  rewrite (run_bind _ _ _ _ _ (vunit_out_eq "file_compare_reference_ok.bin" w ltac:(done))).
  fold (compare_input w) (compare_reference w).
  rewrite (run_bind (exists_ (compare_input w)) _ w _ w eq_refl).
  rewrite (run_bind (exists_ (compare_reference w)) _ w _ w eq_refl).
  rewrite (run_bind _ _ _ _ _ Hgen).
  rewrite (run_bind _ _ _ _ _
             (vunit_out_eq "file_compare_reference_tdata_1_error.bin" w1 ltac:(done))).
  rewrite (run_bind _ _ _ _ _
             (vunit_out_eq "file_compare_reference_tdata_2_errors.bin" w1 ltac:(done))).
  rewrite (run_bind _ _ _ _ _
             (vunit_out_eq "file_compare_reference_tlast_error.bin" w1 ltac:(done))).
  unfold out_path. rewrite Hroot. reflexivity.
Qed.

Lemma compare_derivations_ok entity seed w w1 fr s d l :
  files w1 !! compare_reference w = Some fr →
  (files w1 !! compare_single w = None → single_mismatch_file (content fr) = Ok s) →
  (files w1 !! compare_double w = None → double_mismatch_file (content fr) = Ok d) →
  (files w1 !! compare_last w = None → last_flag_error_file (content fr) = Ok l) →
  compare_derivations entity seed w w1
  = Ok (tt, with_configs
              (derived (derived (derived w1 (compare_single w) s) (compare_double w) d)
                       (compare_last w) l)
              [compare_config entity seed w]).
Proof.
  intros Href Hs Hd Hl.
  destruct (compare_paths_distinct w) as (Hr1 & Hr2 & Hr3 & H12 & H13 & H23 & _).
  unfold compare_derivations.
  rewrite (derive_step (compare_reference w) (compare_single w) single_mismatch_file
             _ w1 fr s Href Hs).
  assert (files (derived w1 (compare_single w) s) !! compare_reference w = Some fr) as Href2.
  { rewrite files_derived. by destruct (decide _). }
  assert (files (derived w1 (compare_single w) s) !! compare_double w
          = files w1 !! compare_double w) as Hd2.
  { rewrite files_derived. destruct (decide _); [congruence|done]. }
  rewrite (derive_step (compare_reference w) (compare_double w) double_mismatch_file
             _ _ fr d Href2 ltac:(by rewrite Hd2)).
  assert (files (derived (derived w1 (compare_single w) s) (compare_double w) d)
          !! compare_reference w = Some fr) as Href3.
  { rewrite files_derived. by destruct (decide _). }
  assert (files (derived (derived w1 (compare_single w) s) (compare_double w) d)
          !! compare_last w = files w1 !! compare_last w) as Hl3.
  { rewrite !files_derived. repeat (destruct (decide _); [congruence|]). done. }
  rewrite (derive_step (compare_reference w) (compare_last w) last_flag_error_file
             _ _ fr l Href3 ltac:(by rewrite Hl3)).
  reflexivity.
Qed.

Lemma derived_present w p out : is_Some (files w !! p) → derived w p out = w.
Proof. intros Hp. unfold derived. by destruct (decide _). Qed.


Lemma compare_reuses entity seed w :
  is_Some (files w !! compare_input w) → is_Some (files w !! compare_reference w) →
  addAxiFileCompareTests entity seed w = compare_derivations entity seed w w.
Proof.
  intros Hi Hr. apply addAxiFileCompareTests_eq; [|done].
  by rewrite !bool_decide_eq_true_2.
Qed.




Lemma compare_reuse_raises entity seed w fi fr :
  files w !! compare_input w = Some fi →
  files w !! compare_reference w = Some fr →
  compare_crashes w fr →
  addAxiFileCompareTests entity seed w = Raise IndexError.
Proof.
  intros Hi Hr Hcrash.
  destruct (compare_paths_distinct w)
    as (Hr1 & Hr2 & Hr3 & H12 & H13 & H23 & Hir & Hi1 & Hi2 & Hi3).
  rewrite (compare_reuses entity seed w) by (by eexists).
  unfold compare_crashes in Hcrash. unfold compare_derivations.
  destruct (files w !! compare_single w) as [f1|] eqn:H1.
  - destruct Hcrash as [[? _]|[H2 Hn]]; [done|].
    rewrite (derive_step (compare_reference w) (compare_single w) single_mismatch_file
               _ w fr [] Hr) by (rewrite H1; done).
    rewrite derived_present by (by rewrite H1).
    by rewrite (derive_step_raise (compare_reference w) (compare_double w)
                  double_mismatch_file _ w fr IndexError H2 Hr
                  (double_mismatch_file_raises _ Hn)).
  - destruct (decide (newlines (content fr) < 8)%nat) as [Hn|Hn].
    + by rewrite (derive_step_raise (compare_reference w) (compare_single w)
                    single_mismatch_file _ w fr IndexError H1 Hr
                    (single_mismatch_file_raises _ Hn)).
    + destruct Hcrash as [[_ ?]|[H2 Hn2]]; [done|].
      destruct (single_mismatch_file_ok (content fr) ltac:(lia)) as [s Hs].
      rewrite (derive_step (compare_reference w) (compare_single w) single_mismatch_file
                 _ w fr s Hr (λ _, Hs)).
      rewrite (derive_step_raise (compare_reference w) (compare_double w)
                 double_mismatch_file _ _ fr IndexError); [done| | |].
      * rewrite files_derived. destruct (decide _); [congruence|done].
      * rewrite files_derived. destruct (decide _); [congruence|done].
      * by apply double_mismatch_file_raises.
Qed.

Lemma compare_reuse_ok entity seed w fi fr :
  files w !! compare_input w = Some fi →
  files w !! compare_reference w = Some fr →
  ¬ compare_crashes w fr →
  ∃ s d l,
    addAxiFileCompareTests entity seed w
    = Ok (tt, with_configs
                (derived (derived (derived w (compare_single w) s) (compare_double w) d)
                         (compare_last w) l)
                [compare_config entity seed w]).
Proof.
  intros Hi Hr Hfine. unfold compare_crashes in Hfine.
  rewrite (compare_reuses entity seed w) by (by eexists).
  destruct (last_flag_error_file_ok (content fr)) as [l Hl].
  assert (∃ s, files w !! compare_single w = None →
               single_mismatch_file (content fr) = Ok s) as [s Hs].
  { destruct (files w !! compare_single w) eqn:H1; [by exists []|].
    destruct (single_mismatch_file_ok (content fr)) as [s Hs]; [|by exists s].
    apply Nat.le_ngt. intros Hn. apply Hfine. left. by split. }
  assert (∃ d, files w !! compare_double w = None →
               double_mismatch_file (content fr) = Ok d) as [d Hd].
  { destruct (files w !! compare_double w) eqn:H2; [by exists []|].
    destruct (double_mismatch_file_ok (content fr)) as [d Hd]; [|by exists d].
    apply Nat.le_ngt. intros Hn. apply Hfine. right. by split. }
  exists s, d, l.
  apply (compare_derivations_ok _ _ _ _ fr s d l); [done..|by intros _].
Qed.

(** When the input and reference files are both there, the compare builder
    draws nothing and regenerates nothing.  It raises [IndexError] exactly
    when an error file is still to be derived and the reference file is too
    short for it (fewer than 8 newlines for the first, fewer than 17 for the
    second); otherwise it succeeds, the five files exist afterwards, every
    file that was there is kept as it was, no file other than the three
    error files is created, and the one configuration is registered. *)
Theorem compare_tests_reuse (entity : str) (seed : Z) (w : world) (fi fr : file) :
  files w !! compare_input w = Some fi →
  files w !! compare_reference w = Some fr →
  (compare_crashes w fr → addAxiFileCompareTests entity seed w = Raise IndexError)
  ∧ (¬ compare_crashes w fr →
     ∃ w', addAxiFileCompareTests entity seed w = Ok (tt, w')
           ∧ rand_pos w' = rand_pos w
           ∧ configs w' = configs w ++ [compare_config entity seed w]
           ∧ (∀ p, p ∈ compare_paths w → is_Some (files w' !! p))
           ∧ (∀ p f, files w !! p = Some f → files w' !! p = Some f)
           ∧ (∀ p, p ∉ compare_paths w → files w' !! p = files w !! p)).
Proof.
  intros Hi Hr.
  destruct (compare_paths_distinct w)
    as (Hr1 & Hr2 & Hr3 & H12 & H13 & H23 & Hir & Hi1 & Hi2 & Hi3).
  split; [by apply compare_reuse_raises with fi|]. intros Hfine.
  destruct (compare_reuse_ok entity seed w fi fr Hi Hr Hfine) as (s & d & l & Hrun).
  eexists. split; [exact Hrun|].
  unfold with_configs. cbn [rand_pos configs files].
  destruct (frame_derivations w (compare_single w) (compare_double w) (compare_last w)
              s d l) as [-> ->].
  split; [done|]. split; [done|].
  split; [|split].
  - intros p Hp. rewrite files_derivations by done.
    repeat (destruct (decide _); [by eexists|]).
    unfold compare_paths in Hp.
    repeat (apply elem_of_cons in Hp as [->|Hp]; [first [congruence|by eexists]|]).
    by apply elem_of_nil in Hp.
  - intros p f Hp. rewrite files_derivations by done.
    repeat (destruct (decide _) as [->|]; [by rewrite Hp|]). done.
  - intros p Hp. rewrite files_derivations by done.
    unfold compare_paths in Hp. rewrite !not_elem_of_cons in Hp.
    destruct Hp as (? & ? & ? & ? & ? & _).
    by repeat (destruct (decide _); [done|]).
Qed.

Lemma compare_tests_reuse_witness :
  addAxiFileCompareTests (lit "axi_file_compare_tb") 7 short_reference_world
  = Raise IndexError.
Proof.
  refine (proj1 (compare_tests_reuse (lit "axi_file_compare_tb") 7 short_reference_world
                   (File (lit "abc") 5) _ _ _) _).
  - vm_compute. reflexivity.
  - vm_compute. reflexivity.
  - left. split; [vm_compute; reflexivity|vm_compute; lia].
Defined.

(** When the five files are there, the compare builder reads nothing,
    writes nothing and draws nothing: it only registers its
    configuration. *)
Theorem compare_tests_nothing_to_do (entity : str) (seed : Z) (w : world) :
  (∀ p, p ∈ compare_paths w → is_Some (files w !! p)) →
  addAxiFileCompareTests entity seed w
  = Ok (tt, with_configs w [compare_config entity seed w]).
Proof.
  intros Hall.
  assert (is_Some (files w !! compare_input w)) as Hi
    by (apply Hall, list_elem_of_here).
  assert (is_Some (files w !! compare_reference w)) as [fr Hr]
    by (apply Hall, list_elem_of_further, list_elem_of_here).
  assert (is_Some (files w !! compare_single w)) as [f1 H1]
    by (apply Hall; do 2 apply list_elem_of_further; apply list_elem_of_here).
  assert (is_Some (files w !! compare_double w)) as [f2 H2]
    by (apply Hall; do 3 apply list_elem_of_further; apply list_elem_of_here).
  assert (is_Some (files w !! compare_last w)) as [f3 H3]
    by (apply Hall; do 4 apply list_elem_of_further; apply list_elem_of_here).
  rewrite compare_reuses by eauto.
  rewrite (compare_derivations_ok _ _ _ _ fr [] [] []); [|done|by rewrite ?H1, ?H2, ?H3..].
  rewrite (derived_present w (compare_single w)) by (by rewrite H1).
  rewrite (derived_present w (compare_double w)) by (by rewrite H2).
  by rewrite (derived_present w (compare_last w)) by (by rewrite H3).
Qed.

Lemma compare_tests_nothing_to_do_witness :
  addAxiFileCompareTests (lit "axi_file_compare_tb") 7 complete_world
  = Ok (tt, with_configs complete_world
              [compare_config (lit "axi_file_compare_tb") 7 complete_world]).
Proof.
  apply (compare_tests_nothing_to_do (lit "axi_file_compare_tb") 7 complete_world).
  apply (proj1 (Forall_forall _ _)).
  repeat constructor; vm_compute; eexists; reflexivity.
Defined.

(** ** The files of the reader test bench *)

Lemma vunit_out_file (name : str) w :
  head name ≠ Some "/"%char → vunit_out name w = Ok (out_file (ROOT w) name, w).
Proof.
  intros Hname. unfold vunit_out, out_file, get, mbind, M_bind, mret, M_ret.
  by rewrite (path_join_relative _ _ _ (last_vunit_dir _)).
Qed.

Lemma addAxiFileReaderTests_eq entity seed :
  addAxiFileReaderTests entity seed
  = for_each reader_table (λ row,
      all_configs ← for_fold row.2 [] (reader_body row.1);
      add_config (Config entity None (lit "multiple,data_width=" ++ format_d row.1)
        (dict [("DATA_WIDTH", VInt row.1);
               ("test_cfg", VStr (join (lit "|") all_configs));
               ("seed", VInt seed)]%string))).
Proof. reflexivity. Qed.






Lemma missing_or_stale_up_to_date tf rf w f1 f2 script :
  files w !! tf = Some f1 → files w !! rf = Some f2 → files w !! FILE_ w = Some script →
  mtime script ≤ Z.max (mtime f1) (mtime f2) →
  missing_or_stale tf rf w = Ok (false, w).
Proof.
  intros H1 H2 Hscript Hle. unfold missing_or_stale, exists_, get, mbind, M_bind.
  rewrite H1, H2, !bool_decide_eq_true_2 by eauto. cbn [andb negb].
  unfold getmtime. rewrite Hscript, H1, H2. unfold mret, M_ret.
  do 2 f_equal. apply Z.ltb_ge. lia.
Qed.


Lemma reader_body_head W L suffix :
  head ((lit "file_reader_data_width_" ++ format_d W ++ lit "_length_" ++ format_d L
         ++ lit "_bytes") ++ suffix) ≠ Some "/"%char.
Proof. done. Qed.








Lemma reader_body_up_to_date W L acc w f1 f2 script :
  files w !! reader_input (ROOT w) W L = Some f1 →
  files w !! reader_reference (ROOT w) W L = Some f2 →
  files w !! FILE_ w = Some script →
  mtime script ≤ Z.max (mtime f1) (mtime f2) →
  reader_body W acc L w = Ok (acc ++ [reader_test_cfg (ROOT w) W L], w).
Proof.
  intros H1 H2 Hscript Hle. unfold reader_body.
  rewrite (run_bind _ _ _ _ _ (vunit_out_file _ w (reader_body_head W L _))).
  rewrite (run_bind _ _ _ _ _ (vunit_out_file _ w (reader_body_head W L _))).
  fold (reader_basename W L). fold (reader_input (ROOT w) W L) (reader_reference (ROOT w) W L).
  by rewrite (run_bind _ _ _ _ _ (missing_or_stale_up_to_date _ _ _ _ _ _ H1 H2 Hscript Hle)).
Qed.

Lemma reader_lengths_up_to_date w W lens :
  (∀ L, L ∈ lens → ∃ f1 f2 script,
      files w !! reader_input (ROOT w) W L = Some f1
      ∧ files w !! reader_reference (ROOT w) W L = Some f2
      ∧ files w !! FILE_ w = Some script
      ∧ mtime script ≤ Z.max (mtime f1) (mtime f2)) →
  ∀ acc, for_fold lens acc (reader_body W) w
         = Ok (acc ++ (reader_test_cfg (ROOT w) W <$> lens), w).
Proof.
  induction lens as [|L lens IH]; intros Hall acc.
  - cbn [for_fold fmap list_fmap]. by rewrite app_nil_r.
  - destruct (Hall L (list_elem_of_here _ _)) as (f1 & f2 & script & H1 & H2 & Hs & Hle).
    cbn [for_fold].
    rewrite (run_bind _ _ _ _ _ (reader_body_up_to_date W L acc w _ _ _ H1 H2 Hs Hle)).
    rewrite IH by (intros L' HL'; by apply Hall, list_elem_of_further).
    by rewrite <- app_assoc.
Qed.

Lemma reader_table_up_to_date entity seed table :
  ∀ w, reader_up_to_date w table →
  for_each table (λ row,
    all_configs ← for_fold row.2 [] (reader_body row.1);
    add_config (Config entity None (lit "multiple,data_width=" ++ format_d row.1)
      (dict [("DATA_WIDTH", VInt row.1);
             ("test_cfg", VStr (join (lit "|") all_configs));
             ("seed", VInt seed)]%string))) w
  = Ok (tt, with_configs w (reader_config entity seed (ROOT w) <$> table)).
Proof.
  induction table as [|row table IH]; intros w Hall.
  - cbn [for_each fmap list_fmap]. by rewrite with_configs_nil.
  - cbn [for_each]. unfold mbind at 1, M_bind.
    rewrite (run_bind _ _ _ _ _
               (reader_lengths_up_to_date w row.1 row.2
                  (λ L HL, Hall row L (list_elem_of_here _ _) HL) [])).
    unfold add_config at 1.
    change (for_each table ?body _)
      with (for_each table body (with_configs w [reader_config entity seed (ROOT w) row])).
    rewrite IH.
    + change (ROOT (with_configs w _)) with (ROOT w).
      by rewrite with_configs_app.
    + intros row' L Hrow' HL. by apply Hall; [apply list_elem_of_further|].
Qed.

(** When every pair of files of the table is on the disk and at least one
    file of the pair is not older than the script, the reader builder
    draws nothing and writes nothing: it only registers its four
    configurations. *)
Theorem reader_tests_up_to_date (entity : str) (seed : Z) (w : world) :
  reader_up_to_date w reader_table →
  addAxiFileReaderTests entity seed w
  = Ok (tt, with_configs w (reader_config entity seed (ROOT w) <$> reader_table)).
Proof.
  intros Hall. rewrite addAxiFileReaderTests_eq. by apply reader_table_up_to_date.
Qed.

Lemma reader_up_to_date_Forall w table :
  Forall (λ row : Z * list Z,
    Forall (λ L, ∃ f1 f2 script,
      files w !! reader_input (ROOT w) row.1 L = Some f1
      ∧ files w !! reader_reference (ROOT w) row.1 L = Some f2
      ∧ files w !! FILE_ w = Some script
      ∧ mtime script ≤ Z.max (mtime f1) (mtime f2)) row.2) table →
  reader_up_to_date w table.
Proof.
  intros Hall row L Hrow HL. rewrite Forall_forall in Hall.
  specialize (Hall row Hrow). rewrite Forall_forall in Hall. by apply Hall.
Qed.

Lemma reader_tests_up_to_date_witness :
  addAxiFileReaderTests (lit "axi_file_reader_tb") 7 up_to_date_world
  = Ok (tt, with_configs up_to_date_world
              (reader_config (lit "axi_file_reader_tb") 7 (ROOT up_to_date_world)
               <$> reader_table)).
Proof.
  apply (reader_tests_up_to_date (lit "axi_file_reader_tb") 7 up_to_date_world).
  apply reader_up_to_date_Forall.
  repeat constructor;
    (eexists _, _, _; split_and!; [vm_compute; reflexivity..|vm_compute; discriminate]).
Defined.

(** ** The whole run *)


















(** ** The seed of the run *)

(** The default of [--seed] is drawn when the option is declared, so the
    generator advances by one draw whether or not a seed is given; a given
    seed is the seed of the run as it is, and without one the seed lies in
    [-2^31 .. 2^31], both ends included. *)
Theorem seed_of_the_run (seed_arg : option Z) (w : world) :
  ∃ seed, parse_args seed_arg w = Ok (seed, after_draws 1 w)
          ∧ match seed_arg with
            | Some s => seed = s
            | None => - 2 ^ 31 ≤ seed ≤ 2 ^ 31
            end.
Proof.
  eexists. split; [apply parse_args_eq|].
  destruct seed_arg as [s|]; [reflexivity|].
  cbn [from_option id]. unfold drawn. cbn [seq fmap list_fmap lookup_total list_lookup_total].
  change (Z.shiftl (-1) 31) with (- 2 ^ 31). change (Z.shiftl 1 31) with (2 ^ 31).
  pose proof (Z.mod_pos_bound (Z.of_N (rand_stream w (rand_pos w + 0)))
                (2 ^ 31 - - 2 ^ 31 + 1) ltac:(lia)).
  lia.
Qed.
